(** * A SAT toolkit: reducer, verifier and search engines

    Shallow embedding of the four C++ programs of the repository:

    - [reductionSAT_3SAT.cpp]      (module [Reducer]),
    - [SATVerifcator.cpp]          (module [Verifier]),
    - [SATSolverOverOptmised.cpp]  (module [Watched], the CDCL with watch lists),
    - [SATSOLverOPtimsed2.cpp]     (module [Rescan], the CDCL that re-scans clauses).

    Conventions.  A C++ [int] is a [Z]; signed overflow is undefined in C++
    and is outside the model.  Where the source compares an [int] with a
    [size_t] the implicit conversion to an unsigned 64-bit value is written
    out ([to_size_t]).  A [std::vector] is a [list]; [v[i]] is a lookup at
    [Z.to_nat i].  A [double] is a primitive binary64 float.  The ratios and
    the elapsed time of the statistics record are not represented, and the
    wall clock read by the timeout guard is an oracle of the guard. *)

From Stdlib Require Import ZArith Lia Bool Floats String Ascii.
From stdpp Require Import list.

Open Scope Z_scope.
Set Warnings "-inexact-float".

(** ** Shared conventions *)

(** Conversion of an [int] to [size_t] on a 64-bit target. *)
Definition to_size_t (i : Z) : Z := if i <? 0 then i + 2 ^ 64 else i.

(** [v.size()] as a mathematical integer. *)
Definition vsize {A} (v : list A) : Z := Z.of_nat (length v).

(** [v[i]] with the bounds made explicit: [None] stands for an access
    outside the vector, which C++ leaves undefined. *)
Definition vget {A} (v : list A) (i : Z) : option A :=
  if (0 <=? i) && (i <? vsize v) then v !! Z.to_nat i else None.

(** [v[i] = x], with the same convention. *)
Definition vset {A} (v : list A) (i : Z) (x : A) : option (list A) :=
  if (0 <=? i) && (i <? vsize v) then Some (<[Z.to_nat i := x]> v) else None.

(** [struct Clause { vector<int> literals; }] of the reducer and of the
    verifier: a positive integer is a positive literal, a negative one a
    negated literal. *)
Record Clause := mkClause { literals : list Z }.

(** [clause.size()] *)
Definition csize (c : Clause) : Z := vsize (literals c).

(** ** The SAT to 3-SAT reducer ([reductionSAT_3SAT.cpp]) *)

Module Reducer.

(** [struct CNFFormula] *)
Record CNFFormula := mkCNF {
  numVars : Z;
  numClauses : Z;
  clauses : list Clause
}.

(** The integer fields of [struct ReductionStats]. *)
Record ReductionStats := mkStats {
  originalVars : Z;
  originalClauses : Z;
  reducedVars : Z;
  reducedClauses : Z;
  auxVarsAdded : Z;
  totalLiteralsOriginal : Z;
  totalLiteralsReduced : Z
}.

(** [lits[i]] for an index inside the vector (every use below is). *)
Definition at_ (v : list Z) (i : Z) : Z := default 0 (v !! Z.to_nat i).

(** The member [nextAuxVar] is threaded explicitly: every helper takes its
    current value and returns the new one. *)

(** [reduceSize1]: (x) becomes four clauses over two fresh variables. *)
Definition reduceSize1 (nextAuxVar : Z) (lit : Z) : list Clause * Z :=
  let y := nextAuxVar in
  let z := nextAuxVar + 1 in
  ([ mkClause [lit; y; z];
     mkClause [lit; y; - z];
     mkClause [lit; - y; z];
     mkClause [lit; - y; - z] ],
   nextAuxVar + 2).

(** [reduceSize2]: (a ∨ b) becomes two clauses over one fresh variable. *)
Definition reduceSize2 (nextAuxVar : Z) (lit1 lit2 : Z) : list Clause * Z :=
  let y := nextAuxVar in
  ([ mkClause [lit1; lit2; y];
     mkClause [lit1; lit2; - y] ],
   nextAuxVar + 1).

(** The loop [for (i = 0; i < n; i++) auxVars.push_back(nextAuxVar++)]. *)
Fixpoint mintAux (n : nat) (nextAuxVar : Z) (auxVars : list Z) : list Z * Z :=
  match n with
  | O => (auxVars, nextAuxVar)
  | S n' => mintAux n' (nextAuxVar + 1) (auxVars ++ [nextAuxVar])
  end.

(** [reduceSizeK]: a clause of k ≥ 4 literals becomes a chain. *)
Definition reduceSizeK (nextAuxVar : Z) (lits : list Z) : list Clause * Z :=
  let k := vsize lits in
  if k <? 4 then ([], nextAuxVar)
  else
    let '(auxVars, next') := mintAux (Z.to_nat (k - 3)) nextAuxVar [] in
    let first := mkClause [at_ lits 0; at_ lits 1; at_ auxVars 0] in
    let middle :=
      map (fun i : nat =>
             let i := Z.of_nat i in
             mkClause [- at_ auxVars i; at_ lits (i + 2); at_ auxVars (i + 1)])
          (seq 0 (Z.to_nat (k - 4))) in
    let last := mkClause [- at_ auxVars (k - 4); at_ lits (k - 2); at_ lits (k - 1)] in
    ([first] ++ middle ++ [last], next').

(** Body of the reduction loop of [reduce] for one clause: the clauses
    appended to [reduced.clauses] and the new [nextAuxVar]. *)
Definition reduceClause (nextAuxVar : Z) (clause : Clause) : list Clause * Z :=
  let size := csize clause in
  if size =? 0 then ([], nextAuxVar)
  else if size =? 1 then reduceSize1 nextAuxVar (at_ (literals clause) 0)
  else if size =? 2 then
    reduceSize2 nextAuxVar (at_ (literals clause) 0) (at_ (literals clause) 1)
  else if size =? 3 then ([clause], nextAuxVar)
  else reduceSizeK nextAuxVar (literals clause).

(** The loop [for (const auto& clause : original.clauses)]. *)
Fixpoint reduceLoop (cs : list Clause) (reduced : list Clause) (nextAuxVar : Z)
  : list Clause * Z :=
  match cs with
  | [] => (reduced, nextAuxVar)
  | clause :: rest =>
      let '(newClauses, next') := reduceClause nextAuxVar clause in
      reduceLoop rest (reduced ++ newClauses) next'
  end.

(** Sum of the clause sizes, as both literal-counting loops compute it. *)
Definition totalLiterals (cs : list Clause) : Z :=
  fold_left (fun acc c => acc + csize c) cs 0.

(** [SATto3SATReducer::reduce] *)
Definition reduce (original : CNFFormula) : CNFFormula * ReductionStats :=
  let '(reducedClauses_, nextAuxVar) :=
    reduceLoop (clauses original) [] (numVars original + 1) in
  let reduced :=
    {| numVars := nextAuxVar - 1;
       numClauses := vsize reducedClauses_;
       clauses := reducedClauses_ |} in
  (reduced,
   {| originalVars := numVars original;
      originalClauses := vsize (clauses original);
      reducedVars := numVars reduced;
      reducedClauses := numClauses reduced;
      auxVarsAdded := numVars reduced - numVars original;
      totalLiteralsOriginal := totalLiterals (clauses original);
      totalLiteralsReduced := totalLiterals (clauses reduced) |}).

(** The clause-reading part of [CNFParser::parse] for one line, after the
    stream extraction [iss >> lit] turned the line into integers: literals
    are collected up to the first 0, and the clause is kept only when it is
    not empty. *)
Fixpoint readLits (ints : list Z) : list Z :=
  match ints with
  | [] => []
  | lit :: rest => if lit =? 0 then [] else lit :: readLits rest
  end.

Definition parseLine (ints : list Z) : list Clause :=
  let lits := readLits ints in
  if bool_decide (lits = []) then [] else [mkClause lits].

End Reducer.

(** ** The witness verifier ([SATVerifcator.cpp]) *)

Module Verifier.

(** [struct CNFInstance] *)
Record CNFInstance := mkInstance {
  numVars : Z;
  numClauses : Z;
  clauses : list Clause
}.

(** [struct Solution]: [assignment[v]] is -1 (unset), 0 (false) or 1 (true). *)
Record Solution := mkSolution {
  assignment : list Z;
  solVars : Z
}.

(** An exception of the standard library. *)
Inductive Exception := length_error | out_of_range.

(** Outcome of the code that builds a [Solution]: a value, an exception
    thrown by a library call, or ([Wild]) an access outside a vector. *)
Inductive Attempt (A : Type) :=
| Value (a : A)
| Throws (e : Exception)
| Wild.
Arguments Value {A} a.
Arguments Throws {A} e.
Arguments Wild {A}.

(** [vector<int8_t>::max_size()] on a 64-bit target. *)
Definition maxSize : Z := 2 ^ 63 - 1.

(** The constructor [Solution(int vars)]: [assignment.resize(vars + 1, -1)].
    The [int] argument is converted to [size_t]; a size above [max_size()]
    (any negative [vars + 1]) makes [resize] throw [std::length_error]. *)
Definition newSolution (vars : Z) : Attempt Solution :=
  let n := to_size_t (vars + 1) in
  if n >? maxSize then Throws length_error
  else Value {| assignment := replicate (Z.to_nat n) (-1); solVars := vars |}.

(** [Clause::isSatisfied].  The result is [None] when the scan reads outside
    the assignment vector. *)
Fixpoint isSatisfiedLits (lits : list Z) (assignment : list Z) : option bool :=
  match lits with
  | [] => Some false
  | lit :: rest =>
      let var := Z.abs lit in
      let sign := 0 <? lit in
      if to_size_t var <? vsize assignment then
        match vget assignment var with
        | None => None
        | Some x =>
            if negb (x =? -1) && Bool.eqb (x =? 1) sign then Some true
            else isSatisfiedLits rest assignment
        end
      else isSatisfiedLits rest assignment
  end.

Definition isSatisfied (c : Clause) (assignment : list Z) : option bool :=
  isSatisfiedLits (literals c) assignment.

(** [Solution::setLiteral]; [None] when the write falls outside the vector. *)
Definition setLiteral (s : Solution) (lit : Z) : option Solution :=
  let var := Z.abs lit in
  let value := 0 <? lit in
  if (0 <=? var) && (to_size_t var <? vsize (assignment s)) then
    match vset (assignment s) var (if value then 1 else 0) with
    | None => None
    | Some a => Some {| assignment := a; solVars := solVars s |}
    end
  else Some s.

(** The loop [while (iss >> lit)] of [SolutionParser::parse] over the
    integers extracted from the text of a [v] line: every literal before
    the first 0 is passed to [setLiteral]. *)
Fixpoint readLiterals (s : Solution) (ints : list Z) : option Solution :=
  match ints with
  | [] => Some s
  | lit :: rest =>
      if lit =? 0 then Some s
      else match setLiteral s lit with
           | None => None
           | Some s' => readLiterals s' rest
           end
  end.

Section SolutionParser.

(** The integers that repeated [iss >> lit] reads from a text, up to the
    first extraction that fails. *)
Variable extract : string -> list Z.




End SolutionParser.

(** What the message of [verify] is built from: the two counters, the
    number of clauses and, for every collected index, the 1-based clause
    number, at most ten of its literals and whether an ellipsis follows. *)
Record Example_ := mkExample {
  clauseNumber : Z;
  shownLiterals : list Z;
  ellipsis : bool
}.

Inductive Message :=
| EmptyInstance
| Summary (satisfiedClauses total unsatisfiedClauses : Z) (examples : list Example_).

(** The checking loop of [verify], from clause index [i] on.  It returns the
    two counters and [unsatisfiedIndices]; the [break] leaves the loop as
    soon as the vector holds more than ten indices. *)
Fixpoint verifyLoop (cs : list Clause) (i : Z) (assignment : list Z)
    (satisfiedClauses unsatisfiedClauses : Z) (unsatisfiedIndices : list Z)
  : option (Z * Z * list Z) :=
  match cs with
  | [] => Some (satisfiedClauses, unsatisfiedClauses, unsatisfiedIndices)
  | clause :: rest =>
      match isSatisfied clause assignment with
      | None => None
      | Some true =>
          verifyLoop rest (i + 1) assignment
            (satisfiedClauses + 1) unsatisfiedClauses unsatisfiedIndices
      | Some false =>
          let unsatisfiedIndices := unsatisfiedIndices ++ [i] in
          if vsize unsatisfiedIndices >? 10 then
            Some (satisfiedClauses, unsatisfiedClauses + 1, unsatisfiedIndices)
          else
            verifyLoop rest (i + 1) assignment
              satisfiedClauses (unsatisfiedClauses + 1) unsatisfiedIndices
      end
  end.

(** The rendering loop over [unsatisfiedIndices]. *)
Fixpoint examplesOf (cs : list Clause) (idxs : list Z) : option (list Example_) :=
  match idxs with
  | [] => Some []
  | idx :: rest =>
      match vget cs idx, examplesOf cs rest with
      | Some clause, Some exs =>
          Some ({| clauseNumber := idx + 1;
                   shownLiterals := take 10 (literals clause);
                   ellipsis := vsize (literals clause) >? 10 |} :: exs)
      | _, _ => None
      end
  end.

(** The three local variables of [verify] after its checking loop. *)
Definition verifyScan (instance : CNFInstance) (solution : Solution)
  : option (Z * Z * list Z) :=
  verifyLoop (clauses instance) 0 (assignment solution) 0 0 [].

(** [SATVerifier::verify] *)
Definition verify (instance : CNFInstance) (solution : Solution)
  : option (bool * Message) :=
  if bool_decide (clauses instance = []) then Some (true, EmptyInstance)
  else
    match verifyScan instance solution with
    | None => None
    | Some (satisfiedClauses, unsatisfiedClauses, unsatisfiedIndices) =>
        match (if unsatisfiedClauses >? 0
               then examplesOf (clauses instance) unsatisfiedIndices
               else Some []) with
        | None => None
        | Some exs =>
            Some (unsatisfiedClauses =? 0,
                  Summary satisfiedClauses (vsize (clauses instance))
                          unsatisfiedClauses exs)
        end
    end.

End Verifier.

(** ** Data shared by the two solver programs

    [SATSolverOverOptmised.cpp] and [SATSOLverOPtimsed2.cpp] declare the
    same [Lit], [Clause], [Assignment] fields and [TimeoutManager]. *)

Module SolverData.

(** [struct Lit] *)
Record Lit := mkLit { var : Z; sign : bool }.

(** [Lit(int v = 0, bool s = true)] with its default arguments. *)
Definition defaultLit : Lit := mkLit 0 true.

Definition toInt (l : Lit) : Z := if sign l then var l else - var l.

(** [struct Clause] of the solvers. *)
Record SClause := mkSClause { lits : list Lit; id : Z }.

(** [struct Assignment]: [values[v]] is -1 (unset), 0 or 1; [trail] grows at
    its end ([push_back]) and shrinks there ([pop_back]). *)
Record Assignment := mkAssignment {
  values : list Z;
  trail : list Z
}.

(** [Assignment(int maxVars)]: [values.resize(maxVars + 1, -1)]. *)
Definition newAssignment (maxVars : Z) : Assignment :=
  {| values := replicate (Z.to_nat (maxVars + 1)) (-1); trail := [] |}.

(** [values[var]] where the source reads it without a test of its own; every
    such read follows a successful [contains] or uses a variable of the
    trail.  Outside the vector the model reads -1. *)
Definition valueAt (a : Assignment) (var : Z) : Z :=
  default (-1) (vget (values a) var).

(** [Assignment::contains] *)
Definition contains (a : Assignment) (var : Z) : bool :=
  (0 <? var) && (to_size_t var <? vsize (values a)) && negb (valueAt a var =? -1).

(** [Assignment::getValue] *)
Definition getValue (a : Assignment) (var : Z) : bool := valueAt a var =? 1.

(** [Assignment::unassign] *)
Definition unassign (a : Assignment) (var : Z) : Assignment :=
  if (var <=? 0) || (to_size_t var >=? vsize (values a)) then a
  else {| values := <[Z.to_nat var := -1]> (values a); trail := trail a |}.

(** [trail.back()] and [trail.pop_back()] *)
Definition back (t : list Z) : Z := default 0 (last t).
Definition pop_back (t : list Z) : list Z := take (length t - 1) t.

(** [Assignment::backtrackTo]: the loop runs while
    [trail.size() > position], the [int] being converted to [size_t]; each
    round removes one element, so [length (trail a)] rounds are enough. *)
Fixpoint backtrackLoop (rounds : nat) (a : Assignment) (position : Z) : Assignment :=
  match rounds with
  | O => a
  | S rounds' =>
      if vsize (trail a) >? to_size_t position then
        let a1 := unassign a (back (trail a)) in
        backtrackLoop rounds' {| values := values a1; trail := pop_back (trail a1) |} position
      else a
  end.

Definition backtrackTo (a : Assignment) (position : Z) : Assignment :=
  backtrackLoop (length (trail a)) a position.

(** [Assignment::size] *)
Definition size (a : Assignment) : Z := vsize (trail a).

(** The test [assignment.contains(lit.var) && assignment.getValue(lit.var) == lit.sign]. *)
Definition litTrue (a : Assignment) (l : Lit) : bool :=
  contains a (var l) && Bool.eqb (getValue a (var l)) (sign l).

(** [class TimeoutManager].  [elapsed c] is the number of whole seconds the
    clock shows when it is sampled at the [c]-th call of [check]. *)
Record TimeoutManager := mkTM {
  timeoutSeconds : Z;
  checkCounter : Z;
  elapsed : Z -> Z
}.

(** Outcome of a computation that may throw [runtime_error("TIMEOUT")].
    [OutOfFuel] is not an outcome of the program: it marks a run of the
    model that was given too few loop rounds. *)
Inductive Res (A : Type) :=
| Ok (a : A)
| Timeout
| OutOfFuel.
Arguments Ok {A} a.
Arguments Timeout {A}.
Arguments OutOfFuel {A}.

Definition bind {A B} (r : Res A) (k : A -> Res B) : Res B :=
  match r with
  | Ok a => k a
  | Timeout => Timeout
  | OutOfFuel => OutOfFuel
  end.

(** [TimeoutManager::check] *)
Definition check (tm : TimeoutManager) : Res TimeoutManager :=
  let c := checkCounter tm + 1 in
  let tm' := {| timeoutSeconds := timeoutSeconds tm; checkCounter := c; elapsed := elapsed tm |} in
  if Z.rem c 10000 =? 0 then
    if elapsed tm c >? timeoutSeconds tm then Timeout else Ok tm'
  else Ok tm'.

(** [if (tm) tm->check();] for a pointer that may be null. *)
Definition checkIf (tm : option TimeoutManager) : Res (option TimeoutManager) :=
  match tm with
  | None => Ok None
  | Some t => bind (check t) (fun t' => Ok (Some t'))
  end.

(** The search [for (int i = 1; i <= numVars; i++) if (!contains(i)) { var = i; break; }]
    started from [var = -1]; [n] counts the remaining rounds. *)
Fixpoint firstUnsetFrom (n : nat) (i : Z) (a : Assignment) : Z :=
  match n with
  | O => -1
  | S n' => if negb (contains a i) then i else firstUnsetFrom n' (i + 1) a
  end.

Definition firstUnset (a : Assignment) (numVars : Z) : Z :=
  firstUnsetFrom (Z.to_nat numVars) 1 a.

(** State threaded through a recursive search: the assignment passed by
    reference, the guard behind the pointer [tm] and the static counter
    [nodesExplored]. *)
Record Search := mkSearch {
  sAssignment : Assignment;
  sTm : option TimeoutManager;
  sNodes : Z
}.

Section Dpll.

(** The two files differ in [Assignment::assign] and in how the test that
    every clause is satisfied is written; the recursive procedures are
    otherwise the same text. *)
Variable assign : Assignment -> Z -> bool -> Assignment.
Variable allSatisfied : list SClause -> Assignment -> bool.

(** The variable selection: the inline loop of [NaiveSolver::dpll] or
    [selectVariableMOMS]. *)
Variable pick : list SClause -> Assignment -> Z -> Z.

(** The body of [NaiveSolver::dpll] and [MOMSSolver::dpll].  [fuel] bounds
    the recursion depth. *)
Fixpoint dpllWith (fuel : nat) (clauses : list SClause) (numVars : Z) (s : Search)
  : Res (bool * Search) :=
  match fuel with
  | O => OutOfFuel
  | S fuel' =>
      bind (checkIf (sTm s)) (fun tm =>
      let s := {| sAssignment := sAssignment s; sTm := tm; sNodes := sNodes s + 1 |} in
      if allSatisfied clauses (sAssignment s) then Ok (true, s)
      else
        let var := pick clauses (sAssignment s) numVars in
        if var =? -1 then Ok (false, s)
        else
          let s1 := {| sAssignment := assign (sAssignment s) var true;
                       sTm := sTm s; sNodes := sNodes s |} in
          bind (dpllWith fuel' clauses numVars s1) (fun '(r, s2) =>
          if r then Ok (true, s2)
          else
            let a3 := assign (unassign (sAssignment s2) var) var false in
            let s3 := {| sAssignment := a3; sTm := sTm s2; sNodes := sNodes s2 |} in
            bind (dpllWith fuel' clauses numVars s3) (fun '(r, s4) =>
            if r then Ok (true, s4)
            else Ok (false, {| sAssignment := unassign (sAssignment s4) var;
                               sTm := sTm s4; sNodes := sNodes s4 |}))))
  end.

(** The [solve] wrappers: a fresh assignment, the counter reset to 0. *)
Definition solveWith (fuel : nat) (clauses : list SClause) (numVars : Z)
    (tm : option TimeoutManager) : Res (bool * Assignment) :=
  bind (dpllWith fuel clauses numVars
          {| sAssignment := newAssignment numVars; sTm := tm; sNodes := 0 |})
       (fun '(r, s) => Ok (r, sAssignment s)).

End Dpll.

(** The inline selection loop of [NaiveSolver::dpll]. *)
Definition naivePick (clauses : list SClause) (a : Assignment) (numVars : Z) : Z :=
  firstUnset a numVars.

Section MOMS.

(** The order in which a [std::unordered_map] is traversed is left to the
    implementation: [bucketOrder] maps the entries, listed in order of
    first insertion, to the traversal order. *)
Variable bucketOrder : list (Z * Z) -> list (Z * Z).

(** The test that skips a satisfied clause, written inline in one file and
    as [clause.isSatisfied(assignment.values)] in the other. *)
Variable clauseSatisfied : Assignment -> SClause -> bool.

(** [litCount[key]++] *)
Fixpoint increment (key : Z) (litCount : list (Z * Z)) : list (Z * Z) :=
  match litCount with
  | [] => [(key, 1)]
  | (k, n) :: rest =>
      if k =? key then (k, n + 1) :: rest else (k, n) :: increment key rest
  end.

(** The counting loops of [selectVariableMOMS]. *)
Definition countClause (a : Assignment) (litCount : list (Z * Z)) (clause : SClause)
  : list (Z * Z) :=
  if clauseSatisfied a clause then litCount
  else fold_left (fun lc lit => if negb (contains a (var lit))
                                then increment (toInt lit) lc else lc)
                 (lits clause) litCount.

(** The maximum search: a strictly greater count replaces the best. *)
Fixpoint bestOf (entries : list (Z * Z)) (bestLit maxCount : Z) : Z :=
  match entries with
  | [] => bestLit
  | (lit, count) :: rest =>
      if count >? maxCount then bestOf rest lit count
      else bestOf rest bestLit maxCount
  end.

(** [MOMSSolver::selectVariableMOMS] *)
Definition selectVariableMOMS (clauses : list SClause) (a : Assignment) : Z :=
  let litCount := fold_left (countClause a) clauses [] in
  match bucketOrder litCount with
  | [] => -1
  | (lit0, count0) :: _ => Z.abs (bestOf (bucketOrder litCount) lit0 count0)
  end.

Definition momsPick (clauses : list SClause) (a : Assignment) (numVars : Z) : Z :=
  selectVariableMOMS clauses a.

End MOMS.

(** The activity table of a CDCL solver: [activity], [varInc], [varDecay]. *)
Record Vsids := mkVsids {
  activity : list float;
  varInc : float;
  varDecay : float
}.

Definition activityAt (v : Vsids) (i : Z) : float :=
  default 0%float (vget (activity v) i).

(** [bumpActivity] *)
Definition bumpActivity (v : Vsids) (var : Z) : Vsids :=
  if (var <=? 0) || (to_size_t var >=? vsize (activity v)) then v
  else
    let act := <[Z.to_nat var := (activityAt v var + varInc v)%float]> (activity v) in
    let v1 := {| activity := act; varInc := varInc v; varDecay := varDecay v |} in
    if PrimFloat.ltb 1e100%float (activityAt v1 var) then
      {| activity := map (fun a => (a * 1e-100)%float) act;
         varInc := (varInc v * 1e-100)%float;
         varDecay := varDecay v |}
    else v1.

(** [decayActivities] *)
Definition decayActivities (v : Vsids) : Vsids :=
  {| activity := activity v; varInc := (varInc v / varDecay v)%float; varDecay := varDecay v |}.

(** [selectVariable]: the loop over [i = 1 .. numVars] with its two locals. *)
Fixpoint selectLoop (n : nat) (i : Z) (a : Assignment) (v : Vsids)
    (bestVar : Z) (bestScore : float) : Z :=
  match n with
  | O => bestVar
  | S n' =>
      if negb (contains a i) && PrimFloat.ltb bestScore (activityAt v i)
      then selectLoop n' (i + 1) a v i (activityAt v i)
      else selectLoop n' (i + 1) a v bestVar bestScore
  end.

Definition selectVariable (a : Assignment) (v : Vsids) (numVars : Z) : Z :=
  selectLoop (Z.to_nat numVars) 1 a v (-1) (-1)%float.

(** The activity table built by the constructor of [FastCDCLSolver]. *)
Definition newVsids (nv : Z) : Vsids :=
  {| activity := replicate (Z.to_nat (nv + 1)) 0%float;
     varInc := 1%float; varDecay := 0.95%float |}.

(** The return statements of [FastCDCLSolver::solve], in source order.  The
    tag is not part of what the program returns ([pair<bool, Assignment>]);
    it records which statement produced the pair. *)
Inductive Exit :=
| AtConflict      (* return {false, assignment}; // UNSAT, in the conflict branch *)
| AtVerified      (* return {true, assignment}; after the check of all clauses *)
| AtEmptyTrail    (* return {false, assignment}; total, not verified, trail empty *)
| AtNoVariable    (* the return taken when no variable is left to decide *)
| AtCap.          (* return {false, assignment}; after the while loop *)

End SolverData.

(** ** [SATSolverOverOptmised.cpp]: the solvers with watch lists *)

Module Watched.
Import SolverData.

(** [Assignment::assign] of this file: no test of the current value. *)
Definition assign (a : Assignment) (var : Z) (value : bool) : Assignment :=
  if (var <=? 0) || (to_size_t var >=? vsize (values a)) then a
  else {| values := <[Z.to_nat var := if value then 1 else 0]> (values a);
          trail := trail a ++ [var] |}.

(** [NaiveSolver::isSatisfied] (and the identical [MOMSSolver::isSatisfied]
    and final check of [FastCDCLSolver::solve]). *)
Definition isSatisfied (clauses : list SClause) (a : Assignment) : bool :=
  forallb (fun clause => existsb (litTrue a) (lits clause)) clauses.

(** [NaiveSolver::dpll], [NaiveSolver::solve] *)
Definition naiveDpll := dpllWith assign isSatisfied naivePick.
Definition naiveSolve := solveWith assign isSatisfied naivePick.

(** [MOMSSolver::dpll], [MOMSSolver::solve]; the clause test of
    [selectVariableMOMS] is the inline loop over the literals. *)
Definition clauseTrue (a : Assignment) (clause : SClause) : bool :=
  existsb (litTrue a) (lits clause).

Definition momsDpll (bucketOrder : list (Z * Z) -> list (Z * Z)) :=
  dpllWith assign isSatisfied (momsPick bucketOrder clauseTrue).
Definition momsSolve (bucketOrder : list (Z * Z) -> list (Z * Z)) :=
  solveWith assign isSatisfied (momsPick bucketOrder clauseTrue).

(** *** [FastCDCLSolver] *)

(** [litToIdx] *)
Definition litToIdx (lit : Z) : Z :=
  if 0 <? lit then 2 * lit else 2 * (- lit) + 1.

(** [watches[idx].push_back(i)]; an index outside the table, which C++
    leaves undefined, changes nothing here. *)
Definition watch (watches : list (list Z)) (idx i : Z) : list (list Z) :=
  if (0 <=? idx) && (idx <? vsize watches)
  then alter (fun l => l ++ [i]) (Z.to_nat idx) watches
  else watches.

(** [initWatches]: the first two literals of every clause watch it. *)
Fixpoint initWatchesLoop (cs : list SClause) (i : Z) (watches : list (list Z))
  : list (list Z) :=
  match cs with
  | [] => watches
  | c :: rest =>
      let w1 := match lits c with
                | l0 :: _ => watch watches (litToIdx (toInt l0)) i
                | _ => watches
                end in
      let w2 := match lits c with
                | _ :: l1 :: _ => watch w1 (litToIdx (toInt l1)) i
                | _ => w1
                end in
      initWatchesLoop rest (i + 1) w2
  end.

Definition initWatches (clauses : list SClause) (numVars : Z) : list (list Z) :=
  initWatchesLoop clauses 0 (replicate (Z.to_nat (2 * numVars + 2)) []).

(** The members of [FastCDCLSolver]. *)
Record Solver := mkSolver {
  clauses : list SClause;
  numVars : Z;
  assignment : Assignment;
  watches : list (list Z);
  vsids : Vsids
}.

(** The constructor. *)
Definition newSolver (cls : list SClause) (nv : Z) : Solver :=
  {| clauses := cls; numVars := nv; assignment := newAssignment nv;
     watches := initWatches cls nv; vsids := newVsids nv |}.

(** The scan of one clause inside [propagate]: [satisfied],
    [unassignedLit] and [unassignedCount] after the loop over its literals. *)
Fixpoint scan (a : Assignment) (ls : list Lit) (unassignedLit : Lit) (unassignedCount : Z)
  : bool * Lit * Z :=
  match ls with
  | [] => (false, unassignedLit, unassignedCount)
  | lit :: rest =>
      if contains a (var lit) then
        if Bool.eqb (getValue a (var lit)) (sign lit)
        then (true, unassignedLit, unassignedCount)
        else scan a rest unassignedLit unassignedCount
      else scan a rest lit (unassignedCount + 1)
  end.

(** The [for] loop of [propagate] over one watch list.  The list is not
    changed by the loop and [i] advances in every round.  The boolean is
    [false] when the loop was left by [return false] (a conflict); the
    assignment, the activities and the queue are those at that moment. *)
Fixpoint visitWatchers (cls : list SClause) (watchList : list Z)
    (a : Assignment) (v : Vsids) (propQueue : list Z)
  : bool * Assignment * Vsids * list Z :=
  match watchList with
  | [] => (true, a, v, propQueue)
  | clauseIdx :: rest =>
      let clause := default (mkSClause [] (-1)) (vget cls clauseIdx) in
      let '(satisfied, unassignedLit, unassignedCount) :=
        scan a (lits clause) defaultLit 0 in
      if satisfied then visitWatchers cls rest a v propQueue
      else if unassignedCount =? 0 then (false, a, v, propQueue)
      else if unassignedCount =? 1 then
        let a' := assign a (var unassignedLit) (sign unassignedLit) in
        let v' := bumpActivity v (var unassignedLit) in
        let newFalseLit :=
          if sign unassignedLit then - var unassignedLit else var unassignedLit in
        visitWatchers cls rest a' v' (propQueue ++ [newFalseLit])
      else visitWatchers cls rest a v propQueue
  end.

(** The [while (!propQueue.empty())] loop of [propagate]; the boolean is
    the value returned by [propagate]. *)
Fixpoint drain (fuel : nat) (s : Solver) (tm : option TimeoutManager) (propQueue : list Z)
  : Res (bool * Solver * option TimeoutManager) :=
  match propQueue with
  | [] => Ok (true, s, tm)
  | falseLit :: queue' =>
      match fuel with
      | O => OutOfFuel
      | S fuel' =>
          bind (checkIf tm) (fun tm' =>
          let watchList := default [] (vget (watches s) (litToIdx falseLit)) in
          let '(ok, a, v, q) :=
            visitWatchers (clauses s) watchList (assignment s) (vsids s) queue' in
          let s' := {| clauses := clauses s; numVars := numVars s;
                       assignment := a; watches := watches s; vsids := v |} in
          if ok then drain fuel' s' tm' q else Ok (false, s', tm'))
      end
  end.

(** [FastCDCLSolver::propagate] *)
Definition propagate (fuel : nat) (s : Solver) (tm : option TimeoutManager)
  : Res (bool * Solver * option TimeoutManager) :=
  let propQueue :=
    match trail (assignment s) with
    | [] => []
    | _ =>
        let var := back (trail (assignment s)) in
        let val := getValue (assignment s) var in
        [if val then - var else var]
    end in
  drain fuel s tm propQueue.

(** The locals of [solve] together with the solver, the guard and the
    static counter [nodesExplored]. *)
Record State := mkState {
  solver : Solver;
  conflicts : Z;
  decisions : Z;
  nodesExplored : Z;
  guard : option TimeoutManager
}.

(** One round of the [while] loop: either the loop goes on with a new
    state, or [solve] returns. *)
Inductive Step :=
| Continue (s : State)
| Return (e : Exit) (result : bool) (a : Assignment).

Definition withAssignment (s : Solver) (a : Assignment) : Solver :=
  {| clauses := clauses s; numVars := numVars s; assignment := a;
     watches := watches s; vsids := vsids s |}.

Definition withVsids (s : Solver) (v : Vsids) : Solver :=
  {| clauses := clauses s; numVars := numVars s; assignment := assignment s;
     watches := watches s; vsids := v |}.

(** The branch taken when [propagate] returned [false]; [s] already holds
    the incremented counters and the state left by [propagate]. *)
Definition onConflict (s : State) : Step :=
  let conflicts := conflicts s + 1 in
  let a := assignment (solver s) in
  if vsize (trail a) <=? 1 then Return AtConflict false a
  else
    let backtrackPos := vsize (trail a) / 2 in
    let a1 := backtrackTo a backtrackPos in
    let v1 := if Z.rem conflicts 50 =? 0 then decayActivities (vsids (solver s))
              else vsids (solver s) in
    let '(a2, conflicts2) :=
      if conflicts >? 100 then (backtrackTo a1 0, 0) else (a1, conflicts) in
    Continue {| solver := withVsids (withAssignment (solver s) a2) v1;
                conflicts := conflicts2; decisions := decisions s;
                nodesExplored := nodesExplored s; guard := guard s |}.

(** The rest of the round when [propagate] returned [true]. *)
Definition onConsistent (s : State) : Step :=
  let sv := solver s in
  let a := assignment sv in
  if (size a =? to_size_t (numVars sv)) && isSatisfied (clauses sv) a
  then Return AtVerified true a
  else
    let var := selectVariable a (vsids sv) (numVars sv) in
    let var := if var =? -1 then firstUnset a (numVars sv) else var in
    if var =? -1 then Return AtNoVariable (size a =? to_size_t (numVars sv)) a
    else
      let polarity := if Z.rem (decisions s) 3 =? 0 then false else true in
      Continue {| solver := withAssignment sv (assign a var polarity);
                  conflicts := conflicts s; decisions := decisions s;
                  nodesExplored := nodesExplored s; guard := guard s |}.

(** The body of [while (decisions < 1000000)]. *)
Definition step (fuel : nat) (s : State) : Res Step :=
  let s := {| solver := solver s; conflicts := conflicts s;
              decisions := decisions s + 1;
              nodesExplored := nodesExplored s + 1; guard := guard s |} in
  bind (checkIf (guard s)) (fun tm =>
  bind (propagate fuel (solver s) tm) (fun '(ok, sv, tm') =>
  let s' := {| solver := sv; conflicts := conflicts s; decisions := decisions s;
               nodesExplored := nodesExplored s; guard := tm' |} in
  Ok (if ok then onConsistent s' else onConflict s'))).

Definition maxDecisions : Z := 1000000.

(** The [while] loop; [rounds] bounds the number of rounds and [fuel] the
    work of each [propagate]. *)
Fixpoint loop (rounds fuel : nat) (s : State) : Res (Exit * bool * Assignment) :=
  if decisions s <? maxDecisions then
    match rounds with
    | O => OutOfFuel
    | S rounds' =>
        bind (step fuel s) (fun st =>
        match st with
        | Continue s' => loop rounds' fuel s'
        | Return e r a => Ok (e, r, a)
        end)
    end
  else Ok (AtCap, false, assignment (solver s)).

Definition initial (cls : list SClause) (nv : Z) (tm : option TimeoutManager) : State :=
  {| solver := newSolver cls nv; conflicts := 0; decisions := 0;
     nodesExplored := 0; guard := tm |}.

(** [FastCDCLSolver::solve], with the return statement that was taken. *)
Definition solveTagged (rounds fuel : nat) (cls : list SClause) (nv : Z)
    (tm : option TimeoutManager) : Res (Exit * bool * Assignment) :=
  loop rounds fuel (initial cls nv tm).

(** [FastCDCLSolver::solve] on a freshly constructed solver. *)
Definition solve (rounds fuel : nat) (cls : list SClause) (nv : Z)
    (tm : option TimeoutManager) : Res (bool * Assignment) :=
  bind (solveTagged rounds fuel cls nv tm) (fun '(_, r, a) => Ok (r, a)).

End Watched.

(** ** [SATSOLverOPtimsed2.cpp]: the solvers that re-scan the clauses *)

Module Rescan.
Import SolverData.

(** [Clause::isSatisfied] of this file, on the vector of values. *)
Definition clauseIsSatisfied (values : list Z) (clause : SClause) : bool :=
  existsb (fun lit =>
             (to_size_t (var lit) <? vsize values)
             && negb (default (-1) (vget values (var lit)) =? -1)
             && Bool.eqb (default (-1) (vget values (var lit)) =? 1) (sign lit))
          (lits clause).

(** [Assignment::assign] of this file: only an unset variable is written. *)
Definition assign (a : Assignment) (var : Z) (value : bool) : Assignment :=
  if (var <=? 0) || (to_size_t var >=? vsize (values a)) then a
  else if valueAt a var =? -1 then
    {| values := <[Z.to_nat var := if value then 1 else 0]> (values a);
       trail := trail a ++ [var] |}
  else a.

(** [Assignment::verifySolution] *)
Definition verifySolution (clauses : list SClause) (a : Assignment) : bool :=
  forallb (clauseIsSatisfied (values a)) clauses.

(** [NaiveSolver::dpll], [NaiveSolver::solve] *)
Definition naiveDpll := dpllWith assign verifySolution naivePick.
Definition naiveSolve := solveWith assign verifySolution naivePick.

(** [MOMSSolver::dpll], [MOMSSolver::solve] *)
Definition clauseTrue (a : Assignment) (clause : SClause) : bool :=
  clauseIsSatisfied (values a) clause.

Definition momsDpll (bucketOrder : list (Z * Z) -> list (Z * Z)) :=
  dpllWith assign verifySolution (momsPick bucketOrder clauseTrue).
Definition momsSolve (bucketOrder : list (Z * Z) -> list (Z * Z)) :=
  solveWith assign verifySolution (momsPick bucketOrder clauseTrue).

(** *** [FastCDCLSolver] *)

(** The members of [FastCDCLSolver]. *)
Record Solver := mkSolver {
  clauses : list SClause;
  numVars : Z;
  assignment : Assignment;
  vsids : Vsids
}.

Definition newSolver (cls : list SClause) (nv : Z) : Solver :=
  {| clauses := cls; numVars := nv; assignment := newAssignment nv;
     vsids := newVsids nv |}.

(** The scan of one unsatisfied clause inside [unitPropagation]:
    [unassignedLit], [unassignedCount] and [hasConflict] after the loop. *)
Fixpoint scan (a : Assignment) (ls : list Lit)
    (unassignedLit : Lit) (unassignedCount : Z) (hasConflict : bool)
  : Lit * Z * bool :=
  match ls with
  | [] => (unassignedLit, unassignedCount, hasConflict)
  | lit :: rest =>
      if negb (contains a (var lit)) then scan a rest lit (unassignedCount + 1) false
      else if Bool.eqb (getValue a (var lit)) (sign lit)
           then (unassignedLit, unassignedCount, false)
           else scan a rest unassignedLit unassignedCount hasConflict
  end.

(** The [for] loop of [unitPropagation] over all clauses.  The first
    boolean is [false] when the loop was left by [return false]; the second
    is [changed]. *)
Fixpoint pass (cs : list SClause) (a : Assignment) (v : Vsids) (changed : bool)
  : bool * Assignment * Vsids * bool :=
  match cs with
  | [] => (true, a, v, changed)
  | clause :: rest =>
      if clauseIsSatisfied (values a) clause then pass rest a v changed
      else
        let '(unassignedLit, unassignedCount, hasConflict) :=
          scan a (lits clause) defaultLit 0 true in
        if hasConflict && (unassignedCount =? 0) then (false, a, v, changed)
        else if unassignedCount =? 1 then
          pass rest (assign a (var unassignedLit) (sign unassignedLit))
               (bumpActivity v (var unassignedLit)) true
        else pass rest a v changed
  end.

Definition withAssignment (s : Solver) (a : Assignment) : Solver :=
  {| clauses := clauses s; numVars := numVars s; assignment := a; vsids := vsids s |}.

Definition withVsids (s : Solver) (v : Vsids) : Solver :=
  {| clauses := clauses s; numVars := numVars s; assignment := assignment s; vsids := v |}.

(** [FastCDCLSolver::unitPropagation]: the [while (changed)] loop, entered
    with [changed = true]. *)
Fixpoint unitPropagation (fuel : nat) (s : Solver) (tm : option TimeoutManager)
  : Res (bool * Solver * option TimeoutManager) :=
  match fuel with
  | O => OutOfFuel
  | S fuel' =>
      bind (checkIf tm) (fun tm' =>
      let '(ok, a, v, changed) := pass (clauses s) (assignment s) (vsids s) false in
      let s' := withVsids (withAssignment s a) v in
      if negb ok then Ok (false, s', tm')
      else if changed then unitPropagation fuel' s' tm'
      else Ok (true, s', tm'))
  end.

Record State := mkState {
  solver : Solver;
  conflicts : Z;
  decisions : Z;
  nodesExplored : Z;
  guard : option TimeoutManager
}.

Inductive Step :=
| Continue (s : State)
| Return (e : Exit) (result : bool) (a : Assignment).

(** The branch taken when [unitPropagation] returned [false]. *)
Definition onConflict (s : State) : Step :=
  let conflicts := conflicts s + 1 in
  let a := assignment (solver s) in
  if vsize (trail a) <=? 1 then Return AtConflict false a
  else
    let backtrackPos := Z.max 0 (vsize (trail a) - 5) in
    let a1 := backtrackTo a backtrackPos in
    let v1 := if Z.rem conflicts 100 =? 0 then decayActivities (vsids (solver s))
              else vsids (solver s) in
    let '(a2, conflicts2) :=
      if conflicts >? 200 * (1 + Z.quot conflicts 1000)
      then (backtrackTo a1 0, 0) else (a1, conflicts) in
    Continue {| solver := withVsids (withAssignment (solver s) a2) v1;
                conflicts := conflicts2; decisions := decisions s;
                nodesExplored := nodesExplored s; guard := guard s |}.

(** The decision at the end of a round. *)
Definition decide_ (s : State) : Step :=
  let sv := solver s in
  let a := assignment sv in
  let var := selectVariable a (vsids sv) (numVars sv) in
  let var := if var =? -1 then firstUnset a (numVars sv) else var in
  if var =? -1 then
    if verifySolution (clauses sv) a then Return AtNoVariable true a
    else Return AtNoVariable false a
  else
    let polarity := Z.rem (decisions s) 2 =? 0 in
    Continue {| solver := withAssignment sv (assign a var polarity);
                conflicts := conflicts s; decisions := decisions s;
                nodesExplored := nodesExplored s; guard := guard s |}.

(** The rest of the round when [unitPropagation] returned [true]. *)
Definition onConsistent (s : State) : Step :=
  let sv := solver s in
  let a := assignment sv in
  if size a =? to_size_t (numVars sv) then
    if verifySolution (clauses sv) a then Return AtVerified true a
    else if vsize (trail a) >? 0 then
      let backtrackPos := vsize (trail a) / 2 in
      Continue {| solver := withAssignment sv (backtrackTo a backtrackPos);
                  conflicts := conflicts s; decisions := decisions s;
                  nodesExplored := nodesExplored s; guard := guard s |}
    else Return AtEmptyTrail false a
  else decide_ s.

(** The body of [while (decisions < maxDecisions)]. *)
Definition step (fuel : nat) (s : State) : Res Step :=
  let s := {| solver := solver s; conflicts := conflicts s;
              decisions := decisions s + 1;
              nodesExplored := nodesExplored s + 1; guard := guard s |} in
  bind (checkIf (guard s)) (fun tm =>
  bind (unitPropagation fuel (solver s) tm) (fun '(ok, sv, tm') =>
  let s' := {| solver := sv; conflicts := conflicts s; decisions := decisions s;
               nodesExplored := nodesExplored s; guard := tm' |} in
  Ok (if ok then onConsistent s' else onConflict s'))).

Definition maxDecisions : Z := 5000000.

Fixpoint loop (rounds fuel : nat) (s : State) : Res (Exit * bool * Assignment) :=
  if decisions s <? maxDecisions then
    match rounds with
    | O => OutOfFuel
    | S rounds' =>
        bind (step fuel s) (fun st =>
        match st with
        | Continue s' => loop rounds' fuel s'
        | Return e r a => Ok (e, r, a)
        end)
    end
  else Ok (AtCap, false, assignment (solver s)).

Definition initial (cls : list SClause) (nv : Z) (tm : option TimeoutManager) : State :=
  {| solver := newSolver cls nv; conflicts := 0; decisions := 0;
     nodesExplored := 0; guard := tm |}.

(** [FastCDCLSolver::solve], with the return statement that was taken. *)
Definition solveTagged (rounds fuel : nat) (cls : list SClause) (nv : Z)
    (tm : option TimeoutManager) : Res (Exit * bool * Assignment) :=
  loop rounds fuel (initial cls nv tm).

Definition solve (rounds fuel : nat) (cls : list SClause) (nv : Z)
    (tm : option TimeoutManager) : Res (bool * Assignment) :=
  bind (solveTagged rounds fuel cls nv tm) (fun '(_, r, a) => Ok (r, a)).

End Rescan.

(** ** Notions used to state the properties *)

Module Props.

(** *** The reduction rules, as the design states them *)

(** Number of auxiliary variables a clause of the given size asks for. *)
Definition auxCount (c : Clause) : Z :=
  let k := csize c in
  if k =? 0 then 0
  else if k =? 1 then 2
  else if k =? 2 then 1
  else if k =? 3 then 0
  else k - 3.

(** The chain for a clause (x₁ ∨ … ∨ xₖ), k ≥ 4, with auxiliaries
    y₁ = next, y₂ = next + 1, …: (x₁ ∨ x₂ ∨ y₁), then (¬yᵢ ∨ xᵢ₊₂ ∨ yᵢ₊₁)
    for i = 1 … k−4, then (¬y_{k−3} ∨ x_{k−1} ∨ xₖ). *)
Definition chainSpec (next : Z) (lits : list Z) : list Clause :=
  let k := vsize lits in
  let x (i : Z) := Reducer.at_ lits (i - 1) in
  let y (i : Z) := next + i - 1 in
  [mkClause [x 1; x 2; y 1]]
  ++ map (fun i : nat => let i := Z.of_nat i in
                         mkClause [- y i; x (i + 2); y (i + 1)])
         (seq 1 (Z.to_nat (k - 4)))
  ++ [mkClause [- y (k - 3); x (k - 1); x k]].

(** The clauses emitted for a list of clauses when the first fresh variable
    is [next]: each clause takes its auxiliaries right after those of the
    clauses before it. *)
Fixpoint emitted (next : Z) (cs : list Clause) : list Clause :=
  match cs with
  | [] => []
  | c :: rest => fst (Reducer.reduceClause next c) ++ emitted (next + auxCount c) rest
  end.

(** Total number of auxiliaries of a clause list. *)
Definition auxTotal (cs : list Clause) : Z :=
  fold_right (fun c acc => auxCount c + acc) 0 cs.

(** Number of clauses with exactly one literal. *)
Definition unitClauses (cs : list Clause) : Z :=
  vsize (filter (fun c => csize c = 1) cs).

(** The chain written by recursion on the literals that remain after the
    first clause: [chainTail y rest] continues a chain whose last auxiliary
    is [y]. *)
Fixpoint chainTail (y : Z) (rest : list Z) : list Clause :=
  match rest with
  | [] => []
  | [a] => []
  | [a; b] => [mkClause [- y; a; b]]
  | a :: rest' => mkClause [- y; a; y + 1] :: chainTail (y + 1) rest'
  end.

Definition chain (next : Z) (lits : list Z) : list Clause :=
  match lits with
  | x1 :: x2 :: rest => mkClause [x1; x2; next] :: chainTail next rest
  | _ => []
  end.

(** *** Satisfaction, by the verifier's own clause evaluation *)

(** The assignment vector [a] makes every clause true. *)
Definition satisfies (a : list Z) (cs : list Clause) : Prop :=
  forall c, c ∈ cs -> Verifier.isSatisfied c a = Some true.

Definition satisfiable (cs : list Clause) : Prop :=
  exists a, satisfies a cs.

(** The projection of a witness on the variables 1..N: the vector a
    [Solution(N)] holds after reading the witness. *)
Definition restrict (N : Z) (a : list Z) : list Z := take (Z.to_nat (N + 1)) a.

(** The formula invariant of the data model, with the parser's guarantee
    that no clause is empty. *)
Definition inRange (N : Z) (c : Clause) : Prop :=
  forall l, l ∈ literals c -> 1 <= Z.abs l <= N.

Definition wellFormed (F : Reducer.CNFFormula) : Prop :=
  forall c, c ∈ Reducer.clauses F -> literals c <> [] /\ inRange (Reducer.numVars F) c.

(** The value of a literal under an assignment vector, as
    [Clause::isSatisfied] tests it. *)
Definition litHolds (a : list Z) (lit : Z) : bool :=
  match a !! Z.to_nat (Z.abs lit) with
  | Some x => negb (x =? -1) && Bool.eqb (x =? 1) (0 <? lit)
  | None => false
  end.

(** A clause is true under an assignment vector. *)
Definition holds (a : list Z) (c : Clause) : bool :=
  existsb (litHolds a) (literals c).

(** Total valuations of the variables, used to build witnesses. *)
Definition litVal (v : Z -> bool) (lit : Z) : bool :=
  if 0 <? lit then v lit else negb (v (- lit)).

Definition holdsVal (v : Z -> bool) (c : Clause) : bool :=
  existsb (litVal v) (literals c).

(** The total valuation read off an assignment vector (unset counts as
    false) and the vector of length [n] that tabulates a valuation. *)
Definition valOf (a : list Z) (x : Z) : bool := litHolds a x.

Definition vectorOf (v : Z -> bool) (n : nat) : list Z :=
  map (fun i : nat => if v (Z.of_nat i) then 1 else 0) (seq 0 n).

(** Every variable of the clause is below [m]. *)
Definition bounded (m : Z) (c : Clause) : Prop :=
  forall l, l ∈ literals c -> Z.abs l < m.

(** [v] with the variable [x] set to [b]. *)
Definition setVal (v : Z -> bool) (x : Z) (b : bool) : Z -> bool :=
  fun y => if y =? x then b else v y.

(** *** The verifier's diagnostics *)

(** The indices, counted from [i], of the clauses that have no true
    literal, in clause order. *)
Fixpoint falsifiedFrom (a : list Z) (i : Z) (cs : list Clause) : list Z :=
  match cs with
  | [] => []
  | c :: rest =>
      if holds a c then falsifiedFrom a (i + 1) rest
      else i :: falsifiedFrom a (i + 1) rest
  end.

(** *** Sequences of operations on an assignment *)

Inductive Op :=
| OpAssign (var : Z) (value : bool)
| OpUnassign (var : Z)
| OpBacktrackTo (position : Z).

Definition isUnassign (op : Op) : bool :=
  match op with OpUnassign _ => true | _ => false end.

Section Ops.
Import SolverData.

(** [assign] is the operation of the file under study. *)
Variable assign : Assignment -> Z -> bool -> Assignment.

Definition applyOp (a : Assignment) (op : Op) : Assignment :=
  match op with
  | OpAssign var value => assign a var value
  | OpUnassign var => unassign a var
  | OpBacktrackTo position => backtrackTo a position
  end.

Definition runOps (ops : list Op) (a : Assignment) : Assignment :=
  fold_left applyOp ops a.

End Ops.

(** The trail invariants I1 and I2 of the data model. *)
Definition trailInvariant (a : SolverData.Assignment) : Prop :=
  NoDup (SolverData.trail a) /\
  forall v, v ∈ SolverData.trail a <-> SolverData.contains a v = true.

(** *** Concrete formulas and states used as examples *)

(** A literal of the solvers from its DIMACS integer, as the parsers build
    it: [Lit(abs(lit), lit > 0)]. *)
Definition lit (z : Z) : SolverData.Lit := SolverData.mkLit (Z.abs z) (0 <? z).

Definition clauseOf (i : Z) (zs : list Z) : SolverData.SClause :=
  SolverData.mkSClause (map lit zs) i.

(** [p cnf 2 2], clauses [2 0] and [-2 0]. *)
Definition contradiction2 : list SolverData.SClause :=
  [clauseOf 0 [2]; clauseOf 1 [-2]].

(** [p cnf 2 2], clauses [1 2 0] and [1 -2 0]. *)
Definition needsOne : list SolverData.SClause :=
  [clauseOf 0 [1; 2]; clauseOf 1 [1; -2]].

(** [p cnf 4 1], clause [-1 -2 3 -4 0]. *)
Definition fourLiterals : list SolverData.SClause :=
  [clauseOf 0 [-1; -2; 3; -4]].

(** The watch-list solver on [contradiction2] after its first two
    decisions (1 and 2 both true). *)
Definition watchedAtConflict : Watched.State :=
  {| Watched.solver :=
       Watched.withAssignment (Watched.newSolver contradiction2 2)
         (SolverData.mkAssignment [-1; 1; 1] [1; 2]);
     Watched.conflicts := 0; Watched.decisions := 2;
     Watched.nodesExplored := 2; Watched.guard := None |}.

(** The re-scanning solver on [needsOne] after its first decision
    (1 false). *)
Definition rescanAtConflict : Rescan.State :=
  {| Rescan.solver :=
       Rescan.withAssignment (Rescan.newSolver needsOne 2)
         (SolverData.mkAssignment [-1; 0; -1] [1]);
     Rescan.conflicts := 0; Rescan.decisions := 1;
     Rescan.nodesExplored := 1; Rescan.guard := None |}.

(** The re-scanning solver with one declared variable, set to false, and
    the clause [1 2 3 0], whose other literals are outside the declared
    range. *)
Definition rescanUnverified : Rescan.State :=
  {| Rescan.solver :=
       Rescan.withAssignment (Rescan.newSolver [clauseOf 0 [1; 2; 3]] 1)
         (SolverData.mkAssignment [-1; 0] [1]);
     Rescan.conflicts := 0; Rescan.decisions := 1;
     Rescan.nodesExplored := 1; Rescan.guard := None |}.




(** The number of literals of [ls] that are equal to [k] and whose variable
    is not set, and the sum of these numbers over the clauses that the
    test of [selectVariableMOMS] does not skip. *)
Fixpoint occurrencesIn (a : SolverData.Assignment) (ls : list SolverData.Lit) (k : Z) : Z :=
  match ls with
  | [] => 0
  | l :: rest =>
      (if negb (SolverData.contains a (SolverData.var l)) && (SolverData.toInt l =? k)
       then 1 else 0) + occurrencesIn a rest k
  end.

Fixpoint occurrences (sat : SolverData.Assignment -> SolverData.SClause -> bool)
    (a : SolverData.Assignment) (cls : list SolverData.SClause) (k : Z) : Z :=
  match cls with
  | [] => 0
  | c :: rest =>
      (if sat a c then 0 else occurrencesIn a (SolverData.lits c) k)
      + occurrences sat a rest k
  end.

(** [litCount[k]] read without inserting: 0 for a key that is absent. *)
Fixpoint countOf (litCount : list (Z * Z)) (k : Z) : Z :=
  match litCount with
  | [] => 0
  | (k', n) :: rest => if k' =? k then n else countOf rest k
  end.

(** The clauses of index [i] that the literal of table index [idx] watches
    after [initWatches]: those whose first or second literal it is. *)
Definition watchedBy (cls : list SolverData.SClause) (idx i : Z) : Prop :=
  0 <= i /\
  exists c l, cls !! Z.to_nat i = Some c /\
              (SolverData.lits c !! 0%nat = Some l \/ SolverData.lits c !! 1%nat = Some l) /\
              Watched.litToIdx (SolverData.toInt l) = idx.

(** The number of literals of [ls] whose variable is not set, and the test
    that every literal of a clause is set and false. *)
Fixpoint unsetCount (a : SolverData.Assignment) (ls : list SolverData.Lit) : Z :=
  match ls with
  | [] => 0
  | l :: rest =>
      (if SolverData.contains a (SolverData.var l) then 0 else 1) + unsetCount a rest
  end.

Definition falsified (a : SolverData.Assignment) (c : SolverData.SClause) : bool :=
  forallb (fun l => SolverData.contains a (SolverData.var l)
                    && negb (Bool.eqb (SolverData.getValue a (SolverData.var l))
                                      (SolverData.sign l)))
          (SolverData.lits c).

(** The number of variables of 1..n that are not set. *)
Fixpoint unsetBelow (a : SolverData.Assignment) (n : nat) : Z :=
  match n with
  | O => 0
  | S n' => (if SolverData.contains a (Z.of_nat n) then 0 else 1) + unsetBelow a n'
  end.

(** Every literal of the clauses names a variable of 1..n. *)
Definition literalsInRange (cls : list SolverData.SClause) (n : Z) : Prop :=
  forall c l, c ∈ cls -> l ∈ SolverData.lits c -> 1 <= SolverData.var l <= n.

End Props.

(** ** Reading and writing formulas and witnesses *)

Module Dimacs.

(** A line of a DIMACS file, by the case [CNFParser::parse] puts it in: an
    empty line, a line starting with [c], the header [p cnf N M] with its
    two numbers, and any other line with the integers [iss >> lit] reads
    from it. *)
Inductive Line :=
| Blank
| Comment
| Header (numVars numClauses : Z)
| Ints (ints : list Z).

(** The [getline] loop of [CNFParser::parse] of [reductionSAT_3SAT.cpp]. *)
Fixpoint parseLines (formula : Reducer.CNFFormula) (lines : list Line)
  : Reducer.CNFFormula :=
  match lines with
  | [] => formula
  | Blank :: rest => parseLines formula rest
  | Comment :: rest => parseLines formula rest
  | Header nv nc :: rest =>
      parseLines {| Reducer.numVars := nv; Reducer.numClauses := nc;
                    Reducer.clauses := Reducer.clauses formula |} rest
  | Ints ints :: rest =>
      parseLines {| Reducer.numVars := Reducer.numVars formula;
                    Reducer.numClauses := Reducer.numClauses formula;
                    Reducer.clauses :=
                      Reducer.clauses formula ++ Reducer.parseLine ints |} rest
  end.

(** [CNFParser::parse] on the lines of a file that could be opened; the
    formula starts as [CNFFormula()]. *)
Definition parse (lines : list Line) : Reducer.CNFFormula :=
  parseLines {| Reducer.numVars := 0; Reducer.numClauses := 0;
                Reducer.clauses := [] |} lines.

(** [CNFWriter::write]: three comment lines, the header, then one line per
    clause with its literals followed by 0. *)
Definition write (formula : Reducer.CNFFormula) : list Line :=
  [Comment; Comment; Comment;
   Header (Reducer.numVars formula) (Reducer.numClauses formula)]
  ++ map (fun clause => Ints (literals clause ++ [0])) (Reducer.clauses formula).

(** The [v] line of [SolutionConverter::convertSolution]: the literals
    before the first 0 whose variable is at most [originalVars], then 0. *)
Fixpoint convertLiterals (originalVars : Z) (ints : list Z) : list Z :=
  match ints with
  | [] => [0]
  | lit :: rest =>
      if lit =? 0 then [0]
      else if Z.abs lit <=? originalVars
           then lit :: convertLiterals originalVars rest
           else convertLiterals originalVars rest
  end.

(** The [v] line of [saveSolutionToFile]: the loop over [i = 1 .. numVars]
    writes [i] or [-i] for every set variable, then 0. *)
Fixpoint solutionLineFrom (n : nat) (i : Z) (a : SolverData.Assignment) : list Z :=
  match n with
  | O => [0]
  | S n' =>
      if SolverData.contains a i
      then (if SolverData.getValue a i then i else - i) :: solutionLineFrom n' (i + 1) a
      else solutionLineFrom n' (i + 1) a
  end.

Definition solutionLine (a : SolverData.Assignment) (numVars : Z) : list Z :=
  solutionLineFrom (Z.to_nat numVars) 1 a.

End Dimacs.

(** * Proof tools *)

Ltac clause_eq := repeat first [reflexivity | lia | progress f_equal].

(** * Properties *)

(** ** The reducer: shape of the output *)

Section ReducerShape.
Import Reducer Props.



Lemma mintAux_spec n next acc :
  mintAux n next acc =
  (acc ++ map (fun i : nat => next + Z.of_nat i) (seq 0 n), next + Z.of_nat n).
Proof.
  revert next acc. induction n as [|n IH]; intros next acc; simpl.
  - rewrite app_nil_r. f_equal. lia.
  - rewrite IH. rewrite <- app_assoc. simpl. f_equal.
    + f_equal. f_equal.
      * f_equal. lia.
      * rewrite <- seq_shift, map_map. apply map_ext. intros i. lia.
    + lia.
Qed.

Lemma at_minted next n i :
  0 <= i < Z.of_nat n ->
  at_ (map (fun j : nat => next + Z.of_nat j) (seq 0 n)) i = next + i.
Proof.
  intros Hi. unfold at_.
  rewrite list_lookup_fmap, lookup_seq_lt by lia.
  simpl. lia.
Qed.

Lemma reduceSizeK_chainSpec next lits :
  4 <= vsize lits ->
  reduceSizeK next lits = (chainSpec next lits, next + vsize lits - 3).
Proof.
  intros Hk. unfold reduceSizeK, chainSpec.
  destruct (Z.ltb_spec (vsize lits) 4) as [?|_]; [lia|].
  rewrite mintAux_spec. simpl app at 1.
  set (n := Z.to_nat (vsize lits - 3)).
  assert (Hn : Z.of_nat n = vsize lits - 3) by (unfold n; lia).
  f_equal; [|lia].
  rewrite at_minted by lia.
  change ([?c] ++ ?r) with (c :: r).
  f_equal; [clause_eq|].
  f_equal.
  - rewrite <- seq_shift, map_map. apply map_ext_in. intros i Hi.
    apply in_seq in Hi.
    rewrite !at_minted by lia.
    do 2 f_equal; [lia|]. f_equal; [f_equal; lia|]. f_equal. lia.
  - rewrite at_minted by lia.
    do 3 f_equal; [lia|]. f_equal. f_equal. lia.
Qed.

Lemma at_cons x l i : 0 < i -> at_ (x :: l) i = at_ l (i - 1).
Proof.
  intros Hi. unfold at_.
  replace (Z.to_nat i) with (S (Z.to_nat (i - 1))) by lia. reflexivity.
Qed.

Lemma chainTail_indexed rest : forall y,
  (2 <= length rest)%nat ->
  chainTail y rest =
  map (fun i : nat => mkClause [- (y + Z.of_nat i); at_ rest (Z.of_nat i);
                                y + Z.of_nat i + 1])
      (seq 0 (length rest - 2))
  ++ [mkClause [- (y + vsize rest - 2); at_ rest (vsize rest - 2);
                at_ rest (vsize rest - 1)]].
Proof.
  induction rest as [|a rest IH]; intros y Hlen; [simpl in Hlen; lia|].
  destruct rest as [|b rest]; [simpl in Hlen; lia|].
  destruct rest as [|c rest].
  - simpl. unfold vsize. simpl. repeat f_equal. lia.
  - change (chainTail y (a :: b :: c :: rest))
      with (mkClause [- y; a; y + 1] :: chainTail (y + 1) (b :: c :: rest)).
    rewrite IH by (simpl; lia).
    replace (length (a :: b :: c :: rest) - 2)%nat
      with (S (length (b :: c :: rest) - 2)) by (simpl; lia).
    rewrite <- cons_seq. simpl map at 2.
    rewrite <- app_comm_cons. f_equal.
    { change (at_ (a :: b :: c :: rest) (Z.of_nat 0)) with a.
      clause_eq. }
    f_equal.
    + rewrite <- seq_shift, map_map. apply map_ext. intros i.
      rewrite (at_cons a) by lia.
      clause_eq.
    + unfold vsize. rewrite !(at_cons a) by (simpl; lia).
      cbn [length]. clause_eq.
Qed.

Lemma chainSpec_chain next lits :
  4 <= vsize lits -> chainSpec next lits = chain next lits.
Proof.
  intros Hk. destruct lits as [|x1 [|x2 rest]]; try (unfold vsize in Hk; simpl in Hk; lia).
  unfold chain, chainSpec.
  assert (Hr : vsize (x1 :: x2 :: rest) = vsize rest + 2)
    by (unfold vsize; simpl; lia).
  rewrite chainTail_indexed by (unfold vsize in *; simpl in *; lia).
  change ([?c] ++ ?r) with (c :: r).
  f_equal; [clause_eq|].
  rewrite Hr. f_equal.
  - replace (Z.to_nat (vsize rest + 2 - 4)) with (length rest - 2)%nat
      by (unfold vsize; lia).
    rewrite <- seq_shift, map_map. apply map_ext. intros i.
    rewrite !at_cons by lia.
    clause_eq.
  - rewrite !at_cons by lia. clause_eq.
Qed.

Lemma chainTail_length rest y :
  (2 <= length rest)%nat -> length (chainTail y rest) = (length rest - 1)%nat.
Proof.
  revert y. induction rest as [|a rest IH]; intros y Hlen; [simpl in Hlen; lia|].
  destruct rest as [|b [|c rest]]; [simpl in Hlen; lia|reflexivity|].
  change (chainTail y (a :: b :: c :: rest))
    with (mkClause [- y; a; y + 1] :: chainTail (y + 1) (b :: c :: rest)).
  cbn [length]. rewrite IH by (simpl; lia). simpl. lia.
Qed.

Lemma chainTail_three rest y c :
  c ∈ chainTail y rest -> length (literals c) = 3%nat.
Proof.
  revert y. induction rest as [|a rest IH]; intros y Hc; [inversion Hc|].
  destruct rest as [|b [|d rest]]; [inversion Hc| |].
  - apply list_elem_of_singleton in Hc. subst c. reflexivity.
  - change (chainTail y (a :: b :: d :: rest))
      with (mkClause [- y; a; y + 1] :: chainTail (y + 1) (b :: d :: rest)) in Hc.
    apply elem_of_cons in Hc as [->|Hc]; [reflexivity|]. eapply IH, Hc.
Qed.

(** What [reduceClause] does, by the shape of the clause. *)
Lemma reduceClause_cases next c :
  reduceClause next c =
  match literals c with
  | [] => ([], next)
  | [x] => reduceSize1 next x
  | [a; b] => reduceSize2 next a b
  | [_; _; _] => ([c], next)
  | lits => (chain next lits, next + vsize lits - 3)
  end.
Proof.
  unfold reduceClause, csize.
  destruct (literals c) as [|x1 [|x2 [|x3 [|x4 rest]]]] eqn:E; try reflexivity.
  assert (Hk : 4 <= vsize (x1 :: x2 :: x3 :: x4 :: rest))
    by (unfold vsize; simpl; lia).
  rewrite !(proj2 (Z.eqb_neq _ _)) by lia.
  rewrite reduceSizeK_chainSpec, chainSpec_chain by exact Hk. reflexivity.
Qed.

Lemma reduceClause_next next c :
  snd (reduceClause next c) = next + auxCount c.
Proof.
  rewrite reduceClause_cases. unfold auxCount, csize.
  destruct (literals c) as [|x1 [|x2 [|x3 [|x4 rest]]]]; try (simpl; lia).
  assert (Hk : 4 <= vsize (x1 :: x2 :: x3 :: x4 :: rest))
    by (unfold vsize; simpl; lia).
  rewrite !(proj2 (Z.eqb_neq _ _)) by lia. cbn [snd]. lia.
Qed.

Lemma reduceClause_three next c c' :
  c' ∈ fst (reduceClause next c) -> length (literals c') = 3%nat.
Proof.
  rewrite reduceClause_cases.
  destruct (literals c) as [|x1 [|x2 [|x3 [|x4 rest]]]] eqn:E;
    cbn [fst reduceSize1 reduceSize2 chain]; intros H.
  - inversion H.
  - repeat (apply elem_of_cons in H as [->|H]; [reflexivity|]). inversion H.
  - repeat (apply elem_of_cons in H as [->|H]; [reflexivity|]). inversion H.
  - apply list_elem_of_singleton in H. subst c'. rewrite E. reflexivity.
  - apply elem_of_cons in H as [->|H]; [reflexivity|].
    eapply chainTail_three, H.
Qed.

Lemma reduceLoop_emitted cs : forall reduced next,
  reduceLoop cs reduced next = (reduced ++ emitted next cs, next + auxTotal cs).
Proof.
  induction cs as [|c cs IH]; intros reduced next; simpl.
  - rewrite app_nil_r. f_equal. lia.
  - pose proof (reduceClause_next next c) as Hn.
    destruct (reduceClause next c) as [new next'] eqn:E. simpl in Hn. subst next'.
    rewrite IH, <- app_assoc. f_equal. lia.
Qed.

Lemma reduce_clauses F :
  clauses (fst (reduce F)) = emitted (numVars F + 1) (clauses F).
Proof.
  unfold reduce. rewrite reduceLoop_emitted. reflexivity.
Qed.

Lemma reduce_numVars F :
  numVars (fst (reduce F)) = numVars F + auxTotal (clauses F).
Proof.
  unfold reduce. rewrite reduceLoop_emitted. simpl. lia.
Qed.

Lemma totalLiterals_acc cs : forall acc,
  fold_left (fun acc c => acc + csize c) cs acc = acc + totalLiterals cs.
Proof.
  unfold totalLiterals.
  induction cs as [|c cs IH]; intros acc; simpl; [lia|].
  rewrite IH, (IH (0 + csize c)). lia.
Qed.

Lemma totalLiterals_cons c cs :
  totalLiterals (c :: cs) = csize c + totalLiterals cs.
Proof. unfold totalLiterals at 1. simpl. apply totalLiterals_acc. Qed.

Lemma unitClauses_cons c cs :
  unitClauses (c :: cs) = (if csize c =? 1 then 1 else 0) + unitClauses cs.
Proof.
  unfold unitClauses. rewrite filter_cons.
  destruct (Z.eqb_spec (csize c) 1); destruct (decide (csize c = 1)); try lia.
  unfold vsize. simpl. lia.
Qed.

Lemma csize_nonneg c : 0 <= csize c.
Proof. unfold csize, vsize. lia. Qed.

Lemma auxCount_bound c :
  auxCount c <= csize c + (if csize c =? 1 then 1 else 0).
Proof.
  unfold auxCount. pose proof (csize_nonneg c).
  destruct (Z.eqb_spec (csize c) 0), (Z.eqb_spec (csize c) 1),
    (Z.eqb_spec (csize c) 2), (Z.eqb_spec (csize c) 3); lia.
Qed.

Lemma reduceClause_count next c :
  vsize (fst (reduceClause next c)) <= csize c + 3 * (if csize c =? 1 then 1 else 0).
Proof.
  rewrite reduceClause_cases. unfold csize.
  destruct (literals c) as [|x1 [|x2 [|x3 [|x4 rest]]]]; try (vm_compute; discriminate).
  cbn [fst chain]. unfold vsize. cbn [length].
  rewrite chainTail_length by (simpl; lia). cbn [length].
  destruct (Z.eqb_spec (Z.of_nat (S (S (S (S (length rest)))))) 1); lia.
Qed.

Lemma emitted_bounds cs : forall next,
  auxTotal cs <= totalLiterals cs + unitClauses cs /\
  vsize (emitted next cs) <= totalLiterals cs + 3 * unitClauses cs.
Proof.
  induction cs as [|c cs IH]; intros next.
  - vm_compute. split; discriminate.
  - rewrite totalLiterals_cons, unitClauses_cons.
    destruct (IH (next + auxCount c)) as [IHa IHc].
    pose proof (auxCount_bound c). pose proof (reduceClause_count next c).
    split.
    + simpl. lia.
    + cbn [emitted]. unfold vsize in *. rewrite length_app. lia.
Qed.

(** Claim C3.  The reducer follows the per-size rules: a clause (x) gives
    the four clauses over two fresh variables, (a ∨ b) gives two clauses
    over one fresh variable, a clause of three literals passes unchanged, a
    clause of k ≥ 4 literals gives the chain of k − 2 clauses over k − 3
    fresh variables; every emitted clause has three literals; the
    auxiliaries are taken consecutively from N + 1 in the order of the
    clauses; and 1 2 3 4 5 with N = 5 gives 1 2 6, -6 3 7, -7 4 5. *)
Theorem reduce_per_size_rules :
  (forall next x,
      reduceClause next (mkClause [x]) =
      ([mkClause [x; next; next + 1]; mkClause [x; next; - (next + 1)];
        mkClause [x; - next; next + 1]; mkClause [x; - next; - (next + 1)]],
       next + 2)) /\
  (forall next a b,
      reduceClause next (mkClause [a; b]) =
      ([mkClause [a; b; next]; mkClause [a; b; - next]], next + 1)) /\
  (forall next a b c,
      reduceClause next (mkClause [a; b; c]) = ([mkClause [a; b; c]], next)) /\
  (forall next lits,
      4 <= vsize lits ->
      reduceClause next (mkClause lits) =
        (chainSpec next lits, next + (vsize lits - 3)) /\
      vsize (chainSpec next lits) = vsize lits - 2) /\
  (forall next c c',
      c' ∈ fst (reduceClause next c) -> length (literals c') = 3%nat) /\
  (forall F,
      clauses (fst (reduce F)) = emitted (numVars F + 1) (clauses F) /\
      numVars (fst (reduce F)) = numVars F + auxTotal (clauses F)) /\
  clauses (fst (reduce (mkCNF 5 1 [mkClause [1; 2; 3; 4; 5]]))) =
    [mkClause [1; 2; 6]; mkClause [-6; 3; 7]; mkClause [-7; 4; 5]].
Proof.
  split; [intros; reflexivity|].
  split; [intros; reflexivity|].
  split; [intros; reflexivity|].
  split.
  { intros next lits Hk. split.
    - rewrite reduceClause_cases. cbn [literals].
      destruct lits as [|x1 [|x2 [|x3 [|x4 rest]]]];
        try (unfold vsize in Hk; simpl in Hk; lia).
      rewrite chainSpec_chain by exact Hk. f_equal. lia.
    - rewrite chainSpec_chain by assumption.
      destruct lits as [|x1 [|x2 rest]]; try (unfold vsize in *; simpl in *; lia).
      unfold vsize in *. cbn [chain length] in *.
      rewrite chainTail_length by lia. lia. }
  split; [apply reduceClause_three|].
  split; [|reflexivity].
  intros F. split; [apply reduce_clauses|apply reduce_numVars].
Qed.

Lemma reduce_per_size_rules_witness :
  4 <= vsize [1; 2; 3; 4; 5] /\
  reduceClause 6 (mkClause [1; 2; 3; 4; 5]) =
    (chainSpec 6 [1; 2; 3; 4; 5], 6 + (vsize [1; 2; 3; 4; 5] - 3)) /\
  mkClause [1; 2; 6] ∈ fst (reduceClause 6 (mkClause [1; 2; 3; 4; 5])) /\
  length (literals (mkClause [1; 2; 6])) = 3%nat.
Proof.
  assert (H4 : 4 <= vsize [1; 2; 3; 4; 5]) by (vm_compute; discriminate).
  assert (Hin : mkClause [1; 2; 6] ∈ fst (reduceClause 6 (mkClause [1; 2; 3; 4; 5])))
    by (vm_compute; left).
  destruct reduce_per_size_rules as (_ & _ & _ & Hk & H3 & _).
  split; [exact H4|]. split; [exact (proj1 (Hk 6 [1; 2; 3; 4; 5] H4))|].
  split; [exact Hin|]. exact (H3 6 _ _ Hin).
Defined.

(** Every clause the reducer emits has exactly three literals, whatever
    the input, and the clause-reading part of the parser keeps no empty
    clause. *)
Theorem reduce_output_three_literals :
  forall F,
    (forall c', c' ∈ clauses (fst (reduce F)) -> length (literals c') = 3%nat) /\
    (forall ints c, c ∈ parseLine ints -> literals c <> []).
Proof.
  intros F. split.
  - rewrite reduce_clauses. generalize (numVars F + 1).
    induction (clauses F) as [|c cs IH]; intros next c' Hc'; [inversion Hc'|].
    cbn [emitted] in Hc'. apply elem_of_app in Hc' as [Hc'|Hc'].
    + eapply reduceClause_three, Hc'.
    + eapply IH, Hc'.
  - intros ints c. unfold parseLine. case_bool_decide as Hl; intros Hc.
    + inversion Hc.
    + apply list_elem_of_singleton in Hc. subst c. exact Hl.
Qed.

Lemma reduce_output_three_literals_witness :
  mkClause [7; 8; 9] ∈ clauses (fst (reduce (mkCNF 7 1 [mkClause [7]]))) /\
  length (literals (mkClause [7; 8; 9])) = 3%nat /\
  mkClause [4; -2] ∈ parseLine [4; -2; 0] /\
  literals (mkClause [4; -2]) <> [].
Proof.
  assert (Hin : mkClause [7; 8; 9] ∈ clauses (fst (reduce (mkCNF 7 1 [mkClause [7]]))))
    by (vm_compute; left).
  assert (Hp : mkClause [4; -2] ∈ parseLine [4; -2; 0]) by (vm_compute; left).
  destruct (reduce_output_three_literals (mkCNF 7 1 [mkClause [7]])) as (H3 & Hparse).
  split; [exact Hin|]. split; [exact (H3 _ Hin)|].
  split; [exact Hp|]. exact (Hparse _ _ Hp).
Defined.

(** Claim C7, at the input on which the code departs from it: the formula
    with the clauses (1 ∨ 2 ∨ 3) and the empty clause.  The branch of
    [reduce] for a clause of size 0, whose comment reads that the formula
    is unsatisfiable, emits nothing: the output holds the first clause only
    and no empty clause. *)
Theorem reduce_empty_clause_lost :
  let F := mkCNF 3 2 [mkClause [1; 2; 3]; mkClause []] in
  mkClause [] ∈ clauses F /\
  clauses (fst (reduce F)) = [mkClause [1; 2; 3]] /\
  ~ (exists c', c' ∈ clauses (fst (reduce F)) /\ literals c' = []).
Proof.
  cbn zeta. split; [right; left|]. split; [reflexivity|].
  intros (c' & Hc' & He). vm_compute in Hc'.
  apply list_elem_of_singleton in Hc'. subst c'. discriminate He.
Qed.

(** Claim C8, as the code has it.  With L the number of literals and U the
    number of one-literal clauses of the input, the reduction adds at most
    L + U variables and produces at most L + 3U clauses. *)
Theorem reduce_growth_bounds :
  forall F,
    let st := snd (reduce F) in
    let L := totalLiteralsOriginal st in
    let U := unitClauses (clauses F) in
    reducedVars st - originalVars st <= L + U /\
    reducedClauses st <= L + 3 * U.
Proof.
  intros F. unfold reduce. rewrite reduceLoop_emitted.
  cbn [snd reducedVars originalVars reducedClauses totalLiteralsOriginal
       numVars numClauses app].
  destruct (emitted_bounds (clauses F) (numVars F + 1)) as [Ha Hc]. lia.
Qed.

(** Claim C8 fails as stated: one unit clause has L = 1 but needs two
    auxiliaries and four clauses. *)
Lemma reduce_growth_unit_clause :
  let st := snd (reduce (mkCNF 7 1 [mkClause [7]])) in
  ~ (reducedVars st - originalVars st <= totalLiteralsOriginal st /\
     reducedClauses st <= totalLiteralsOriginal st).
Proof. vm_compute. intros [H _]. apply H. reflexivity. Qed.

End ReducerShape.

(** ** The reducer: equisatisfiability *)

Section Equisat.
Import Reducer Props.


Lemma to_size_t_nonneg i : 0 <= i -> to_size_t i = i.
Proof. intros H. unfold to_size_t. destruct (Z.ltb_spec i 0); lia. Qed.

Lemma vget_lookup {A} (v : list A) i :
  0 <= i -> vget v i = v !! Z.to_nat i.
Proof.
  intros Hi. unfold vget, vsize.
  destruct (Z.leb_spec 0 i); [|lia]. 
  destruct (Z.ltb_spec i (Z.of_nat (length v))); simpl; [reflexivity|].
  symmetry. apply lookup_ge_None. lia.
Qed.

(** [Clause::isSatisfied] never reads outside the vector and computes the
    disjunction of its literals. *)
Lemma isSatisfiedLits_holds lits a :
  Verifier.isSatisfiedLits lits a = Some (existsb (litHolds a) lits).
Proof.
  induction lits as [|lit rest IH]; [reflexivity|].
  cbn [Verifier.isSatisfiedLits existsb].
  rewrite to_size_t_nonneg, vget_lookup by lia.
  unfold litHolds at 1.
  destruct (Z.ltb_spec (Z.abs lit) (vsize a)) as [Hlt|Hge].
  - destruct (a !! Z.to_nat (Z.abs lit)) as [x|] eqn:E.
    + destruct (negb (x =? -1) && Bool.eqb (x =? 1) (0 <? lit)); [reflexivity|exact IH].
    + apply lookup_ge_None in E. unfold vsize in Hlt. lia.
  - rewrite (proj2 (lookup_ge_None a (Z.to_nat (Z.abs lit)))) by (unfold vsize in Hge; lia).
    exact IH.
Qed.

Lemma isSatisfied_holds c a : Verifier.isSatisfied c a = Some (holds a c).
Proof. apply isSatisfiedLits_holds. Qed.

Lemma satisfies_holds a cs :
  satisfies a cs <-> forall c, c ∈ cs -> holds a c = true.
Proof.
  unfold satisfies. split; intros H c Hc; specialize (H c Hc).
  - rewrite isSatisfied_holds in H. congruence.
  - rewrite isSatisfied_holds, H. reflexivity.
Qed.

(** A positive literal and its negation are not both true. *)
Lemma litHolds_opp a y :
  0 < y -> litHolds a y = true -> litHolds a (- y) = false.
Proof.
  intros Hy. unfold litHolds. rewrite Z.abs_opp.
  destruct (a !! Z.to_nat (Z.abs y)) as [x|]; [|reflexivity].
  destruct (Z.ltb_spec 0 y), (Z.ltb_spec 0 (- y)); try lia;
    destruct (x =? 1), (x =? -1); simpl; congruence.
Qed.

Lemma litHolds_take a l n :
  Z.abs l < Z.of_nat n -> litHolds (take n a) l = litHolds a l.
Proof.
  intros H. unfold litHolds. rewrite lookup_take_lt by lia. reflexivity.
Qed.

Lemma holds_cons3 a x y z :
  holds a (mkClause [x; y; z]) = litHolds a x || litHolds a y || litHolds a z.
Proof. unfold holds. simpl. rewrite orb_false_r, orb_assoc. reflexivity. Qed.

Lemma chainTail_back a rest : forall y,
  0 < y -> (2 <= length rest)%nat ->
  (forall c', c' ∈ chainTail y rest -> holds a c' = true) ->
  litHolds a y = true ->
  existsb (litHolds a) rest = true.
Proof.
  induction rest as [|x rest IH]; intros y Hy Hlen Hall Hys; [simpl in Hlen; lia|].
  destruct rest as [|b [|d rest]]; [simpl in Hlen; lia| |].
  - specialize (Hall _ (list_elem_of_here _ _)). rewrite holds_cons3 in Hall.
    rewrite (litHolds_opp a y Hy Hys) in Hall. simpl in *.
    rewrite orb_false_r. exact Hall.
  - change (chainTail y (x :: b :: d :: rest))
      with (mkClause [- y; x; y + 1] :: chainTail (y + 1) (b :: d :: rest)) in Hall.
    pose proof (Hall _ (list_elem_of_here _ _)) as H1. rewrite holds_cons3 in H1.
    rewrite (litHolds_opp a y Hy Hys) in H1. simpl in H1.
    change (existsb (litHolds a) (x :: ?l)) with (litHolds a x || existsb (litHolds a) l).
    destruct (litHolds a x); [reflexivity|]. simpl in H1 |- *.
    apply (IH (y + 1)); [lia|simpl; lia| |exact H1].
    intros c' Hc'. apply Hall. right. exact Hc'.
Qed.

(** The emitted clauses of one clause imply that clause. *)
Lemma reduceClause_back a next c :
  0 < next -> literals c <> [] ->
  (forall c', c' ∈ fst (reduceClause next c) -> holds a c' = true) ->
  holds a c = true.
Proof.
  intros Hn Hne Hall. rewrite reduceClause_cases in Hall. unfold holds.
  destruct (literals c) as [|x1 [|x2 [|x3 [|x4 rest]]]] eqn:E; [congruence| | | |].
  - cbn [fst reduceSize1] in Hall.
    pose proof (Hall _ (list_elem_of_here _ _)) as H1.
    pose proof (Hall _ (list_elem_of_further _ _ _ (list_elem_of_here _ _))) as H2.
    pose proof (Hall _ (list_elem_of_further _ _ _
                   (list_elem_of_further _ _ _ (list_elem_of_here _ _)))) as H3.
    pose proof (Hall _ (list_elem_of_further _ _ _ (list_elem_of_further _ _ _
                   (list_elem_of_further _ _ _ (list_elem_of_here _ _))))) as H4.
    rewrite holds_cons3 in H1, H2, H3, H4. simpl.
    pose proof (litHolds_opp a next Hn) as Oy.
    pose proof (litHolds_opp a (next + 1) ltac:(lia)) as Oz.
    destruct (litHolds a x1); [reflexivity|]. simpl in *.
    destruct (litHolds a next), (litHolds a (next + 1)); simpl in *;
      try rewrite Oy in * by reflexivity; try rewrite Oz in * by reflexivity;
      simpl in *; congruence.
  - cbn [fst reduceSize2] in Hall.
    pose proof (Hall _ (list_elem_of_here _ _)) as H1.
    pose proof (Hall _ (list_elem_of_further _ _ _ (list_elem_of_here _ _))) as H2.
    rewrite holds_cons3 in H1, H2. simpl.
    pose proof (litHolds_opp a next Hn) as Oy.
    destruct (litHolds a x1); [reflexivity|].
    destruct (litHolds a x2); [reflexivity|]. simpl in *.
    destruct (litHolds a next); simpl in *;
      try rewrite Oy in * by reflexivity; simpl in *; congruence.
  - cbn [fst] in Hall. specialize (Hall _ (list_elem_of_here _ _)).
    unfold holds in Hall. rewrite E in Hall. exact Hall.
  - cbn [fst chain] in Hall.
    pose proof (Hall _ (list_elem_of_here _ _)) as H1. rewrite holds_cons3 in H1.
    change (existsb (litHolds a) (x1 :: x2 :: ?l))
      with (litHolds a x1 || (litHolds a x2 || existsb (litHolds a) l)).
    destruct (litHolds a x1); [reflexivity|].
    destruct (litHolds a x2); [reflexivity|]. simpl in H1. cbn [orb].
    apply (chainTail_back a _ next); [lia|simpl; lia| |exact H1].
    intros c' Hc'. apply Hall. right. exact Hc'.
Qed.

Lemma litVal_agree v v' l m :
  (forall x, 0 <= x < m -> v' x = v x) -> Z.abs l < m -> litVal v' l = litVal v l.
Proof.
  intros Hag Hl. unfold litVal.
  destruct (Z.ltb_spec 0 l); [|f_equal]; apply Hag; lia.
Qed.

Lemma holdsVal_agree v v' c m :
  (forall x, 0 <= x < m -> v' x = v x) -> bounded m c -> holdsVal v' c = holdsVal v c.
Proof.
  intros Hag Hb. unfold holdsVal, bounded in *.
  induction (literals c) as [|l ls IH]; [reflexivity|].
  cbn [existsb]. rewrite (litVal_agree v v' l m), IH; auto.
  - intros l' Hl'. apply Hb. right. exact Hl'.
  - apply Hb. left.
Qed.

Lemma holdsVal_cons3 v x y z :
  holdsVal v (mkClause [x; y; z]) = litVal v x || litVal v y || litVal v z.
Proof. unfold holdsVal. simpl. rewrite orb_false_r, orb_assoc. reflexivity. Qed.

Lemma litVal_pos v y : 0 < y -> litVal v y = v y.
Proof. intros H. unfold litVal. destruct (Z.ltb_spec 0 y); [reflexivity|lia]. Qed.

Lemma litVal_neg v y : 0 < y -> litVal v (- y) = negb (v y).
Proof.
  intros H. unfold litVal. destruct (Z.ltb_spec 0 (- y)); [lia|].
  rewrite Z.opp_involutive. reflexivity.
Qed.

Lemma existsb_litVal_agree v v' ls m :
  (forall x, 0 <= x < m -> v' x = v x) -> (forall l, l ∈ ls -> Z.abs l < m) ->
  existsb (litVal v') ls = existsb (litVal v) ls.
Proof.
  intros Hag Hb. apply (holdsVal_agree v v' (mkClause ls) m Hag Hb).
Qed.

(** The auxiliaries of a chain can be chosen so that the chain is true,
    when the auxiliary that enters it is false or one of the remaining
    literals is true. *)
Lemma chainTail_forth rest : forall y v,
  0 < y -> (2 <= length rest)%nat ->
  (forall l, l ∈ rest -> Z.abs l < y) ->
  v y = false \/ existsb (litVal v) rest = true ->
  exists v', (forall x, x <= y -> v' x = v x) /\
             (forall c', c' ∈ chainTail y rest -> holdsVal v' c' = true).
Proof.
  induction rest as [|a rest IH]; intros y v Hy Hlen Hb Hc; [simpl in Hlen; lia|].
  destruct rest as [|b [|d rest]]; [simpl in Hlen; lia| |].
  - exists v. split; [reflexivity|]. intros c' Hc'.
    apply list_elem_of_singleton in Hc'. subst c'. rewrite holdsVal_cons3.
    rewrite litVal_neg by lia. destruct Hc as [->|Hc]; [reflexivity|].
    simpl in Hc. rewrite orb_false_r in Hc. rewrite <- orb_assoc, Hc.
    apply orb_true_r.
  - change (chainTail y (a :: b :: d :: rest))
      with (mkClause [- y; a; y + 1] :: chainTail (y + 1) (b :: d :: rest)).
    assert (Hb' : forall l, l ∈ b :: d :: rest -> Z.abs l < y + 1).
    { intros l Hl. specialize (Hb l (list_elem_of_further _ _ _ Hl)). lia. }
    assert (Hba : Z.abs a < y) by (apply Hb; left).
    (* the next auxiliary is true exactly when the clause needs it *)
    set (need := v y && negb (litVal v a)).
    set (v1 := setVal v (y + 1) need).
    assert (Hag1 : forall x, 0 <= x < y + 1 -> v1 x = v x).
    { intros x Hx. unfold v1, setVal. destruct (Z.eqb_spec x (y + 1)); [lia|reflexivity]. }
    assert (Hv1 : v1 (y + 1) = need).
    { unfold v1, setVal. rewrite Z.eqb_refl. reflexivity. }
    destruct (IH (y + 1) v1) as (v' & Hag' & Hsat'); [lia|simpl; lia|exact Hb'| |].
    { rewrite Hv1. unfold need.
      destruct Hc as [Hf|Hc]; [rewrite Hf; left; reflexivity|].
      change (existsb (litVal v) (a :: ?l))
        with (litVal v a || existsb (litVal v) l) in Hc.
      destruct (litVal v a); [left; apply andb_false_r|].
      right. rewrite (existsb_litVal_agree v v1 _ (y + 1)); auto. }
    exists v'. split.
    + intros x Hx. rewrite Hag' by lia. unfold v1, setVal.
      destruct (Z.eqb_spec x (y + 1)); [lia|reflexivity].
    + intros c' Hc'. apply elem_of_cons in Hc' as [->|Hc']; [|apply Hsat'; exact Hc'].
      rewrite holdsVal_cons3, (litVal_neg v' y), (litVal_pos v' (y + 1)) by lia.
      rewrite (litVal_agree v v' a (y + 1)) by (first [lia | intros x Hx; rewrite Hag' by lia; apply Hag1; lia]).
      rewrite !Hag' by lia. rewrite Hv1.
      assert (v1 y = v y) as -> by (apply Hag1; lia).
      unfold need. destruct (v y), (litVal v a); reflexivity.
Qed.

Lemma bounded3 m x y z :
  Z.abs x < m -> Z.abs y < m -> Z.abs z < m -> bounded m (mkClause [x; y; z]).
Proof.
  intros Hx Hy Hz l Hl. cbn [literals] in Hl.
  repeat (apply elem_of_cons in Hl as [->|Hl]; [assumption|]). inversion Hl.
Qed.

Lemma chainTail_bounded rest : forall y c',
  0 < y -> (2 <= length rest)%nat ->
  (forall l, l ∈ rest -> Z.abs l < y) ->
  c' ∈ chainTail y rest -> bounded (y + vsize rest - 1) c'.
Proof.
  induction rest as [|a rest IH]; intros y c' Hy Hlen Hb Hc'; [inversion Hc'|].
  destruct rest as [|b [|d rest]]; [inversion Hc'| |].
  - apply list_elem_of_singleton in Hc'. subst c'.
    pose proof (Hb a ltac:(left)). pose proof (Hb b ltac:(right; left)).
    unfold vsize. cbn [length]. apply bounded3; lia.
  - change (chainTail y (a :: b :: d :: rest))
      with (mkClause [- y; a; y + 1] :: chainTail (y + 1) (b :: d :: rest)) in Hc'.
    assert (Hv : vsize (a :: b :: d :: rest) = vsize (b :: d :: rest) + 1)
      by (unfold vsize; cbn [length]; lia).
    assert (3 <= vsize (a :: b :: d :: rest)) by (unfold vsize; cbn [length]; lia).
    apply elem_of_cons in Hc' as [->|Hc'].
    + pose proof (Hb a ltac:(left)). apply bounded3; lia.
    + rewrite Hv. replace (y + (vsize (b :: d :: rest) + 1) - 1)
        with (y + 1 + vsize (b :: d :: rest) - 1) by lia.
      apply IH; [lia|simpl; lia| |exact Hc'].
      intros l Hl. specialize (Hb l (list_elem_of_further _ _ _ Hl)). lia.
Qed.

Lemma auxCount_nonneg c : 0 <= auxCount c.
Proof.
  unfold auxCount. pose proof (csize_nonneg c).
  destruct (Z.eqb_spec (csize c) 0), (Z.eqb_spec (csize c) 1),
    (Z.eqb_spec (csize c) 2), (Z.eqb_spec (csize c) 3); lia.
Qed.

Lemma bounded_mono m m' c : m <= m' -> bounded m c -> bounded m' c.
Proof. intros Hle Hb l Hl. specialize (Hb l Hl). lia. Qed.

(** The emitted clauses only mention the clause's variables and the
    auxiliaries minted for it. *)
Lemma reduceClause_bounded next c c' :
  0 < next -> bounded next c ->
  c' ∈ fst (reduceClause next c) -> bounded (next + auxCount c) c'.
Proof.
  intros Hn Hb. pose proof (reduceClause_next next c) as Hnext.
  rewrite reduceClause_cases in *. unfold bounded in Hb.
  destruct (literals c) as [|x1 [|x2 [|x3 [|x4 rest]]]] eqn:E;
    cbn [fst snd reduceSize1 reduceSize2 chain] in *; intros Hc'.
  - inversion Hc'.
  - pose proof (Hb x1 ltac:(left)).
    repeat (apply elem_of_cons in Hc' as [->|Hc']; [apply bounded3; lia|]).
    inversion Hc'.
  - pose proof (Hb x1 ltac:(left)). pose proof (Hb x2 ltac:(right; left)).
    repeat (apply elem_of_cons in Hc' as [->|Hc']; [apply bounded3; lia|]).
    inversion Hc'.
  - apply list_elem_of_singleton in Hc'. subst c'.
    apply (bounded_mono next); [pose proof (auxCount_nonneg c); lia|].
    intros l Hl. rewrite E in Hl. apply Hb, Hl.
  - pose proof (Hb x1 ltac:(left)). pose proof (Hb x2 ltac:(right; left)).
    assert (Hv : vsize (x1 :: x2 :: x3 :: x4 :: rest) = vsize (x3 :: x4 :: rest) + 2)
      by (unfold vsize; cbn [length]; lia).
    assert (2 <= vsize (x3 :: x4 :: rest)) by (unfold vsize; cbn [length]; lia).
    rewrite <- Hnext, Hv.
    apply elem_of_cons in Hc' as [->|Hc']; [apply bounded3; lia|].
    replace (next + (vsize (x3 :: x4 :: rest) + 2) - 3)
      with (next + vsize (x3 :: x4 :: rest) - 1) by lia.
    apply (chainTail_bounded _ next); [lia|simpl; lia| |exact Hc'].
    intros l Hl. apply Hb. right. right. exact Hl.
Qed.

(** A valuation that makes a clause true extends, on the fresh variables
    only, to one that makes its emitted clauses true. *)
Lemma reduceClause_forth v next c :
  0 < next -> bounded next c -> holdsVal v c = true ->
  exists v', (forall x, 0 <= x < next -> v' x = v x) /\
             (forall c', c' ∈ fst (reduceClause next c) -> holdsVal v' c' = true).
Proof.
  intros Hn Hb Hc. rewrite reduceClause_cases. unfold holdsVal in Hc. unfold bounded in Hb.
  destruct (literals c) as [|x1 [|x2 [|x3 [|x4 rest]]]] eqn:E;
    cbn [fst reduceSize1 reduceSize2 chain].
  - discriminate.
  - exists v. split; [reflexivity|]. simpl in Hc. rewrite orb_false_r in Hc.
    intros c' Hc'.
    repeat (apply elem_of_cons in Hc' as [->|Hc'];
            [rewrite holdsVal_cons3, Hc; reflexivity|]).
    inversion Hc'.
  - exists v. split; [reflexivity|]. simpl in Hc. rewrite orb_false_r in Hc.
    intros c' Hc'.
    repeat (apply elem_of_cons in Hc' as [->|Hc'];
            [rewrite holdsVal_cons3, Hc; reflexivity|]).
    inversion Hc'.
  - exists v. split; [reflexivity|]. intros c' Hc'.
    apply list_elem_of_singleton in Hc'. subst c'. unfold holdsVal. rewrite E. exact Hc.
  - change (existsb (litVal v) (x1 :: x2 :: ?l))
      with (litVal v x1 || (litVal v x2 || existsb (litVal v) l)) in Hc.
    pose proof (Hb x1 ltac:(left)) as B1. pose proof (Hb x2 ltac:(right; left)) as B2.
    assert (Hbr : forall l, l ∈ x3 :: x4 :: rest -> Z.abs l < next).
    { intros l Hl. apply Hb. right. right. exact Hl. }
    set (first := litVal v x1 || litVal v x2).
    set (v0 := setVal v next (negb first)).
    assert (Hag0 : forall x, 0 <= x < next -> v0 x = v x).
    { intros x Hx. unfold v0, setVal. destruct (Z.eqb_spec x next); [lia|reflexivity]. }
    assert (Hv0 : v0 next = negb first).
    { unfold v0, setVal. rewrite Z.eqb_refl. reflexivity. }
    destruct (chainTail_forth (x3 :: x4 :: rest) next v0) as (v' & Hag' & Hsat');
      [lia|simpl; lia|exact Hbr| |].
    { rewrite Hv0. destruct first eqn:Ef; [left; reflexivity|right].
      rewrite (existsb_litVal_agree v v0 _ next) by auto.
      unfold first in Ef. rewrite orb_assoc, Ef in Hc. exact Hc. }
    exists v'. split.
    + intros x Hx. rewrite Hag' by lia. apply Hag0. exact Hx.
    + intros c' Hc'. apply elem_of_cons in Hc' as [->|Hc']; [|apply Hsat'; exact Hc'].
      rewrite holdsVal_cons3, (litVal_pos v' next) by lia.
      assert (Hagv : forall x, 0 <= x < next -> v' x = v x).
      { intros x Hx. rewrite Hag' by lia. apply Hag0. exact Hx. }
      rewrite (litVal_agree v v' x1 next), (litVal_agree v v' x2 next) by assumption.
      rewrite Hag', Hv0 by lia. fold first. destruct first; reflexivity.
Qed.

Lemma inRange_pos N c : literals c <> [] -> inRange N c -> 1 <= N.
Proof.
  intros Hne Hr. unfold inRange in Hr.
  destruct (literals c) as [|l ls]; [congruence|].
  specialize (Hr l ltac:(left)). lia.
Qed.

Lemma inRange_bounded N next c : N < next -> inRange N c -> bounded next c.
Proof. intros Hlt Hr l Hl. specialize (Hr l Hl). lia. Qed.

Lemma emitted_back a cs : forall N next,
  N < next ->
  (forall c, c ∈ cs -> literals c <> [] /\ inRange N c) ->
  (forall c', c' ∈ emitted next cs -> holds a c' = true) ->
  forall c, c ∈ cs -> holds a c = true.
Proof.
  induction cs as [|c0 cs IH]; intros N next Hlt Hwf Hall c Hc; [inversion Hc|].
  destruct (Hwf c0 ltac:(left)) as [Hne Hr].
  pose proof (inRange_pos N c0 Hne Hr).
  apply elem_of_cons in Hc as [->|Hc].
  - apply (reduceClause_back a next); [lia|exact Hne|].
    intros c' Hc'. apply Hall. cbn [emitted]. apply elem_of_app. left. exact Hc'.
  - apply (IH N (next + auxCount c0)); [pose proof (auxCount_nonneg c0); lia| | |exact Hc].
    + intros c1 Hc1. apply Hwf. right. exact Hc1.
    + intros c' Hc'. apply Hall. cbn [emitted]. apply elem_of_app. right. exact Hc'.
Qed.

Lemma auxTotal_cons c cs : auxTotal (c :: cs) = auxCount c + auxTotal cs.
Proof. reflexivity. Qed.

Lemma auxTotal_nonneg cs : 0 <= auxTotal cs.
Proof.
  induction cs as [|c cs IH]; [reflexivity|].
  rewrite auxTotal_cons. pose proof (auxCount_nonneg c). lia.
Qed.

Lemma emitted_bounded cs : forall N next c',
  N < next ->
  (forall c, c ∈ cs -> literals c <> [] /\ inRange N c) ->
  c' ∈ emitted next cs -> bounded (next + auxTotal cs) c'.
Proof.
  induction cs as [|c0 cs IH]; intros N next c' Hlt Hwf Hc'; [inversion Hc'|].
  destruct (Hwf c0 ltac:(left)) as [Hne Hr].
  pose proof (inRange_pos N c0 Hne Hr).
  pose proof (auxCount_nonneg c0). pose proof (auxTotal_nonneg cs).
  rewrite auxTotal_cons. cbn [emitted] in Hc'.
  apply elem_of_app in Hc' as [Hc'|Hc'].
  - apply (bounded_mono (next + auxCount c0)); [lia|].
    apply (reduceClause_bounded next c0); [lia| |exact Hc'].
    apply (inRange_bounded N); assumption.
  - rewrite Z.add_assoc. apply (IH N); [lia| |exact Hc'].
    intros c1 Hc1. apply Hwf. right. exact Hc1.
Qed.

Lemma emitted_forth cs : forall N next v,
  N < next ->
  (forall c, c ∈ cs -> literals c <> [] /\ inRange N c) ->
  (forall c, c ∈ cs -> holdsVal v c = true) ->
  exists v', (forall x, 0 <= x < next -> v' x = v x) /\
             (forall c', c' ∈ emitted next cs -> holdsVal v' c' = true).
Proof.
  induction cs as [|c0 cs IH]; intros N next v Hlt Hwf Hsat.
  - exists v. split; [reflexivity|]. intros c' Hc'. inversion Hc'.
  - destruct (Hwf c0 ltac:(left)) as [Hne Hr].
    pose proof (inRange_pos N c0 Hne Hr).
    pose proof (auxCount_nonneg c0).
    assert (Hb0 : bounded next c0) by (apply (inRange_bounded N); assumption).
    destruct (reduceClause_forth v next c0) as (v1 & Hag1 & Hsat1);
      [lia|exact Hb0|apply Hsat; left|].
    destruct (IH N (next + auxCount c0) v1) as (v2 & Hag2 & Hsat2); [lia| | |].
    + intros c1 Hc1. apply Hwf. right. exact Hc1.
    + intros c1 Hc1. rewrite (holdsVal_agree v v1 c1 next Hag1).
      * apply Hsat. right. exact Hc1.
      * apply (inRange_bounded N); [exact Hlt|]. apply Hwf. right. exact Hc1.
    + exists v2. split.
      * intros x Hx. rewrite Hag2 by lia. apply Hag1. exact Hx.
      * intros c' Hc'. cbn [emitted] in Hc'. apply elem_of_app in Hc' as [Hc'|Hc'].
        -- rewrite (holdsVal_agree v1 v2 c' (next + auxCount c0) Hag2).
           ++ apply Hsat1. exact Hc'.
           ++ apply (reduceClause_bounded next c0); [lia|exact Hb0|exact Hc'].
        -- apply Hsat2. exact Hc'.
Qed.

(** The two readings of an assignment agree on the literals they cover. *)
Lemma litHolds_vectorOf v n l :
  Z.abs l < Z.of_nat n -> litHolds (vectorOf v n) l = litVal v l.
Proof.
  intros Hl. unfold litHolds, vectorOf, litVal.
  rewrite list_lookup_fmap, lookup_seq_lt by lia. simpl.
  rewrite Z2Nat.id by lia.
  destruct (Z.ltb_spec 0 l).
  - rewrite Z.abs_eq by lia. destruct (v l); reflexivity.
  - rewrite Z.abs_neq by lia. destruct (v (- l)); reflexivity.
Qed.

Lemma litHolds_valOf a l :
  l <> 0 -> litHolds a l = true -> litVal (valOf a) l = true.
Proof.
  intros Hl H. unfold litVal, valOf.
  destruct (Z.ltb_spec 0 l); [exact H|].
  replace l with (- (- l)) in H by lia.
  destruct (litHolds a (- l)) eqn:E; [|reflexivity].
  rewrite (litHolds_opp a (- l)) in H by (first [lia | exact E]). discriminate.
Qed.

Lemma holds_vectorOf v n c :
  bounded (Z.of_nat n) c -> holds (vectorOf v n) c = holdsVal v c.
Proof.
  intros Hb. unfold holds, holdsVal, bounded in *.
  induction (literals c) as [|l ls IH]; [reflexivity|].
  cbn [existsb]. rewrite litHolds_vectorOf, IH.
  - reflexivity.
  - intros l' Hl'. apply Hb. right. exact Hl'.
  - apply Hb. left.
Qed.

Lemma holds_valOf a N c :
  inRange N c -> holds a c = true -> holdsVal (valOf a) c = true.
Proof.
  intros Hr. unfold holds, holdsVal, inRange in *.
  induction (literals c) as [|l ls IH]; [discriminate|].
  cbn [existsb]. intros H. apply orb_true_iff in H as [H|H].
  - rewrite litHolds_valOf; [reflexivity| |exact H].
    specialize (Hr l ltac:(left)). lia.
  - rewrite IH; [apply orb_true_r| |exact H].
    intros l' Hl'. apply Hr. right. exact Hl'.
Qed.

Lemma holds_restrict a N c :
  inRange N c -> holds (restrict N a) c = holds a c.
Proof.
  intros Hr. unfold holds, restrict, inRange in *.
  induction (literals c) as [|l ls IH]; [reflexivity|].
  cbn [existsb]. rewrite litHolds_take, IH.
  - reflexivity.
  - intros l' Hl'. apply Hr. right. exact Hl'.
  - specialize (Hr l ltac:(left)). lia.
Qed.

(** For a formula whose clauses are not empty and whose literals are over
    the variables 1..N, the reduced formula is satisfiable exactly when the
    formula is, and the projection on 1..N of any assignment satisfying the
    reduced formula satisfies the formula. *)
Theorem reduce_equisatisfiable :
  forall F, wellFormed F ->
    (satisfiable (clauses F) <-> satisfiable (clauses (fst (reduce F)))) /\
    (forall a, satisfies a (clauses (fst (reduce F))) ->
               satisfies (restrict (numVars F) a) (clauses F)).
Proof.
  intros F Hwf. rewrite reduce_clauses.
  assert (Hback : forall a, satisfies a (emitted (numVars F + 1) (clauses F)) ->
                            satisfies (restrict (numVars F) a) (clauses F)).
  { intros a Ha. rewrite satisfies_holds in *. intros c Hc.
    rewrite holds_restrict by (apply Hwf; exact Hc).
    apply (emitted_back a (clauses F) (numVars F) (numVars F + 1)); auto. lia. }
  split; [split|exact Hback].
  - intros [a Ha]. rewrite satisfies_holds in Ha.
    destruct (emitted_forth (clauses F) (numVars F) (numVars F + 1) (valOf a))
      as (v' & _ & Hsat'); [lia|exact Hwf| |].
    { intros c Hc. apply (holds_valOf a (numVars F)); [apply Hwf; exact Hc|].
      apply Ha. exact Hc. }
    set (m := numVars F + 1 + auxTotal (clauses F)).
    exists (vectorOf v' (Z.to_nat m)). apply satisfies_holds. intros c' Hc'.
    rewrite holds_vectorOf; [apply Hsat'; exact Hc'|].
    pose proof (emitted_bounded (clauses F) (numVars F) (numVars F + 1) c'
                  ltac:(lia) Hwf Hc') as Hb.
    intros l Hl. specialize (Hb l Hl). fold m in Hb. lia.
  - intros [a Ha]. exists (restrict (numVars F) a). apply Hback. exact Ha.
Qed.

Lemma reduce_equisatisfiable_witness :
  let F := mkCNF 5 1 [mkClause [1; 2; 3; 4; 5]] in
  wellFormed F /\
  (satisfiable (clauses F) <-> satisfiable (clauses (fst (reduce F)))).
Proof.
  intros F.
  assert (Hwf : wellFormed F).
  { intros c Hc. apply list_elem_of_singleton in Hc. subst c. split; [discriminate|].
    intros l Hl. cbn [literals] in Hl.
    repeat (apply elem_of_cons in Hl as [->|Hl]; [vm_compute; split; discriminate|]).
    inversion Hl. }
  split; [exact Hwf|]. exact (proj1 (reduce_equisatisfiable F Hwf)).
Defined.

(** Claim C2, at the input on which the code departs from it: the formula
    with the clauses (1 ∨ 2 ∨ 3) and the empty clause is unsatisfiable,
    and its reduction, from which the empty clause has disappeared, is
    satisfied by setting variable 1: the two are not equisatisfiable. *)
Theorem reduce_empty_clause_not_equisatisfiable :
  let F := mkCNF 3 2 [mkClause [1; 2; 3]; mkClause []] in
  ~ satisfiable (clauses F) /\
  satisfies [-1; 1] (clauses (fst (reduce F))) /\
  ~ (satisfiable (clauses F) <-> satisfiable (clauses (fst (reduce F)))).
Proof.
  cbn zeta.
  assert (Hun : ~ satisfiable [mkClause [1; 2; 3]; mkClause []]).
  { intros [a Ha]. specialize (Ha (mkClause []) ltac:(right; left)).
    vm_compute in Ha. discriminate. }
  assert (Hsat : satisfies [-1; 1]
                   (clauses (fst (reduce (mkCNF 3 2 [mkClause [1; 2; 3]; mkClause []]))))).
  { intros c Hc. vm_compute in Hc. apply list_elem_of_singleton in Hc. subst c.
    vm_compute. reflexivity. }
  split; [exact Hun|]. split; [exact Hsat|].
  intros [_ H]. apply Hun, H. exists [-1; 1]. exact Hsat.
Qed.

End Equisat.

(** ** The verifier *)

Section VerifierFacts.
Import Verifier Props.

Lemma falsifiedFrom_range a cs : forall i idx,
  idx ∈ falsifiedFrom a i cs -> i <= idx < i + vsize cs.
Proof.
  induction cs as [|c cs IH]; intros i idx H; [inversion H|].
  assert (Hv : vsize (c :: cs) = vsize cs + 1) by (unfold vsize; cbn [length]; lia).
  cbn [falsifiedFrom] in H. destruct (holds a c).
  - apply IH in H. lia.
  - apply elem_of_cons in H as [->|H]; [unfold vsize in *; lia|]. apply IH in H. lia.
Qed.

(** The checking loop: it never fails, and it collects the first falsified
    clauses until its vector holds eleven indices. *)
Lemma verifyLoop_spec a cs : forall i sat unsat idxs,
  (length idxs <= 10)%nat ->
  let new := take (11 - length idxs) (falsifiedFrom a i cs) in
  exists sat',
    verifyLoop cs i a sat unsat idxs = Some (sat', unsat + vsize new, idxs ++ new).
Proof.
  induction cs as [|c cs IH]; intros i sat unsat idxs Hlen; cbn zeta.
  - exists sat. cbn [verifyLoop falsifiedFrom]. rewrite take_nil, app_nil_r.
    unfold vsize. cbn [length]. do 3 f_equal. lia.
  - cbn [verifyLoop falsifiedFrom]. rewrite isSatisfied_holds.
    destruct (holds a c).
    + apply IH. exact Hlen.
    + replace (11 - length idxs)%nat with (S (10 - length idxs)) by lia.
      rewrite firstn_cons.
      assert (Hv : vsize (idxs ++ [i]) = vsize idxs + 1)
        by (unfold vsize; rewrite length_app; cbn [length]; lia).
      destruct (Z.gtb_spec (vsize (idxs ++ [i])) 10) as [Hfull|Hroom].
      * exists sat. assert (length idxs = 10%nat) as -> by (unfold vsize in *; lia).
        cbn [Nat.sub take]. unfold vsize. cbn [length]. reflexivity.
      * destruct (IH (i + 1) sat (unsat + 1) (idxs ++ [i])) as [sat' E].
        { rewrite length_app. cbn [length]. unfold vsize in *. lia. }
        exists sat'. rewrite E. rewrite length_app. cbn [length].
        replace (11 - (length idxs + 1))%nat with (10 - length idxs)%nat by lia.
        rewrite <- app_assoc. cbn [app]. do 3 f_equal.
        unfold vsize. cbn [length]. lia.
Qed.

Lemma verifyScan_spec inst sol :
  let new := take 11 (falsifiedFrom (assignment sol) 0 (clauses inst)) in
  exists sat', verifyScan inst sol = Some (sat', vsize new, new).
Proof.
  cbn zeta. unfold verifyScan.
  destruct (verifyLoop_spec (assignment sol) (clauses inst) 0 0 0 [])
    as [sat' E]; [simpl; lia|].
  exists sat'. rewrite E. cbn [length app]. reflexivity.
Qed.

Lemma examplesOf_total cs idxs :
  (forall idx, idx ∈ idxs -> 0 <= idx < vsize cs) ->
  exists exs, examplesOf cs idxs = Some exs /\ length exs = length idxs.
Proof.
  induction idxs as [|idx idxs IH]; intros Hr.
  - exists []. split; reflexivity.
  - destruct IH as (exs & E & Hl).
    { intros j Hj. apply Hr. right. exact Hj. }
    specialize (Hr idx ltac:(left)).
    cbn [examplesOf]. rewrite E.
    destruct (vget cs idx) as [clause|] eqn:G.
    + eexists. split; [reflexivity|]. cbn [length]. lia.
    + rewrite vget_lookup in G by lia. apply lookup_ge_None in G.
      unfold vsize in Hr. lia.
Qed.

Lemma falsifiedFrom_nil a cs : forall i,
  falsifiedFrom a i cs = [] <-> forallb (holds a) cs = true.
Proof.
  induction cs as [|c cs IH]; intros i; [split; reflexivity|].
  cbn [falsifiedFrom forallb]. destruct (holds a c); cbn [andb].
  - apply IH.
  - split; discriminate.
Qed.

(** [verify] always returns, its verdict is the conjunction of the clause
    evaluations, and it shows one example per collected index. *)
Lemma verify_total inst sol :
  exists msg,
    verify inst sol = Some (forallb (holds (assignment sol)) (clauses inst), msg).
Proof.
  unfold verify. case_bool_decide as Hc.
  - rewrite Hc. eexists. reflexivity.
  - destruct (verifyScan_spec inst sol) as [sat' E]. cbn zeta in E. rewrite E.
    set (fs := falsifiedFrom (assignment sol) 0 (clauses inst)) in *.
    assert (Hex : exists exs, (if vsize (take 11 fs) >? 0
                               then examplesOf (clauses inst) (take 11 fs)
                               else Some []) = Some exs).
    { destruct (vsize (take 11 fs) >? 0); [|eexists; reflexivity].
      destruct (examplesOf_total (clauses inst) (take 11 fs)) as (exs & Hexs & _).
      - intros idx Hidx. apply (subseteq_take 11 fs) in Hidx.
        apply falsifiedFrom_range in Hidx. lia.
      - exists exs. exact Hexs. }
    destruct Hex as [exs ->]. eexists. do 2 f_equal.
    destruct (forallb (holds (assignment sol)) (clauses inst)) eqn:Hall.
    + apply (falsifiedFrom_nil _ _ 0) in Hall. fold fs in Hall. rewrite Hall. reflexivity.
    + destruct fs as [|f fs'] eqn:Efs.
      * apply (falsifiedFrom_nil _ _ 0) in Efs. congruence.
      * unfold vsize. cbn [take length]. apply Z.eqb_neq. lia.
Qed.

Lemma setLiteral_total s lit :
  exists s', setLiteral s lit = Some s' /\
             length (assignment s') = length (assignment s) /\
             solVars s' = solVars s.
Proof.
  unfold setLiteral. rewrite to_size_t_nonneg by lia.
  destruct (Z.leb_spec 0 (Z.abs lit)); [|lia]. cbn [andb].
  destruct (Z.ltb_spec (Z.abs lit) (vsize (assignment s))) as [Hlt|Hge].
  - unfold vset. destruct (Z.leb_spec 0 (Z.abs lit)); [|lia].
    destruct (Z.ltb_spec (Z.abs lit) (vsize (assignment s))); [|lia]. cbn [andb].
    eexists. split; [reflexivity|]. cbn [assignment solVars].
    rewrite length_insert. split; reflexivity.
  - exists s. repeat split.
Qed.

Lemma setLiteral_out_of_range s lit :
  vsize (assignment s) <= Z.abs lit -> setLiteral s lit = Some s.
Proof.
  intros H. unfold setLiteral. rewrite to_size_t_nonneg by lia.
  destruct (Z.ltb_spec (Z.abs lit) (vsize (assignment s))); [lia|].
  rewrite andb_false_r. reflexivity.
Qed.


(** The constructor succeeds exactly on the sizes [resize] accepts. *)
Lemma newSolution_value n :
  -1 <= n < 2 ^ 31 ->
  newSolution n =
  Value {| assignment := replicate (Z.to_nat (n + 1)) (-1); solVars := n |}.
Proof.
  intros Hn. unfold newSolution. rewrite to_size_t_nonneg by lia.
  destruct (Z.gtb_spec (n + 1) maxSize) as [Hgt|_]; [|reflexivity].
  unfold maxSize in Hgt. lia.
Qed.






(** Claim C9, at the input on which the code departs from it: twelve
    clauses (1) checked against a solution that leaves variable 1 unset.
    The verdict is negative, and the loop stops only after the eleventh
    index was stored: eleven indices are collected and shown. *)
Theorem verify_collects_eleven_indices :
  let inst := mkInstance 1 12 (replicate 12 (mkClause [1])) in
  let sol := mkSolution [-1; -1] 1 in
  newSolution 1 = Value sol /\
  verifyScan inst sol = Some (0, 11, [0; 1; 2; 3; 4; 5; 6; 7; 8; 9; 10]) /\
  exists exs, verify inst sol = Some (false, Summary 0 12 11 exs) /\
              length exs = 11%nat.
Proof.
  split; [reflexivity|]. split; [reflexivity|]. eexists. split; reflexivity.
Qed.

End VerifierFacts.

(** ** Assignments and trails *)

Section AssignmentFacts.
Import SolverData Props.

Lemma contains_spec a v :
  contains a v = true <->
  0 < v /\ exists x, values a !! Z.to_nat v = Some x /\ x <> -1.
Proof.
  unfold contains, valueAt. split.
  - intros H. apply andb_true_iff in H as [H H3]. apply andb_true_iff in H as [H1 H2].
    apply Z.ltb_lt in H1. split; [exact H1|].
    rewrite to_size_t_nonneg in H2 by lia. apply Z.ltb_lt in H2.
    rewrite vget_lookup in H3 by lia.
    destruct (values a !! Z.to_nat v) as [x|] eqn:E.
    + exists x. split; [reflexivity|]. cbn in H3. apply negb_true_iff, Z.eqb_neq in H3. exact H3.
    + apply lookup_ge_None in E. unfold vsize in H2. lia.
  - intros (Hv & x & E & Hx).
    pose proof (lookup_lt_Some _ _ _ E) as Hlt.
    rewrite to_size_t_nonneg, vget_lookup, E by lia. cbn.
    apply andb_true_iff. split; [apply andb_true_iff; split|].
    + apply Z.ltb_lt. exact Hv.
    + apply Z.ltb_lt. unfold vsize. lia.
    + apply negb_true_iff, Z.eqb_neq. exact Hx.
Qed.

Lemma back_snoc t x : back (t ++ [x]) = x.
Proof. unfold back. rewrite last_snoc. reflexivity. Qed.

Lemma pop_back_snoc t x : pop_back (t ++ [x]) = t.
Proof.
  unfold pop_back. rewrite length_app. cbn [length].
  replace (length t + 1 - 1)%nat with (length t) by lia.
  apply take_app_length.
Qed.

Lemma pop_back_take t : pop_back t = take (length t - 1) t.
Proof. reflexivity. Qed.

Lemma unassign_trail a v : trail (unassign a v) = trail a.
Proof. unfold unassign. destruct (_ || _); reflexivity. Qed.

(** [backtrackTo] keeps exactly the first [position] entries of the trail. *)
Lemma backtrackLoop_trail position : forall rounds a,
  0 <= position -> (length (trail a) <= rounds)%nat ->
  trail (backtrackLoop rounds a position) = take (Z.to_nat position) (trail a).
Proof.
  induction rounds as [|rounds IH]; intros a Hp Hlen.
  - destruct (trail a) eqn:E; [|simpl in Hlen; lia].
    cbn [backtrackLoop]. rewrite E, take_nil. reflexivity.
  - cbn [backtrackLoop]. rewrite to_size_t_nonneg by lia.
    destruct (Z.gtb_spec (vsize (trail a)) position) as [Hgt|Hle].
    + rewrite IH; cbn [trail values]; rewrite ?unassign_trail; [|lia|].
      * rewrite pop_back_take, take_take. f_equal. unfold vsize in Hgt. lia.
      * rewrite pop_back_take, length_take. lia.
    + symmetry. apply take_ge. unfold vsize in Hle. lia.
Qed.

Lemma backtrackTo_trail a position :
  0 <= position ->
  trail (backtrackTo a position) = take (Z.to_nat position) (trail a).
Proof. intros Hp. apply backtrackLoop_trail; [exact Hp|lia]. Qed.

Lemma backtrackTo_length a position :
  0 <= position <= vsize (trail a) ->
  vsize (trail (backtrackTo a position)) = position.
Proof.
  intros Hp. rewrite backtrackTo_trail by lia.
  unfold vsize in *. rewrite length_take. lia.
Qed.

Lemma contains_insert_same vs t v x :
  0 < v -> (Z.to_nat v < length vs)%nat -> x <> -1 ->
  contains {| values := <[Z.to_nat v := x]> vs; trail := t |} v = true.
Proof.
  intros Hv Hlt Hx. apply contains_spec. split; [exact Hv|].
  exists x. cbn [values]. split; [|exact Hx].
  apply list_lookup_insert_eq. exact Hlt.
Qed.

Lemma contains_insert_other vs t t' v w x :
  v <> w -> 0 < v ->
  contains {| values := <[Z.to_nat v := x]> vs; trail := t' |} w =
  contains {| values := vs; trail := t |} w.
Proof.
  intros Hne Hv. apply eq_true_iff_eq. rewrite !contains_spec. cbn [values].
  split; intros (Hw & y & E & Hy); (split; [exact Hw|]); exists y; (split; [|exact Hy]).
  - rewrite list_lookup_insert_ne in E by lia. exact E.
  - rewrite list_lookup_insert_ne by lia. exact E.
Qed.

Lemma contains_unset vs t v :
  contains {| values := <[Z.to_nat v := -1]> vs; trail := t |} v = false.
Proof.
  apply not_true_iff_false. rewrite contains_spec. cbn [values].
  intros (Hv & y & E & Hy).
  pose proof (lookup_lt_Some _ _ _ E) as Hlt. rewrite length_insert in Hlt.
  rewrite list_lookup_insert_eq in E by exact Hlt. congruence.
Qed.

Lemma contains_trail_irrelevant vs t t' w :
  contains {| values := vs; trail := t |} w = contains {| values := vs; trail := t' |} w.
Proof. reflexivity. Qed.

(** In [SATSOLverOPtimsed2.cpp], [assign] keeps the trail invariants. *)
Lemma rescan_assign_invariant a v b :
  trailInvariant a -> trailInvariant (Rescan.assign a v b).
Proof.
  intros [Hnd Hiff]. unfold Rescan.assign.
  destruct (Z.leb_spec v 0) as [|Hv]; [split; assumption|]. cbn [orb].
  rewrite to_size_t_nonneg by lia.
  destruct (Z.geb_spec v (vsize (values a))) as [|Hlt]; [split; assumption|].
  destruct (Z.eqb_spec (valueAt a v) (-1)) as [Hun|]; [|split; assumption].
  assert (Hnc : contains a v = false).
  { unfold contains. rewrite Hun. rewrite andb_false_r. reflexivity. }
  assert (Hnot : v ∉ trail a).
  { intros Hin. apply Hiff in Hin. congruence. }
  destruct a as [vs t]. cbn [values trail] in *. unfold vsize in Hlt.
  split; cbn [trail].
  - apply NoDup_app. split; [exact Hnd|]. split; [|apply NoDup_singleton].
    intros x Hx Hx'. apply list_elem_of_singleton in Hx'. subst x. exact (Hnot Hx).
  - intros w. rewrite elem_of_app, list_elem_of_singleton.
    destruct (Z.eq_dec w v) as [->|Hne].
    + rewrite contains_insert_same by (first [lia | destruct b; discriminate]).
      split; [reflexivity|]. intros _. right. reflexivity.
    + rewrite (contains_insert_other vs t) by (first [lia | congruence]).
      rewrite <- Hiff. split; [intros [Hw|Hw]; [exact Hw|contradiction]|intros Hw; left; exact Hw].
Qed.

(** One round of [backtrackTo] keeps the trail invariants. *)
Lemma pop_invariant a :
  trail a <> [] -> trailInvariant a ->
  trailInvariant {| values := values (unassign a (back (trail a)));
                    trail := pop_back (trail (unassign a (back (trail a)))) |}.
Proof.
  intros Hne [Hnd Hiff]. rewrite unassign_trail.
  destruct a as [vs t]. cbn [values trail] in *.
  destruct (exists_last Hne) as (t' & x & ->).
  rewrite back_snoc, pop_back_snoc.
  apply NoDup_app in Hnd as (Hnd' & Hdisj & _).
  assert (Hx : contains {| values := vs; trail := t' ++ [x] |} x = true).
  { apply Hiff. apply elem_of_app. right. left. }
  pose proof Hx as Hx'. apply contains_spec in Hx' as (Hpos & y & E & _).
  cbn [values] in E. pose proof (lookup_lt_Some _ _ _ E) as Hlt.
  unfold unassign. cbn [values trail].
  destruct (Z.leb_spec x 0); [lia|]. cbn [orb].
  rewrite to_size_t_nonneg by lia.
  destruct (Z.geb_spec x (vsize vs)) as [Hge|_]; [unfold vsize in Hge; lia|].
  cbn [values]. split; cbn [trail]; [exact Hnd'|].
  intros w. destruct (Z.eq_dec w x) as [->|Hnw].
  - rewrite contains_unset. split; [|discriminate].
    intros Hin. exfalso. apply (Hdisj x Hin). left.
  - rewrite (contains_insert_other vs (t' ++ [x])) by (first [lia | congruence]).
    rewrite <- Hiff, elem_of_app, list_elem_of_singleton.
    split; [intros Hw; left; exact Hw|intros [Hw|Hw]; [exact Hw|contradiction]].
Qed.

Lemma backtrackLoop_invariant position : forall rounds a,
  trailInvariant a -> trailInvariant (backtrackLoop rounds a position).
Proof.
  induction rounds as [|rounds IH]; intros a Hinv; [exact Hinv|].
  cbn [backtrackLoop].
  destruct (Z.gtb_spec (vsize (trail a)) (to_size_t position)) as [Hgt|]; [|exact Hinv].
  apply IH. destruct (trail a) as [|x t] eqn:E.
  - destruct a as [vs t0]. cbn [trail] in E. subst t0. exact Hinv.
  - rewrite <- E. apply pop_invariant; [|exact Hinv]. rewrite E. discriminate.
Qed.

Lemma newAssignment_invariant n : trailInvariant (newAssignment n).
Proof.
  split; [apply NoDup_nil_2|]. intros v. split; [intros H; inversion H|].
  intros H. apply contains_spec in H as (_ & x & E & Hx).
  cbn [newAssignment values] in E. apply lookup_replicate in E as [-> _]. congruence.
Qed.

Lemma rescan_assign_set_noop a v b :
  contains a v = true -> Rescan.assign a v b = a.
Proof.
  intros H. unfold Rescan.assign, contains in *.
  apply andb_true_iff in H as [H H3]. apply andb_true_iff in H as [H1 H2].
  apply Z.ltb_lt in H1. apply Z.ltb_lt in H2. apply negb_true_iff in H3.
  destruct (Z.leb_spec v 0); [lia|]. destruct (Z.geb_spec (to_size_t v) (vsize (values a))); [lia|].
  cbn [orb]. rewrite H3. reflexivity.
Qed.

(** Claim C5, as the code has it.  In [SATSOLverOPtimsed2.cpp], after any
    sequence of [assign] and [backtrackTo] operations on a fresh
    assignment every variable appears at most once on the trail, and it is
    on the trail exactly when it is set; [assign] on a variable that is set
    changes nothing. *)
Theorem rescan_trail_invariant :
  forall n ops,
    forallb (fun op => negb (isUnassign op)) ops = true ->
    let a := runOps Rescan.assign ops (newAssignment n) in
    NoDup (trail a) /\
    (forall v, v ∈ trail a <-> contains a v = true) /\
    (forall v value, contains a v = true -> Rescan.assign a v value = a).
Proof.
  intros n ops Hops. cbn zeta.
  assert (Hinv : trailInvariant (runOps Rescan.assign ops (newAssignment n))).
  { unfold runOps. generalize (newAssignment_invariant n).
    generalize (newAssignment n). revert Hops.
    induction ops as [|op ops IH]; intros Hops a Hinv; [exact Hinv|].
    cbn [forallb] in Hops. apply andb_true_iff in Hops as [Hop Hops].
    cbn [fold_left]. apply IH; [exact Hops|].
    destruct op as [v b|v|k]; cbn [applyOp].
    - apply rescan_assign_invariant, Hinv.
    - discriminate.
    - apply backtrackLoop_invariant, Hinv. }
  destruct Hinv as [Hnd Hiff]. split; [exact Hnd|]. split; [exact Hiff|].
  intros v value. apply rescan_assign_set_noop.
Qed.

Lemma rescan_trail_invariant_witness :
  let ops := [OpAssign 1 true; OpAssign 2 false; OpAssign 1 false;
              OpBacktrackTo 1; OpAssign 2 true] in
  forallb (fun op => negb (isUnassign op)) ops = true /\
  NoDup (trail (runOps Rescan.assign ops (newAssignment 2))) /\
  runOps Rescan.assign ops (newAssignment 2) = mkAssignment [-1; 1; 1] [1; 2].
Proof.
  intros ops.
  assert (H : forallb (fun op => negb (isUnassign op)) ops = true) by reflexivity.
  split; [exact H|]. split; [|reflexivity].
  exact (proj1 (rescan_trail_invariant 2 ops H)).
Defined.

(** Claim C5 fails as stated, in both files: [unassign] leaves the trail
    alone, so assigning, unassigning and assigning again puts the variable
    on the trail twice; and in [SATSolverOverOptmised.cpp] a second
    [assign] of a set variable pushes it again. *)
Lemma trail_duplicates :
  let ops := [OpAssign 1 true; OpUnassign 1; OpAssign 1 false] in
  ~ NoDup (trail (runOps Rescan.assign ops (newAssignment 1))) /\
  ~ NoDup (trail (runOps Watched.assign ops (newAssignment 1))) /\
  Watched.assign (Watched.assign (newAssignment 1) 1 true) 1 true
    <> Watched.assign (newAssignment 1) 1 true.
Proof.
  cbn zeta. split; [|split].
  - vm_compute. intros H. apply NoDup_cons in H as [H _]. apply H. left.
  - vm_compute. intros H. apply NoDup_cons in H as [H _]. apply H. left.
  - vm_compute. discriminate.
Qed.

End AssignmentFacts.

(** ** The conflict-driven engines *)

Section CdclFacts.
Import SolverData Props.

Lemma watched_onConflict_spec s :
  let a := Watched.assignment (Watched.solver s) in
  let n := vsize (trail a) in
  (n <= 1 -> Watched.onConflict s = Watched.Return AtConflict false a) /\
  (1 < n ->
   exists s', Watched.onConflict s = Watched.Continue s' /\
              Watched.decisions s' = Watched.decisions s /\
              trail (Watched.assignment (Watched.solver s')) =
                if Watched.conflicts s + 1 >? 100 then []
                else take (Z.to_nat (n / 2)) (trail a)).
Proof.
  cbn zeta. unfold Watched.onConflict.
  set (a := Watched.assignment (Watched.solver s)).
  assert (Hdiv : 0 <= vsize (trail a) / 2) by (apply Z.div_pos; unfold vsize; lia).
  split; intros Hn.
  - destruct (Z.leb_spec (vsize (trail a)) 1); [reflexivity|lia].
  - destruct (Z.leb_spec (vsize (trail a)) 1); [lia|].
    destruct (Watched.conflicts s + 1 >? 100); eexists;
      (split; [reflexivity|split; [reflexivity|]]); cbn.
    + rewrite backtrackTo_trail by lia. reflexivity.
    + rewrite backtrackTo_trail by lia. reflexivity.
Qed.

Lemma rescan_onConflict_spec s :
  let a := Rescan.assignment (Rescan.solver s) in
  let n := vsize (trail a) in
  (n <= 1 -> Rescan.onConflict s = Rescan.Return AtConflict false a) /\
  (1 < n ->
   exists s', Rescan.onConflict s = Rescan.Continue s' /\
              Rescan.decisions s' = Rescan.decisions s /\
              trail (Rescan.assignment (Rescan.solver s')) =
                if Rescan.conflicts s + 1 >?
                   200 * (1 + Z.quot (Rescan.conflicts s + 1) 1000)
                then []
                else take (Z.to_nat (Z.max 0 (n - 5))) (trail a)).
Proof.
  cbn zeta. unfold Rescan.onConflict.
  set (a := Rescan.assignment (Rescan.solver s)).
  split; intros Hn.
  - destruct (Z.leb_spec (vsize (trail a)) 1); [reflexivity|lia].
  - destruct (Z.leb_spec (vsize (trail a)) 1); [lia|].
    destruct (Rescan.conflicts s + 1 >? _); eexists;
      (split; [reflexivity|split; [reflexivity|]]); cbn.
    + rewrite backtrackTo_trail by lia. reflexivity.
    + rewrite backtrackTo_trail by lia. reflexivity.
Qed.

(** Claim C4, as the code has it.  When propagation reports a conflict and
    the trail has at most one entry, both engines return UNSAT.
    Otherwise [SATSolverOverOptmised.cpp] pops the trail down to half its
    length, [SATSOLverOPtimsed2.cpp] pops it down to its length minus five
    (or to nothing), and each then empties the trail if its restart
    threshold is exceeded.  The second file halves the trail when a total
    assignment fails the final verification. *)
Theorem conflict_backtracking :
  (forall fuel s tm sv tm',
      checkIf (Watched.guard s) = Ok tm ->
      Watched.propagate fuel (Watched.solver s) tm = Ok (false, sv, tm') ->
      let a := Watched.assignment sv in
      let n := vsize (trail a) in
      (n <= 1 ->
       Watched.step fuel s = Ok (Watched.Return AtConflict false a)) /\
      (1 < n ->
       exists s', Watched.step fuel s = Ok (Watched.Continue s') /\
                  trail (Watched.assignment (Watched.solver s')) =
                    if Watched.conflicts s + 1 >? 100 then []
                    else take (Z.to_nat (n / 2)) (trail a))) /\
  (forall fuel s tm sv tm',
      checkIf (Rescan.guard s) = Ok tm ->
      Rescan.unitPropagation fuel (Rescan.solver s) tm = Ok (false, sv, tm') ->
      let a := Rescan.assignment sv in
      let n := vsize (trail a) in
      (n <= 1 ->
       Rescan.step fuel s = Ok (Rescan.Return AtConflict false a)) /\
      (1 < n ->
       exists s', Rescan.step fuel s = Ok (Rescan.Continue s') /\
                  trail (Rescan.assignment (Rescan.solver s')) =
                    if Rescan.conflicts s + 1 >?
                       200 * (1 + Z.quot (Rescan.conflicts s + 1) 1000)
                    then []
                    else take (Z.to_nat (Z.max 0 (n - 5))) (trail a))) /\
  (forall fuel s tm sv tm',
      checkIf (Rescan.guard s) = Ok tm ->
      Rescan.unitPropagation fuel (Rescan.solver s) tm = Ok (true, sv, tm') ->
      let a := Rescan.assignment sv in
      let n := vsize (trail a) in
      n = to_size_t (Rescan.numVars sv) ->
      Rescan.verifySolution (Rescan.clauses sv) a = false ->
      0 < n ->
      exists s', Rescan.step fuel s = Ok (Rescan.Continue s') /\
                 trail (Rescan.assignment (Rescan.solver s')) =
                   take (Z.to_nat (n / 2)) (trail a)).
Proof.
  split; [|split].
  - intros fuel s tm sv tm' Hck Hprop. cbn zeta.
    unfold Watched.step. cbn [Watched.guard Watched.solver]. rewrite Hck. cbn [bind].
    rewrite Hprop.
    cbn [bind Watched.decisions Watched.nodesExplored Watched.conflicts
         Watched.solver Watched.guard].
    match goal with |- context [Watched.onConflict ?st] =>
      destruct (watched_onConflict_spec st) as [H1 H2] end.
    cbn [Watched.solver Watched.conflicts] in H1, H2.
    split; intros Hn.
    + rewrite (H1 Hn). reflexivity.
    + destruct (H2 Hn) as (s' & -> & _ & Ht). exists s'. split; [reflexivity|exact Ht].
  - intros fuel s tm sv tm' Hck Hprop. cbn zeta.
    unfold Rescan.step. cbn [Rescan.guard Rescan.solver]. rewrite Hck. cbn [bind].
    rewrite Hprop.
    cbn [bind Rescan.decisions Rescan.nodesExplored Rescan.conflicts
         Rescan.solver Rescan.guard].
    match goal with |- context [Rescan.onConflict ?st] =>
      destruct (rescan_onConflict_spec st) as [H1 H2] end.
    cbn [Rescan.solver Rescan.conflicts] in H1, H2.
    split; intros Hn.
    + rewrite (H1 Hn). reflexivity.
    + destruct (H2 Hn) as (s' & -> & _ & Ht). exists s'. split; [reflexivity|exact Ht].
  - intros fuel s tm sv tm' Hck Hprop. cbn zeta. intros Htot Hver Hn.
    unfold Rescan.step. cbn [Rescan.guard Rescan.solver]. rewrite Hck. cbn [bind].
    rewrite Hprop. cbn [bind]. unfold Rescan.onConsistent.
    cbn [Rescan.solver]. unfold size.
    rewrite (proj2 (Z.eqb_eq _ _) Htot), Hver.
    destruct (Z.gtb_spec (vsize (trail (Rescan.assignment sv))) 0) as [_|]; [|lia].
    eexists. split; [reflexivity|]. cbn.
    apply backtrackTo_trail. apply Z.div_pos; lia.
Qed.

Lemma conflict_backtracking_witness :
  (checkIf (Watched.guard watchedAtConflict) = Ok None /\
   Watched.propagate 2 (Watched.solver watchedAtConflict) None =
     Ok (false, Watched.solver watchedAtConflict, None) /\
   exists s', Watched.step 2 watchedAtConflict = Ok (Watched.Continue s') /\
              trail (Watched.assignment (Watched.solver s')) = [1]) /\
  (checkIf (Rescan.guard rescanAtConflict) = Ok None /\
   (exists sv, Rescan.unitPropagation 2 (Rescan.solver rescanAtConflict) None =
                 Ok (false, sv, None) /\
               trail (Rescan.assignment sv) = [1; 2]) /\
   exists s', Rescan.step 2 rescanAtConflict = Ok (Rescan.Continue s') /\
              trail (Rescan.assignment (Rescan.solver s')) = []) /\
  (checkIf (Rescan.guard rescanUnverified) = Ok None /\
   Rescan.unitPropagation 2 (Rescan.solver rescanUnverified) None =
     Ok (true, Rescan.solver rescanUnverified, None) /\
   exists s', Rescan.step 2 rescanUnverified = Ok (Rescan.Continue s') /\
              trail (Rescan.assignment (Rescan.solver s')) = []).
Proof.
  destruct conflict_backtracking as (HW & HR & HT).
  split; [|split].
  - assert (Hp : Watched.propagate 2 (Watched.solver watchedAtConflict) None =
                 Ok (false, Watched.solver watchedAtConflict, None)) by reflexivity.
    split; [reflexivity|]. split; [exact Hp|].
    destruct (HW 2%nat watchedAtConflict None _ None eq_refl Hp) as [_ H2].
    apply H2. vm_compute. reflexivity.
  - set (sv := Rescan.withAssignment (Rescan.withVsids (Rescan.solver rescanAtConflict)
                   (bumpActivity (Rescan.vsids (Rescan.solver rescanAtConflict)) 2))
                 (mkAssignment [-1; 0; 1] [1; 2])).
    assert (Hp : Rescan.unitPropagation 2 (Rescan.solver rescanAtConflict) None =
                 Ok (false, sv, None)) by reflexivity.
    split; [reflexivity|]. split; [exists sv; split; [exact Hp|reflexivity]|].
    destruct (HR 2%nat rescanAtConflict None _ None eq_refl Hp) as [_ H2].
    apply H2. vm_compute. reflexivity.
  - assert (Hp : Rescan.unitPropagation 2 (Rescan.solver rescanUnverified) None =
                 Ok (true, Rescan.solver rescanUnverified, None)) by reflexivity.
    split; [reflexivity|]. split; [exact Hp|].
    apply (HT 2%nat rescanUnverified None _ None eq_refl Hp); reflexivity.
Defined.

(** Claim C4 fails as stated on [SATSOLverOPtimsed2.cpp]: after the first
    decision on [1 2 0], [1 -2 0] propagation reports a conflict with two
    trail entries, no restart is due, and the trail is popped to length 0,
    not 1. *)
Lemma rescan_conflict_not_halved :
  Rescan.step 2 (Rescan.initial needsOne 2 None) = Ok (Rescan.Continue rescanAtConflict) /\
  ~ (forall tm sv tm',
        checkIf (Rescan.guard rescanAtConflict) = Ok tm ->
        Rescan.unitPropagation 2 (Rescan.solver rescanAtConflict) tm = Ok (false, sv, tm') ->
        let n := vsize (trail (Rescan.assignment sv)) in
        (n <= 1 -> Rescan.step 2 rescanAtConflict =
                   Ok (Rescan.Return AtConflict false (Rescan.assignment sv))) /\
        (1 < n -> exists s', Rescan.step 2 rescanAtConflict = Ok (Rescan.Continue s') /\
                             vsize (trail (Rescan.assignment (Rescan.solver s'))) = n / 2)).
Proof.
  split; [reflexivity|]. intros H.
  destruct (H None _ None eq_refl eq_refl) as [_ H2].
  destruct H2 as (s' & Hs' & Hlen); [vm_compute; reflexivity|].
  vm_compute in Hs'. injection Hs' as <-. vm_compute in Hlen. discriminate.
Qed.

(** The recursive searches answer SAT only on an assignment that passed
    their test of all clauses. *)
Lemma dpllWith_sound assign allSatisfied pick fuel : forall cls n s s',
  dpllWith assign allSatisfied pick fuel cls n s = Ok (true, s') ->
  allSatisfied cls (sAssignment s') = true.
Proof.
  induction fuel as [|fuel IH]; intros cls n s s' H; [discriminate|].
  cbn [dpllWith] in H.
  destruct (checkIf (sTm s)) as [tm| |]; cbn [bind] in H; try discriminate.
  cbn [sAssignment sTm sNodes] in H.
  destruct (allSatisfied cls (sAssignment s)) eqn:Hsat.
  { injection H as <-. exact Hsat. }
  destruct (pick cls (sAssignment s) n =? -1); [discriminate|].
  match type of H with bind ?x _ = _ => destruct x as [[r1 s2]| |] eqn:E1 end;
    cbn [bind] in H; try discriminate.
  destruct r1.
  { injection H as <-. eapply IH, E1. }
  match type of H with bind ?x _ = _ => destruct x as [[r2 s4]| |] eqn:E2 end;
    cbn [bind] in H; try discriminate.
  destruct r2; [|discriminate].
  injection H as <-. eapply IH, E2.
Qed.

Lemma solveWith_sound assign allSatisfied pick fuel cls n tm a :
  solveWith assign allSatisfied pick fuel cls n tm = Ok (true, a) ->
  allSatisfied cls a = true.
Proof.
  unfold solveWith. intros H.
  match type of H with bind ?x _ = _ => destruct x as [[r s]| |] eqn:E end;
    cbn [bind] in H; try discriminate.
  injection H as -> <-. eapply dpllWith_sound, E.
Qed.

Lemma rescan_pass_total cs : forall a v changed,
  exists ok a' v' changed', Rescan.pass cs a v changed = (ok, a', v', changed').
Proof. intros. destruct (Rescan.pass cs a v changed) as [[[? ?] ?] ?]. eauto. Qed.

Lemma rescan_unitPropagation_clauses fuel : forall s tm ok s' tm',
  Rescan.unitPropagation fuel s tm = Ok (ok, s', tm') ->
  Rescan.clauses s' = Rescan.clauses s /\ Rescan.numVars s' = Rescan.numVars s.
Proof.
  induction fuel as [|fuel IH]; intros s tm ok s' tm' H; [discriminate|].
  cbn [Rescan.unitPropagation] in H.
  destruct (checkIf tm) as [tm1| |]; cbn [bind] in H; try discriminate.
  destruct (Rescan.pass (Rescan.clauses s) (Rescan.assignment s) (Rescan.vsids s) false)
    as [[[ok1 a1] v1] ch].
  destruct ok1; cbn [negb] in H.
  - destruct ch.
    + apply IH in H. cbn in H. exact H.
    + injection H as <- <- <-. split; reflexivity.
  - injection H as <- <- <-. split; reflexivity.
Qed.

Lemma rescan_step_result fuel s :
  match Rescan.step fuel s with
  | Ok (Rescan.Return e true a) =>
      Rescan.verifySolution (Rescan.clauses (Rescan.solver s)) a = true
  | Ok (Rescan.Continue s') =>
      Rescan.clauses (Rescan.solver s') = Rescan.clauses (Rescan.solver s)
  | _ => True
  end.
Proof.
  unfold Rescan.step. cbn [Rescan.guard Rescan.solver].
  destruct (checkIf (Rescan.guard s)) as [tm| |]; cbn [bind]; try exact I.
  destruct (Rescan.unitPropagation fuel (Rescan.solver s) tm)
    as [[[ok sv] tm']| |] eqn:E; cbn [bind]; try exact I.
  apply rescan_unitPropagation_clauses in E as [Ec _].
  destruct ok.
  - unfold Rescan.onConsistent, Rescan.decide_. cbn [Rescan.solver].
    destruct (size (Rescan.assignment sv) =? _).
    + destruct (Rescan.verifySolution _ _) eqn:V; [congruence|].
      destruct (_ >? 0); [exact Ec|exact I].
    + destruct ((if _ =? -1 then _ else _) =? -1).
      * destruct (Rescan.verifySolution _ _) eqn:V; [congruence|exact I].
      * exact Ec.
  - unfold Rescan.onConflict. cbn [Rescan.solver].
    destruct (_ <=? 1); [exact I|].
    destruct (_ >? _); exact Ec.
Qed.

(** The re-scanning engine answers SAT only with a verified assignment. *)
Lemma rescan_loop_sound fuel : forall rounds s e a,
  Rescan.loop rounds fuel s = Ok (e, true, a) ->
  Rescan.verifySolution (Rescan.clauses (Rescan.solver s)) a = true.
Proof.
  induction rounds as [|rounds IH]; intros s e a H; cbn [Rescan.loop] in H;
    destruct (Rescan.decisions s <? Rescan.maxDecisions); try discriminate.
  pose proof (rescan_step_result fuel s) as Hs.
  destruct (Rescan.step fuel s) as [[s'|e' r a']| |]; cbn [bind] in H; try discriminate.
  - apply IH in H. rewrite Hs in H. exact H.
  - injection H as <- -> <-. exact Hs.
Qed.

Lemma rescan_solve_sound rounds fuel cls nv tm a :
  Rescan.solve rounds fuel cls nv tm = Ok (true, a) ->
  Rescan.verifySolution cls a = true.
Proof.
  unfold Rescan.solve, Rescan.solveTagged. intros H.
  destruct (Rescan.loop rounds fuel (Rescan.initial cls nv tm)) as [[[e r] a']| |] eqn:E;
    cbn [bind] in H; try discriminate.
  injection H as -> <-. apply rescan_loop_sound in E. exact E.
Qed.

(** Claim C1, at the input on which the code departs from it: the formula
    [p cnf 4 1] with the clause [-1 -2 3 -4 0].  The CDCL engine of
    [SATSolverOverOptmised.cpp] reports SAT with 1, 2, 4 true and 3 false,
    which falsifies the clause: it returns by the statement taken when no
    variable is left to decide, whose answer is [assignment.size() ==
    numVars], without the clause check having succeeded.  The naive
    search of the same file and the CDCL engine of the other file return
    satisfying assignments on this input. *)
Theorem watched_cdcl_reports_unverified_sat :
  let a := mkAssignment [-1; 1; 1; 0; 1] [1; 2; 3; 4] in
  Watched.solveTagged 5 2 fourLiterals 4 None = Ok (AtNoVariable, true, a) /\
  Watched.solve 5 2 fourLiterals 4 None = Ok (true, a) /\
  Watched.isSatisfied fourLiterals a = false /\
  (exists a', Watched.naiveSolve 5 fourLiterals 4 None = Ok (true, a') /\
              Watched.isSatisfied fourLiterals a' = true) /\
  (exists a', Rescan.solve 5 2 fourLiterals 4 None = Ok (true, a') /\
              Rescan.verifySolution fourLiterals a' = true).
Proof.
  cbn zeta. split; [vm_compute; reflexivity|]. split; [vm_compute; reflexivity|].
  split; [vm_compute; reflexivity|]. split.
  - exists (mkAssignment [-1; 1; 1; 1; -1] [1; 2; 3]).
    split; vm_compute; reflexivity.
  - exists (mkAssignment [-1; 0; 1; 0; 1] [1; 2; 3; 4]).
    split; vm_compute; reflexivity.
Qed.

















End CdclFacts.

(** ** Further properties of the code *)

Section Extras.
Import SolverData Props.

Lemma totalLiterals_three cs :
  (forall c, c ∈ cs -> length (literals c) = 3%nat) ->
  Reducer.totalLiterals cs = 3 * vsize cs.
Proof.
  induction cs as [|c cs IH]; intros H; [reflexivity|].
  rewrite totalLiterals_cons, IH by (intros c' Hc'; apply H; right; exact Hc').
  unfold csize, vsize. rewrite (H c ltac:(left)). cbn [length]. lia.
Qed.

Lemma emitted_three cs : forall next c',
  c' ∈ emitted next cs -> length (literals c') = 3%nat.
Proof.
  induction cs as [|c cs IH]; intros next c' Hc'; [inversion Hc'|].
  cbn [emitted] in Hc'. apply elem_of_app in Hc' as [Hc'|Hc'].
  - eapply reduceClause_three, Hc'.
  - eapply IH, Hc'.
Qed.

(** The statistics record is consistent with the reduced formula: the
    number of auxiliaries is the difference of the variable counts, the
    reduced formula declares as many clauses as it holds, and its literal
    count is three times its clause count. *)
Theorem reduce_statistics_consistent :
  forall F,
    let F' := fst (Reducer.reduce F) in
    let st := snd (Reducer.reduce F) in
    Reducer.reducedVars st = Reducer.originalVars st + Reducer.auxVarsAdded st /\
    Reducer.auxVarsAdded st = auxTotal (Reducer.clauses F) /\
    Reducer.reducedVars st = Reducer.numVars F' /\
    Reducer.reducedClauses st = vsize (Reducer.clauses F') /\
    Reducer.numClauses F' = vsize (Reducer.clauses F') /\
    Reducer.totalLiteralsReduced st = 3 * Reducer.reducedClauses st.
Proof.
  intros F. cbn zeta.
  unfold Reducer.reduce. rewrite reduceLoop_emitted. cbn.
  repeat split; try lia.
  apply totalLiterals_three. intros c' Hc'. exact (emitted_three _ _ _ Hc').
Qed.

Lemma readLits_nonzero lits :
  0 ∉ lits -> Reducer.readLits (lits ++ [0]) = lits.
Proof.
  induction lits as [|l lits IH]; intros H0; [reflexivity|].
  cbn [app Reducer.readLits].
  destruct (Z.eqb_spec l 0) as [->|_]; [exfalso; apply H0; left|].
  rewrite IH; [reflexivity|]. intros Hin. apply H0. right. exact Hin.
Qed.

Lemma parseLines_written cs : forall F,
  (forall c, c ∈ cs -> literals c <> [] /\ 0 ∉ literals c) ->
  Dimacs.parseLines F (map (fun clause => Dimacs.Ints (literals clause ++ [0])) cs) =
  {| Reducer.numVars := Reducer.numVars F;
     Reducer.numClauses := Reducer.numClauses F;
     Reducer.clauses := Reducer.clauses F ++ cs |}.
Proof.
  induction cs as [|c cs IH]; intros F H.
  - cbn. rewrite app_nil_r. destruct F; reflexivity.
  - cbn [map Dimacs.parseLines]. rewrite IH by (intros c' Hc'; apply H; right; exact Hc').
    cbn [Reducer.numVars Reducer.numClauses Reducer.clauses].
    destruct (H c ltac:(left)) as [Hne H0].
    unfold Reducer.parseLine. rewrite readLits_nonzero by exact H0.
    case_bool_decide; [congruence|]. destruct c as [ls]. cbn [literals].
    rewrite <- app_assoc. reflexivity.
Qed.

(** Writing a formula and reading the file back gives the formula again,
    provided no clause is empty or holds the literal 0. *)
Theorem parse_write_round_trip :
  forall F,
    (forall c, c ∈ Reducer.clauses F -> literals c <> [] /\ 0 ∉ literals c) ->
    Dimacs.parse (Dimacs.write F) = F.
Proof.
  intros F H. unfold Dimacs.parse, Dimacs.write.
  cbn [app Dimacs.parseLines Reducer.clauses Reducer.numVars Reducer.numClauses].
  rewrite parseLines_written by exact H. destruct F; reflexivity.
Qed.

Lemma parse_write_round_trip_witness :
  let F := Reducer.mkCNF 7 3 [mkClause [1; 2; 6]; mkClause [-6; 3; 7]; mkClause [-7; 4; 5]] in
  (forall c, c ∈ Reducer.clauses F -> literals c <> [] /\ 0 ∉ literals c) /\
  Dimacs.parse (Dimacs.write F) = F.
Proof.
  intros F.
  assert (H : forall c, c ∈ Reducer.clauses F -> literals c <> [] /\ 0 ∉ literals c).
  { intros c Hc. cbn in Hc.
    repeat (apply elem_of_cons in Hc as [->|Hc];
            [split; [discriminate|];
             intros H0; cbn in H0;
             repeat (apply elem_of_cons in H0 as [H0|H0]; [discriminate H0|]);
             inversion H0|]).
    inversion Hc. }
  split; [exact H|]. exact (parse_write_round_trip F H).
Defined.


Lemma firstUnsetFrom_spec a : forall n i,
  let r := firstUnsetFrom n i a in
  (r = -1 /\ forall v, i <= v < i + Z.of_nat n -> contains a v = true) \/
  (i <= r < i + Z.of_nat n /\ contains a r = false /\
   forall v, i <= v < r -> contains a v = true).
Proof.
  induction n as [|n IH]; intros i; cbn zeta.
  - left. split; [reflexivity|]. intros v Hv. lia.
  - cbn [firstUnsetFrom]. destruct (contains a i) eqn:Ec; cbn [negb].
    + destruct (IH (i + 1)) as [[Hr Hall]|(Hr & Hc & Hall)].
      * left. split; [exact Hr|]. intros v Hv.
        destruct (Z.eq_dec v i) as [->|]; [exact Ec|apply Hall; lia].
      * right. split; [lia|]. split; [exact Hc|]. intros v Hv.
        destruct (Z.eq_dec v i) as [->|]; [exact Ec|apply Hall; lia].
    + right. split; [lia|]. split; [exact Ec|]. intros v Hv. lia.
Qed.

Lemma firstUnset_cases a numVars :
  0 <= numVars ->
  (firstUnset a numVars = -1 /\
   forall v, 1 <= v <= numVars -> contains a v = true) \/
  (1 <= firstUnset a numVars <= numVars /\
   contains a (firstUnset a numVars) = false /\
   forall v, 1 <= v < firstUnset a numVars -> contains a v = true).
Proof.
  intros Hn. unfold firstUnset.
  destruct (firstUnsetFrom_spec a (Z.to_nat numVars) 1) as [[Hr Hall]|(Hr & Hc & Hall)].
  - left. split; [exact Hr|]. intros v Hv. apply Hall. lia.
  - right. split; [lia|]. split; [exact Hc|exact Hall].
Qed.

(** The selection loop of the naive search returns the least variable of
    1..numVars that is not set, and -1 exactly when all of them are set. *)
Theorem firstUnset_least :
  forall a numVars,
    0 <= numVars ->
    let r := firstUnset a numVars in
    (r = -1 /\ forall v, 1 <= v <= numVars -> contains a v = true) \/
    (1 <= r <= numVars /\ contains a r = false /\
     forall v, 1 <= v < r -> contains a v = true).
Proof. intros a numVars Hn. cbn zeta. exact (firstUnset_cases a numVars Hn). Qed.

Lemma firstUnset_least_witness :
  0 <= 3 /\
  firstUnset (mkAssignment [-1; 1; -1; 0] [1; 3]) 3 = 2 /\
  firstUnset (mkAssignment [-1; 1; 0; 0] [1; 2; 3]) 3 = -1.
Proof.
  split; [lia|].
  pose proof (firstUnset_least (mkAssignment [-1; 1; -1; 0] [1; 3]) 3 ltac:(lia)) as H.
  split; [|vm_compute; reflexivity].
  destruct H as [[Hr _]|_]; [vm_compute in Hr; discriminate Hr|vm_compute; reflexivity].
Defined.

Lemma selectLoop_spec a v : forall n i bestVar bestScore,
  let r := selectLoop n i a v bestVar bestScore in
  r = bestVar \/ (i <= r < i + Z.of_nat n /\ contains a r = false).
Proof.
  induction n as [|n IH]; intros i bestVar bestScore; cbn zeta; [left; reflexivity|].
  cbn [selectLoop]. destruct (contains a i) eqn:Ec; cbn [negb andb].
  - destruct (IH (i + 1) bestVar bestScore) as [Hr|[Hr Hc]]; [left; exact Hr|].
    right. split; [lia|exact Hc].
  - destruct (PrimFloat.ltb bestScore (activityAt v i)).
    + destruct (IH (i + 1) i (activityAt v i)) as [Hr|[Hr Hc]].
      * right. rewrite Hr. split; [lia|exact Ec].
      * right. split; [lia|exact Hc].
    + destruct (IH (i + 1) bestVar bestScore) as [Hr|[Hr Hc]]; [left; exact Hr|].
      right. split; [lia|exact Hc].
Qed.

(** The activity-based selection never returns a variable that is set or
    lies outside 1..numVars: its result is -1 or an unset variable of that
    range. *)
Theorem selectVariable_unset :
  forall a v numVars,
    0 <= numVars ->
    let r := selectVariable a v numVars in
    r = -1 \/ (1 <= r <= numVars /\ contains a r = false).
Proof.
  intros a v numVars Hn. cbn zeta. unfold selectVariable.
  destruct (selectLoop_spec a v (Z.to_nat numVars) 1 (-1) (-1)%float) as [Hr|[Hr Hc]].
  - left. exact Hr.
  - right. split; [lia|exact Hc].
Qed.

Lemma selectVariable_unset_witness :
  0 <= 3 /\ selectVariable (mkAssignment [-1; 1; -1; -1] [1]) (newVsids 3) 3 = 2.
Proof.
  split; [lia|].
  destruct (selectVariable_unset (mkAssignment [-1; 1; -1; -1] [1]) (newVsids 3) 3
              ltac:(lia)) as [Hr|_];
    [vm_compute in Hr; discriminate Hr|vm_compute; reflexivity].
Defined.

Lemma setLiteral_in_range s lit :
  Z.abs lit < vsize (Verifier.assignment s) ->
  Verifier.setLiteral s lit =
  Some {| Verifier.assignment :=
            <[Z.to_nat (Z.abs lit) := if 0 <? lit then 1 else 0]> (Verifier.assignment s);
          Verifier.solVars := Verifier.solVars s |}.
Proof.
  intros Hlt. unfold Verifier.setLiteral, vset. rewrite to_size_t_nonneg by lia.
  destruct (Z.leb_spec 0 (Z.abs lit)); [|lia].
  destruct (Z.ltb_spec (Z.abs lit) (vsize (Verifier.assignment s))); [|lia].
  reflexivity.
Qed.

(** After [setLiteral] of a literal whose variable the solution covers, the
    literal is true, its negation is false, and the literals of the other
    variables keep their value. *)
Theorem setLiteral_makes_literal_true :
  forall s lit,
    lit <> 0 -> Z.abs lit < vsize (Verifier.assignment s) ->
    exists s',
      Verifier.setLiteral s lit = Some s' /\
      litHolds (Verifier.assignment s') lit = true /\
      litHolds (Verifier.assignment s') (- lit) = false /\
      forall other, Z.abs other <> Z.abs lit ->
        litHolds (Verifier.assignment s') other = litHolds (Verifier.assignment s) other.
Proof.
  intros s lit Hnz Hlt. eexists. split; [apply setLiteral_in_range; exact Hlt|].
  cbn [Verifier.assignment]. unfold litHolds. rewrite Z.abs_opp.
  rewrite list_lookup_insert_eq by (unfold vsize in Hlt; lia).
  split; [|split].
  - destruct (Z.ltb_spec 0 lit); reflexivity.
  - destruct (Z.ltb_spec 0 lit), (Z.ltb_spec 0 (- lit)); try reflexivity; lia.
  - intros other Hne. rewrite list_lookup_insert_ne by lia. reflexivity.
Qed.

Lemma setLiteral_makes_literal_true_witness :
  -2 <> 0 /\ Z.abs (-2) < vsize [-1; -1; -1] /\
  Verifier.setLiteral (Verifier.mkSolution [-1; -1; -1] 2) (-2) =
    Some (Verifier.mkSolution [-1; -1; 0] 2) /\
  litHolds [-1; -1; 0] (-2) = true.
Proof.
  assert (H1 : -2 <> 0) by discriminate.
  assert (H2 : Z.abs (-2) < vsize [-1; -1; -1]) by (vm_compute; reflexivity).
  split; [exact H1|]. split; [exact H2|].
  destruct (setLiteral_makes_literal_true (Verifier.mkSolution [-1; -1; -1] 2) (-2) H1 H2)
    as (s' & E & Ht & _).
  split; [vm_compute; reflexivity|].
  vm_compute in E. injection E as <-. exact Ht.
Defined.

Lemma setLiteral_length s lit s' :
  Verifier.setLiteral s lit = Some s' ->
  length (Verifier.assignment s') = length (Verifier.assignment s).
Proof.
  intros E. destruct (setLiteral_total s lit) as (s1 & E1 & Hl & _). congruence.
Qed.

(** The projection written by [SolutionConverter::convertSolution] for N
    original variables leaves the verifier's reading unchanged: a solution
    of at most N + 1 entries is filled in the same way from the converted
    line as from the original one. *)
Theorem converted_line_reads_the_same :
  forall N ints s,
    vsize (Verifier.assignment s) <= N + 1 ->
    Verifier.readLiterals s (Dimacs.convertLiterals N ints) =
    Verifier.readLiterals s ints.
Proof.
  intros N ints. induction ints as [|lit rest IH]; intros s Hs; [reflexivity|].
  cbn [Dimacs.convertLiterals Verifier.readLiterals].
  destruct (Z.eqb_spec lit 0) as [->|Hnz]; [reflexivity|].
  destruct (Z.leb_spec (Z.abs lit) N) as [Hin|Hout].
  - cbn [Verifier.readLiterals]. rewrite (proj2 (Z.eqb_neq lit 0) Hnz).
    destruct (Verifier.setLiteral s lit) as [s1|] eqn:E; [|reflexivity].
    apply IH. apply setLiteral_length in E. unfold vsize in *. lia.
  - rewrite setLiteral_out_of_range by lia. apply IH. exact Hs.
Qed.

Lemma converted_line_reads_the_same_witness :
  vsize (Verifier.assignment (Verifier.mkSolution [-1; -1; -1] 2)) <= 2 + 1 /\
  Dimacs.convertLiterals 2 [1; -2; 3; -4; 0] = [1; -2; 0] /\
  Verifier.readLiterals (Verifier.mkSolution [-1; -1; -1] 2) [1; -2; 0] =
  Verifier.readLiterals (Verifier.mkSolution [-1; -1; -1] 2) [1; -2; 3; -4; 0].
Proof.
  assert (H : vsize (Verifier.assignment (Verifier.mkSolution [-1; -1; -1] 2)) <= 2 + 1)
    by (vm_compute; discriminate).
  split; [exact H|]. split; [reflexivity|].
  exact (converted_line_reads_the_same 2 [1; -2; 3; -4; 0] _ H).
Defined.

Lemma contains_in_range a v :
  contains a v = true -> 0 < v < vsize (values a).
Proof.
  intros H. apply contains_spec in H as (Hv & x & E & _).
  apply lookup_lt_Some in E. unfold vsize. lia.
Qed.

(** Reading the [v] line written for an assignment: the entries of the
    variables the line mentions hold their value, the others are left. *)
Lemma read_solutionLineFrom a : forall k i s,
  1 <= i -> vsize (Verifier.assignment s) = vsize (values a) ->
  exists s',
    Verifier.readLiterals s (Dimacs.solutionLineFrom k i a) = Some s' /\
    vsize (Verifier.assignment s') = vsize (values a) /\
    (forall v, i <= v < i + Z.of_nat k -> contains a v = true ->
               Verifier.assignment s' !! Z.to_nat v = Some (Z.b2z (getValue a v))) /\
    (forall v, 0 <= v -> ~ (i <= v < i + Z.of_nat k /\ contains a v = true) ->
               Verifier.assignment s' !! Z.to_nat v =
               Verifier.assignment s !! Z.to_nat v).
Proof.
  induction k as [|k IH]; intros i s Hi Hlen.
  - exists s. cbn [Dimacs.solutionLineFrom Verifier.readLiterals].
    rewrite Z.eqb_refl. split; [reflexivity|]. split; [exact Hlen|].
    split; [intros v Hv; lia|reflexivity].
  - cbn [Dimacs.solutionLineFrom]. destruct (contains a i) eqn:Ec.
    + pose proof (contains_in_range a i Ec) as Hr.
      set (l := if getValue a i then i else - i).
      assert (Habs : Z.abs l = i) by (unfold l; destruct (getValue a i); lia).
      assert (Hnz : (l =? 0) = false) by (apply Z.eqb_neq; lia).
      assert (Hsign : (0 <? l) = getValue a i).
      { unfold l. destruct (getValue a i);
          [apply Z.ltb_lt; lia|apply Z.ltb_ge; lia]. }
      cbn [Verifier.readLiterals]. rewrite Hnz.
      rewrite setLiteral_in_range by lia. rewrite Habs, Hsign.
      match goal with |- context [Verifier.readLiterals ?s1 _] =>
        destruct (IH (i + 1) s1) as (s' & E & Hl' & Hset & Hkeep) end;
        [lia|cbn [Verifier.assignment]; unfold vsize in *; rewrite length_insert; lia|].
      cbn [Verifier.assignment] in Hkeep.
      exists s'. split; [exact E|]. split; [exact Hl'|]. split.
      * intros v Hv Hc. destruct (Z.eq_dec v i) as [->|Hne].
        -- rewrite Hkeep by lia.
           rewrite list_lookup_insert_eq by (unfold vsize in *; lia).
           destruct (getValue a i); reflexivity.
        -- apply Hset; [lia|exact Hc].
      * intros v Hv Hnot. rewrite Hkeep.
        -- apply list_lookup_insert_ne. intros Heq.
           apply Hnot. assert (v = i) as -> by lia. split; [lia|exact Ec].
        -- exact Hv.
        -- intros [Hv' Hc]. apply Hnot. split; [lia|exact Hc].
    + destruct (IH (i + 1) s) as (s' & E & Hl' & Hset & Hkeep); [lia|exact Hlen|].
      exists s'. split; [exact E|]. split; [exact Hl'|]. split.
      * intros v Hv Hc. apply Hset; [|exact Hc].
        destruct (Z.eq_dec v i) as [->|]; [congruence|lia].
      * intros v Hv Hnot. apply Hkeep; [exact Hv|].
        intros [Hv' Hc]. apply Hnot. split; [lia|exact Hc].
Qed.

(** The solution file written by the solver is read back by the verifier
    as the same assignment: a fresh solution for N variables, filled from
    the [v] line of [saveSolutionToFile], gives every literal over 1..N
    the truth value it has for the solver. *)
Theorem solution_line_read_back :
  forall a N,
    0 <= N < 2 ^ 31 -> vsize (values a) = N + 1 ->
    exists s0 s,
      Verifier.newSolution N = Verifier.Value s0 /\
      Verifier.readLiterals s0 (Dimacs.solutionLine a N) = Some s /\
      forall z, 1 <= Z.abs z <= N ->
                litHolds (Verifier.assignment s) z = litTrue a (lit z).
Proof.
  intros a N HN Hlen.
  eexists. 
  destruct (read_solutionLineFrom a (Z.to_nat N) 1
              {| Verifier.assignment := replicate (Z.to_nat (N + 1)) (-1);
                 Verifier.solVars := N |})
    as (s & E & _ & Hset & Hkeep);
    [lia|unfold vsize in *; cbn [Verifier.assignment]; rewrite length_replicate; lia|].
  exists s. split; [apply newSolution_value; lia|]. split; [exact E|].
  intros z Hz. unfold litHolds, litTrue, lit. cbn [var sign].
  destruct (contains a (Z.abs z)) eqn:Ec; cbn [andb].
  - rewrite Hset by (first [lia | exact Ec]).
    destruct (getValue a (Z.abs z)), (0 <? z); reflexivity.
  - rewrite Hkeep by (first [lia | intros [_ Hc]; congruence]).
    cbn [Verifier.assignment]. rewrite lookup_replicate_2 by lia. reflexivity.
Qed.

Lemma solution_line_read_back_witness :
  let a := mkAssignment [-1; 1; -1; 0] [1; 3] in
  0 <= 3 < 2 ^ 31 /\ vsize (values a) = 3 + 1 /\
  Dimacs.solutionLine a 3 = [1; -3; 0] /\
  exists s0 s,
    Verifier.newSolution 3 = Verifier.Value s0 /\
    Verifier.readLiterals s0 (Dimacs.solutionLine a 3) = Some s /\
    forall z, 1 <= Z.abs z <= 3 ->
              litHolds (Verifier.assignment s) z = litTrue a (lit z).
Proof.
  intros a.
  assert (H1 : 0 <= 3 < 2 ^ 31) by lia.
  assert (H2 : vsize (values a) = 3 + 1) by reflexivity.
  split; [exact H1|]. split; [exact H2|]. split; [reflexivity|].
  exact (solution_line_read_back a 3 H1 H2).
Defined.

(** The verdict of [verify] is the conjunction of the clause evaluations:
    it is true exactly when every clause has a true literal, an unset
    literal counting as not true; no access leaves a vector. *)
Theorem verify_verdict :
  forall inst sol,
    exists msg,
      Verifier.verify inst sol =
      Some (forallb (holds (Verifier.assignment sol)) (Verifier.clauses inst), msg).
Proof. intros inst sol. apply verify_total. Qed.

(** The diagnostic vector of [verify] holds the indices of the first
    falsified clauses, in clause order, up to eleven of them, and the
    counter of falsified clauses is the length of that vector. *)
Theorem verify_diagnostics :
  forall inst sol,
    let idxs := take 11 (falsifiedFrom (Verifier.assignment sol) 0 (Verifier.clauses inst)) in
    exists satisfied,
      Verifier.verifyScan inst sol = Some (satisfied, vsize idxs, idxs).
Proof. intros inst sol. apply verifyScan_spec. Qed.

Lemma backtrackLoop_values position v : forall rounds a,
  v ∉ drop (Z.to_nat position) (trail a) -> 0 <= position ->
  values (backtrackLoop rounds a position) !! Z.to_nat v = values a !! Z.to_nat v.
Proof.
  induction rounds as [|rounds IH]; intros a Hv Hp; [reflexivity|].
  cbn [backtrackLoop]. rewrite to_size_t_nonneg by lia.
  destruct (Z.gtb_spec (vsize (trail a)) position) as [Hgt|]; [|reflexivity].
  destruct (trail a) as [|x0 t0] eqn:Et; [unfold vsize in Hgt; cbn in Hgt; lia|].
  assert (Hne : trail a <> []) by (rewrite Et; discriminate).
  destruct (exists_last Hne) as (t' & x & Ex).
  rewrite <- Et, Ex in *. rewrite back_snoc.
  assert (Hlen : (Z.to_nat position <= length t')%nat).
  { unfold vsize in Hgt. rewrite length_app in Hgt. cbn [length] in Hgt. lia. }
  rewrite drop_app_le in Hv by exact Hlen.
  rewrite IH; cbn [trail values]; rewrite ?unassign_trail, ?Ex, ?pop_back_snoc.
  - unfold unassign. destruct (_ || _) eqn:Eg; [reflexivity|]. cbn [values].
    apply orb_false_iff in Eg as [Eg _]. apply Z.leb_gt in Eg.
    apply list_lookup_insert_ne. intros Heq.
    apply Hv. apply elem_of_app. right.
    destruct (Z.le_gt_cases v 0) as [Hv0|Hv0]; [lia|].
    assert (v = x) as -> by lia. left.
  - intros Hin. apply Hv. apply elem_of_app. left. exact Hin.
  - exact Hp.
Qed.

(** [backtrackTo(k)] on an assignment that satisfies the trail invariants
    leaves exactly the first [k] entries of the trail, keeps the
    invariants, unsets the variables it pops and leaves the values of all
    other variables as they were. *)
Theorem backtrackTo_prefix :
  forall a position,
    trailInvariant a -> 0 <= position ->
    let a' := backtrackTo a position in
    trail a' = take (Z.to_nat position) (trail a) /\
    trailInvariant a' /\
    (forall v, v ∈ drop (Z.to_nat position) (trail a) -> contains a' v = false) /\
    (forall v, v ∉ drop (Z.to_nat position) (trail a) ->
               values a' !! Z.to_nat v = values a !! Z.to_nat v).
Proof.
  intros a position Hinv Hp. cbn zeta.
  pose proof (backtrackTo_trail a position Hp) as Ht.
  pose proof (backtrackLoop_invariant position (length (trail a)) a Hinv) as Hinv'.
  fold (backtrackTo a position) in Hinv'.
  split; [exact Ht|]. split; [exact Hinv'|]. split.
  - intros v Hv. destruct Hinv as [Hnd _]. destruct Hinv' as [_ Hiff'].
    apply not_true_iff_false. intros Hc. apply Hiff' in Hc. rewrite Ht in Hc.
    rewrite <- (take_drop (Z.to_nat position) (trail a)) in Hnd.
    apply NoDup_app in Hnd as (_ & Hdisj & _). exact (Hdisj v Hc Hv).
  - intros v Hv. apply backtrackLoop_values; assumption.
Qed.

Lemma backtrackTo_prefix_witness :
  let a := runOps Rescan.assign [OpAssign 2 true; OpAssign 1 false; OpAssign 3 true]
                  (newAssignment 3) in
  trailInvariant a /\ 0 <= 1 /\
  backtrackTo a 1 = mkAssignment [-1; -1; 1; -1] [2] /\
  trail (backtrackTo a 1) = take (Z.to_nat 1) (trail a).
Proof.
  intros a.
  assert (Hinv : trailInvariant a).
  { unfold a, runOps. cbn [fold_left applyOp].
    repeat apply rescan_assign_invariant. apply newAssignment_invariant. }
  split; [exact Hinv|]. split; [lia|]. split; [vm_compute; reflexivity|].
  exact (proj1 (backtrackTo_prefix a 1 Hinv ltac:(lia))).
Defined.

(** The recursive searches of both files answer SAT only with an
    assignment that passes their test of all clauses, whatever the fuel,
    the guard and the traversal order of the hash table. *)
Theorem recursive_search_sat_verified :
  (forall fuel cls n tm a,
      Watched.naiveSolve fuel cls n tm = Ok (true, a) ->
      Watched.isSatisfied cls a = true) /\
  (forall order fuel cls n tm a,
      Watched.momsSolve order fuel cls n tm = Ok (true, a) ->
      Watched.isSatisfied cls a = true) /\
  (forall fuel cls n tm a,
      Rescan.naiveSolve fuel cls n tm = Ok (true, a) ->
      Rescan.verifySolution cls a = true) /\
  (forall order fuel cls n tm a,
      Rescan.momsSolve order fuel cls n tm = Ok (true, a) ->
      Rescan.verifySolution cls a = true).
Proof.
  split; [|split; [|split]]; intros; eapply solveWith_sound; eassumption.
Qed.

Lemma recursive_search_sat_verified_witness :
  let a := mkAssignment [-1; 1; 1; 1; -1] [1; 2; 3] in
  Watched.naiveSolve 5 fourLiterals 4 None = Ok (true, a) /\
  Watched.isSatisfied fourLiterals a = true /\
  Rescan.momsSolve (fun entries => entries) 5 fourLiterals 4 None =
    Ok (true, mkAssignment [-1; 1; 1; 1; -1] [1; 2; 3]) /\
  Rescan.verifySolution fourLiterals (mkAssignment [-1; 1; 1; 1; -1] [1; 2; 3]) = true.
Proof.
  intros a.
  assert (H1 : Watched.naiveSolve 5 fourLiterals 4 None = Ok (true, a))
    by (vm_compute; reflexivity).
  assert (H2 : Rescan.momsSolve (fun entries => entries) 5 fourLiterals 4 None =
               Ok (true, mkAssignment [-1; 1; 1; 1; -1] [1; 2; 3]))
    by (vm_compute; reflexivity).
  destruct recursive_search_sat_verified as (PN & _ & _ & PM).
  split; [exact H1|]. split; [exact (PN _ _ _ _ _ H1)|].
  split; [exact H2|]. exact (PM _ _ _ _ _ _ H2).
Defined.

(** The CDCL engine of [SATSOLverOPtimsed2.cpp] answers SAT only with an
    assignment that [verifySolution] accepts. *)
Theorem rescan_cdcl_sat_verified :
  forall rounds fuel cls nv tm a,
    Rescan.solve rounds fuel cls nv tm = Ok (true, a) ->
    Rescan.verifySolution cls a = true.
Proof. intros. eapply rescan_solve_sound. eassumption. Qed.

Lemma rescan_cdcl_sat_verified_witness :
  let a := mkAssignment [-1; 0; 1; 0; 1] [1; 2; 3; 4] in
  Rescan.solve 5 2 fourLiterals 4 None = Ok (true, a) /\
  Rescan.verifySolution fourLiterals a = true.
Proof.
  intros a.
  assert (H : Rescan.solve 5 2 fourLiterals 4 None = Ok (true, a))
    by (vm_compute; reflexivity).
  split; [exact H|]. exact (rescan_cdcl_sat_verified _ _ _ _ _ _ H).
Defined.

Lemma contains_values a b v : values a = values b -> contains a v = contains b v.
Proof. intros H. unfold contains, valueAt. rewrite H. reflexivity. Qed.

Lemma getValue_values a b v : values a = values b -> getValue a v = getValue b v.
Proof. intros H. unfold getValue, valueAt. rewrite H. reflexivity. Qed.

Lemma contains_outside a n v :
  vsize (values a) = n + 1 -> ~ (1 <= v <= n) -> contains a v = false.
Proof.
  intros Hlen Hv. apply not_true_iff_false. intros Hc.
  apply contains_in_range in Hc. lia.
Qed.

Lemma valueAt_unset a n v :
  vsize (values a) = n + 1 -> 1 <= v <= n -> contains a v = false ->
  values a !! Z.to_nat v = Some (-1).
Proof.
  intros Hlen Hv Hc. unfold contains, valueAt in Hc.
  rewrite to_size_t_nonneg, vget_lookup in Hc by lia.
  destruct (Z.ltb_spec 0 v); [|lia]. destruct (Z.ltb_spec v (vsize (values a))); [|lia].
  cbn [andb] in Hc. apply negb_false_iff, Z.eqb_eq in Hc.
  destruct (values a !! Z.to_nat v) as [x|] eqn:E; [cbn in Hc; congruence|].
  apply lookup_ge_None in E. unfold vsize in *. lia.
Qed.

Lemma watched_assign_values a n v b :
  vsize (values a) = n + 1 -> 1 <= v <= n ->
  values (Watched.assign a v b) = <[Z.to_nat v := Z.b2z b]> (values a).
Proof.
  intros Hlen Hv. unfold Watched.assign. rewrite to_size_t_nonneg by lia.
  destruct (Z.leb_spec v 0); [lia|]. destruct (Z.geb_spec v (vsize (values a))); [lia|].
  cbn [orb values]. destruct b; reflexivity.
Qed.

Lemma unassign_values a n v :
  vsize (values a) = n + 1 -> 1 <= v <= n ->
  values (unassign a v) = <[Z.to_nat v := -1]> (values a).
Proof.
  intros Hlen Hv. unfold unassign. rewrite to_size_t_nonneg by lia.
  destruct (Z.leb_spec v 0); [lia|]. destruct (Z.geb_spec v (vsize (values a))); [lia|].
  reflexivity.
Qed.

Lemma contains_after_insert a b n v x u :
  vsize (values a) = n + 1 -> 1 <= v <= n ->
  values b = <[Z.to_nat v := x]> (values a) ->
  contains b u = if u =? v then negb (x =? -1) else contains a u.
Proof.
  intros Hlen Hv Hb. destruct (Z.eqb_spec u v) as [->|Hne].
  - unfold contains, valueAt. rewrite Hb, to_size_t_nonneg, vget_lookup by lia.
    unfold vsize in *. rewrite length_insert.
    rewrite list_lookup_insert_eq by lia.
    destruct (Z.ltb_spec 0 v); [|lia].
    destruct (Z.ltb_spec v (Z.of_nat (length (values a)))); [|lia]. reflexivity.
  - destruct (Z.le_gt_cases u 0) as [Hu|Hu].
    + unfold contains. destruct (Z.ltb_spec 0 u); [lia|reflexivity].
    + unfold contains, valueAt. rewrite Hb, !vget_lookup by lia.
      unfold vsize. rewrite length_insert, list_lookup_insert_ne by lia. reflexivity.
Qed.

Lemma getValue_after_insert a b v x u :
  0 < v -> values b = <[Z.to_nat v := x]> (values a) -> 0 < u -> u <> v ->
  getValue b u = getValue a u.
Proof.
  intros Hv Hb Hu Hne. unfold getValue, valueAt. rewrite Hb.
  unfold vget, vsize. rewrite length_insert, list_lookup_insert_ne by lia. reflexivity.
Qed.

Lemma getValue_at_insert a b n v x :
  vsize (values a) = n + 1 -> 1 <= v <= n ->
  values b = <[Z.to_nat v := x]> (values a) -> getValue b v = (x =? 1).
Proof.
  intros Hlen Hv Hb. unfold getValue, valueAt. rewrite Hb, vget_lookup by lia.
  rewrite list_lookup_insert_eq by (unfold vsize in *; lia). reflexivity.
Qed.

(** The clause test of the first file only looks at which variables are
    set and at the values of those. *)
Lemma watched_isSatisfied_agree cls a t :
  (forall v, contains t v = contains a v /\
             (contains a v = true -> getValue t v = getValue a v)) ->
  Watched.isSatisfied cls t = Watched.isSatisfied cls a.
Proof.
  intros H. unfold Watched.isSatisfied.
  induction cls as [|c cls IHc]; [reflexivity|]. cbn [forallb]. rewrite IHc. f_equal.
  induction (lits c) as [|l ls IH]; [reflexivity|].
  cbn [existsb]. rewrite IH. f_equal. unfold litTrue.
  destruct (H (var l)) as [-> Hg]. destruct (contains a (var l)); [|reflexivity].
  rewrite Hg by reflexivity. reflexivity.
Qed.

Lemma values_length_insert (a b : Assignment) n i x :
  vsize (values a) = n + 1 -> values b = <[i := x]> (values a) ->
  vsize (values b) = n + 1.
Proof. intros Hlen Hb. unfold vsize in *. rewrite Hb, length_insert. exact Hlen. Qed.

(** A failed naive search leaves the values as it found them, and no total
    assignment that agrees with the values set on entry passes the clause
    test. *)
Lemma watched_naive_false cls n (Hn : 0 <= n) : forall fuel s s',
  vsize (values (sAssignment s)) = n + 1 ->
  Watched.naiveDpll fuel cls n s = Ok (false, s') ->
  values (sAssignment s') = values (sAssignment s) /\
  forall t,
    vsize (values t) = n + 1 ->
    (forall v, 1 <= v <= n -> contains t v = true) ->
    (forall v, contains (sAssignment s) v = true ->
               getValue t v = getValue (sAssignment s) v) ->
    Watched.isSatisfied cls t = false.
Proof.
  unfold Watched.naiveDpll.
  induction fuel as [|fuel IH]; intros s s' Hlen H; [discriminate|].
  cbn [dpllWith] in H.
  destruct (checkIf (sTm s)) as [tm| |]; cbn [bind] in H; try discriminate.
  cbn [sAssignment sTm sNodes] in H.
  set (a := sAssignment s) in *.
  destruct (Watched.isSatisfied cls a) eqn:Hsat; [discriminate|].
  unfold naivePick in H.
  destruct (firstUnset_cases a n Hn) as [[Hr Hall]|(Hr & Hc & Hall)].
  - rewrite Hr in H. cbn in H. injection H as <-. split; [reflexivity|].
    intros t Ht Htot Hag. rewrite (watched_isSatisfied_agree cls a t); [exact Hsat|].
    intros v. destruct (decide (1 <= v <= n)) as [Hv|Hv].
    + rewrite Htot, Hall by lia. split; [reflexivity|]. intros _. apply Hag, Hall. lia.
    + rewrite (contains_outside t n), (contains_outside a n) by assumption.
      split; [reflexivity|discriminate].
  - set (v := firstUnset a n) in *.
    rewrite (proj2 (Z.eqb_neq v (-1))) in H by lia.
    pose proof (valueAt_unset a n v Hlen Hr Hc) as Hunset.
    pose proof (watched_assign_values a n v true Hlen Hr) as Ha1.
    match type of H with bind ?x _ = _ => destruct x as [[r1 s2]| |] eqn:E1 end;
      cbn [bind] in H; try discriminate.
    destruct r1; [discriminate|].
    apply IH in E1 as [Hv1 Hc1];
      [|cbn [sAssignment]; exact (values_length_insert a _ n _ _ Hlen Ha1)].
    cbn [sAssignment] in Hv1, Hc1.
    assert (Hlen2 : vsize (values (sAssignment s2)) = n + 1).
    { rewrite Hv1. exact (values_length_insert a _ n _ _ Hlen Ha1). }
    assert (Hun2 : values (unassign (sAssignment s2) v) = values a).
    { rewrite (unassign_values _ n) by assumption.
      rewrite Hv1, Ha1, list_insert_insert_eq. apply list_insert_id'. intros _. exact Hunset. }
    assert (Hlen3 : vsize (values (unassign (sAssignment s2) v)) = n + 1)
      by (rewrite Hun2; exact Hlen).
    pose proof (watched_assign_values _ n v false Hlen3 Hr) as Ha3.
    rewrite Hun2 in Ha3.
    match type of H with bind ?x _ = _ => destruct x as [[r2 s4]| |] eqn:E2 end;
      cbn [bind] in H; try discriminate.
    destruct r2; [discriminate|].
    apply IH in E2 as [Hv2 Hc2];
      [|cbn [sAssignment]; exact (values_length_insert a _ n _ _ Hlen Ha3)].
    cbn [sAssignment] in Hv2, Hc2.
    injection H as <-. cbn [sAssignment]. split.
    + rewrite (unassign_values _ n);
        [|rewrite Hv2; exact (values_length_insert a _ n _ _ Hlen Ha3)|exact Hr].
      rewrite Hv2, Ha3, list_insert_insert_eq. apply list_insert_id'. intros _. exact Hunset.
    + intros t Ht Htot Hag. destruct (getValue t v) eqn:Eg.
      * apply Hc1; [exact Ht|exact Htot|]. intros u Hu.
        rewrite (contains_after_insert a _ n v _ u Hlen Hr Ha1) in Hu.
        destruct (Z.eqb_spec u v) as [Heq|Hne].
        -- rewrite Heq, (getValue_at_insert a _ n v _ Hlen Hr Ha1). exact Eg.
        -- pose proof (contains_in_range a u Hu).
           rewrite (getValue_after_insert a _ v _ u ltac:(lia) Ha1) by lia.
           apply Hag. exact Hu.
      * apply Hc2; [exact Ht|exact Htot|]. intros u Hu.
        rewrite (contains_after_insert a _ n v _ u Hlen Hr Ha3) in Hu.
        destruct (Z.eqb_spec u v) as [Heq|Hne].
        -- rewrite Heq, (getValue_at_insert a _ n v _ Hlen Hr Ha3). exact Eg.
        -- pose proof (contains_in_range a u Hu).
           rewrite (getValue_after_insert a _ v _ u ltac:(lia) Ha3) by lia.
           apply Hag. exact Hu.
Qed.

Lemma checkIf_not_out_of_fuel tm : checkIf tm <> OutOfFuel.
Proof.
  destruct tm as [t|]; [|discriminate]. unfold checkIf, check.
  destruct (_ =? 0); [destruct (_ >? _)|]; discriminate.
Qed.

Lemma watched_naive_terminates cls n (Hn : 0 <= n) : forall fuel i s,
  vsize (values (sAssignment s)) = n + 1 ->
  1 <= i <= n + 1 ->
  (forall u, 1 <= u < i -> contains (sAssignment s) u = true) ->
  (Z.to_nat (n - i + 2) <= fuel)%nat ->
  Watched.naiveDpll fuel cls n s <> OutOfFuel.
Proof.
  induction fuel as [|fuel IH]; intros i s Hlen Hi Hset Hfuel; [lia|].
  unfold Watched.naiveDpll in *. cbn [dpllWith].
  pose proof (checkIf_not_out_of_fuel (sTm s)) as Hck.
  destruct (checkIf (sTm s)) as [tm| |] eqn:Eck; cbn [bind];
    [|discriminate|exfalso; apply Hck; reflexivity].
  cbn [sAssignment sTm sNodes].
  set (a := sAssignment s) in *.
  destruct (Watched.isSatisfied cls a); [discriminate|].
  change (naivePick cls a n) with (firstUnset a n).
  destruct (firstUnset_cases a n Hn) as [[Hr Hall]|(Hr & Hc & Hall)].
  - rewrite Hr. cbn. discriminate.
  - set (v := firstUnset a n) in *.
    rewrite (proj2 (Z.eqb_neq v (-1))) by lia.
    assert (Hvi : i <= v).
    { destruct (Z.lt_ge_cases v i) as [Hlt|]; [|assumption].
      rewrite Hset in Hc by lia. discriminate. }
    pose proof (valueAt_unset a n v Hlen Hr Hc) as Hunset.
    pose proof (watched_assign_values a n v true Hlen Hr) as Ha1.
    set (s1 := {| sAssignment := Watched.assign a v true; sTm := tm;
                  sNodes := sNodes s + 1 |}).
    assert (Hs1 : dpllWith Watched.assign Watched.isSatisfied naivePick fuel cls n s1
                  <> OutOfFuel).
    { apply (IH (v + 1)).
      - exact (values_length_insert a _ n _ _ Hlen Ha1).
      - lia.
      - intros u Hu. cbn [s1 sAssignment].
        rewrite (contains_after_insert a _ n v _ u Hlen Hr Ha1).
        destruct (Z.eqb_spec u v); [reflexivity|]. apply Hall. lia.
      - lia. }
    destruct (dpllWith Watched.assign Watched.isSatisfied naivePick fuel cls n s1)
      as [[r1 s2]| |] eqn:E1; cbn [bind];
      [|discriminate|exfalso; apply Hs1; reflexivity].
    destruct r1; [discriminate|].
    pose proof (watched_naive_false cls n Hn fuel s1 s2
                  (values_length_insert a _ n _ _ Hlen Ha1) E1) as [Hv1 _].
    cbn [s1 sAssignment] in Hv1.
    assert (Hlen2 : vsize (values (sAssignment s2)) = n + 1).
    { rewrite Hv1. exact (values_length_insert a _ n _ _ Hlen Ha1). }
    assert (Hun2 : values (unassign (sAssignment s2) v) = values a).
    { rewrite (unassign_values _ n) by assumption.
      rewrite Hv1, Ha1, list_insert_insert_eq. apply list_insert_id'. intros _. exact Hunset. }
    assert (Hlen3 : vsize (values (unassign (sAssignment s2) v)) = n + 1)
      by (rewrite Hun2; exact Hlen).
    pose proof (watched_assign_values _ n v false Hlen3 Hr) as Ha3.
    rewrite Hun2 in Ha3.
    match goal with |- context [dpllWith _ _ _ fuel cls n ?s3] =>
      assert (Hs3 : dpllWith Watched.assign Watched.isSatisfied naivePick fuel cls n s3
                    <> OutOfFuel) end.
    { apply (IH (v + 1)).
      - exact (values_length_insert a _ n _ _ Hlen Ha3).
      - lia.
      - intros u Hu. cbn [sAssignment].
        rewrite (contains_after_insert a _ n v _ u Hlen Hr Ha3).
        destruct (Z.eqb_spec u v); [reflexivity|]. apply Hall. lia.
      - lia. }
    match goal with |- bind ?x _ <> _ => destruct x as [[r2 s4]| |] eqn:E2 end;
      cbn [bind]; [|discriminate|exfalso; apply Hs3; reflexivity].
    destruct r2; discriminate.
Qed.

(** An UNSAT answer of the naive search of [SATSolverOverOptmised.cpp] is a
    proof by exhaustion: no assignment that sets all the variables 1..N
    passes the test of all clauses. *)
Theorem naive_unsat_exhaustive :
  forall fuel cls n tm a,
    0 <= n ->
    Watched.naiveSolve fuel cls n tm = Ok (false, a) ->
    forall t,
      vsize (values t) = n + 1 ->
      (forall v, 1 <= v <= n -> contains t v = true) ->
      Watched.isSatisfied cls t = false.
Proof.
  intros fuel cls n tm a Hn H t Ht Htot.
  unfold Watched.naiveSolve, solveWith in H.
  match type of H with bind ?x _ = _ => destruct x as [[r s]| |] eqn:E end;
    cbn [bind] in H; try discriminate.
  injection H as -> _.
  assert (Hlen : vsize (values (newAssignment n)) = n + 1).
  { unfold vsize. cbn [newAssignment values]. rewrite length_replicate. lia. }
  destruct (watched_naive_false cls n Hn fuel
              {| sAssignment := newAssignment n; sTm := tm; sNodes := 0 |} s Hlen E)
    as [_ Hc].
  apply Hc; [exact Ht|exact Htot|].
  cbn [sAssignment]. intros v Hv.
  apply (proj2 (newAssignment_invariant n)) in Hv. inversion Hv.
Qed.

Lemma naive_unsat_exhaustive_witness :
  0 <= 2 /\
  Watched.naiveSolve 3 contradiction2 2 None =
    Ok (false, mkAssignment [-1; -1; -1] [1; 2; 2; 1; 2; 2]) /\
  Watched.isSatisfied contradiction2 (mkAssignment [-1; 0; 1] [1; 2]) = false.
Proof.
  assert (H : Watched.naiveSolve 3 contradiction2 2 None =
              Ok (false, mkAssignment [-1; -1; -1] [1; 2; 2; 1; 2; 2]))
    by (vm_compute; reflexivity).
  split; [lia|]. split; [exact H|].
  apply (naive_unsat_exhaustive 3 contradiction2 2 None _ ltac:(lia) H).
  - reflexivity.
  - intros v Hv. assert (v = 1 \/ v = 2) as [-> | ->] by lia; reflexivity.
Defined.

(** The naive search of [SATSolverOverOptmised.cpp] on N variables never
    recurses deeper than N + 1 calls: with that much fuel it returns an
    answer or the timeout. *)
Theorem naive_search_depth :
  forall cls n tm,
    0 <= n ->
    Watched.naiveSolve (Z.to_nat (n + 1)) cls n tm <> OutOfFuel.
Proof.
  intros cls n tm Hn. unfold Watched.naiveSolve, solveWith.
  match goal with |- bind ?x _ <> _ =>
    assert (Hx : x <> OutOfFuel); [|destruct x as [[r s]| |] eqn:Ex;
                                    cbn [bind]; [discriminate|discriminate|
                                                 exfalso; apply Hx; reflexivity]] end.
  apply (watched_naive_terminates cls n Hn _ 1).
  - unfold vsize. cbn [sAssignment newAssignment values]. rewrite length_replicate. lia.
  - lia.
  - intros u Hu. lia.
  - lia.
Qed.

Lemma naive_search_depth_witness :
  0 <= 2 /\ Watched.naiveSolve (Z.to_nat (2 + 1)) contradiction2 2 None <> OutOfFuel.
Proof. split; [lia|]. apply naive_search_depth. lia. Defined.

Lemma countOf_increment key lc k :
  countOf (increment key lc) k = countOf lc k + (if key =? k then 1 else 0).
Proof.
  induction lc as [|[k' n] lc IH]; cbn [increment countOf].
  - destruct (key =? k); lia.
  - destruct (Z.eqb_spec k' key) as [->|Hne]; cbn [countOf].
    + destruct (key =? k); lia.
    + destruct (Z.eqb_spec k' k) as [->|Hne'].
      * rewrite (proj2 (Z.eqb_neq key k)) by congruence. lia.
      * exact IH.
Qed.

Lemma increment_keys key lc x :
  x ∈ (increment key lc).*1 <-> x = key \/ x ∈ lc.*1.
Proof.
  induction lc as [|[k' n] lc IH]; cbn [increment].
  - cbn. rewrite list_elem_of_singleton. split; [intros ->; left; reflexivity|].
    intros [->|H]; [reflexivity|inversion H].
  - destruct (Z.eqb_spec k' key) as [->|Hne]; cbn.
    + rewrite !elem_of_cons. tauto.
    + rewrite !elem_of_cons, IH. tauto.
Qed.

Lemma increment_positive key lc :
  Forall (fun e => 1 <= e.2) lc -> Forall (fun e => 1 <= e.2) (increment key lc).
Proof.
  induction lc as [|[k' n] lc IH]; cbn [increment]; intros H.
  - constructor; [cbn; lia|constructor].
  - apply Forall_cons in H as [Hn H]. cbn in Hn.
    destruct (k' =? key); constructor; cbn; try lia; auto.
Qed.

Lemma increment_NoDup key lc : NoDup lc.*1 -> NoDup (increment key lc).*1.
Proof.
  induction lc as [|[k' n] lc IH]; cbn [increment]; intros Hnd.
  - cbn. apply NoDup_singleton.
  - destruct (Z.eqb_spec k' key) as [->|Hne]; [exact Hnd|].
    cbn in *. apply NoDup_cons in Hnd as [Hni Hnd].
    apply NoDup_cons. split; [|exact (IH Hnd)].
    intros Hin. apply increment_keys in Hin as [Heq|Hin]; [congruence|exact (Hni Hin)].
Qed.

Lemma countClause_spec sat a c : forall lc,
  NoDup lc.*1 /\ Forall (fun e => 1 <= e.2) lc ->
  (NoDup (countClause sat a lc c).*1 /\
   Forall (fun e => 1 <= e.2) (countClause sat a lc c)) /\
  forall k, countOf (countClause sat a lc c) k =
            countOf lc k + (if sat a c then 0 else occurrencesIn a (lits c) k).
Proof.
  unfold countClause. destruct (sat a c).
  - intros lc Hnd. split; [exact Hnd|]. intros k. lia.
  - induction (lits c) as [|l ls IH]; intros lc Hnd; cbn [fold_left occurrencesIn].
    + split; [exact Hnd|]. intros k. lia.
    + destruct (contains a (var l)); cbn [negb andb].
      * destruct (IH lc Hnd) as [H1 H2]. split; [exact H1|]. intros k. rewrite H2. lia.
      * destruct (IH _ (conj (increment_NoDup (toInt l) lc (proj1 Hnd))
                               (increment_positive (toInt l) lc (proj2 Hnd)))) as [H1 H2].
        split; [exact H1|]. intros k. rewrite H2, countOf_increment. lia.
Qed.

Lemma litCount_spec sat a cls : forall lc,
  NoDup lc.*1 /\ Forall (fun e => 1 <= e.2) lc ->
  (NoDup (fold_left (countClause sat a) cls lc).*1 /\
   Forall (fun e => 1 <= e.2) (fold_left (countClause sat a) cls lc)) /\
  forall k, countOf (fold_left (countClause sat a) cls lc) k =
            countOf lc k + occurrences sat a cls k.
Proof.
  induction cls as [|c cls IH]; intros lc Hnd; cbn [fold_left occurrences].
  - split; [exact Hnd|]. intros k. lia.
  - destruct (countClause_spec sat a c lc Hnd) as [H1 H2].
    destruct (IH _ H1) as [H3 H4]. split; [exact H3|].
    intros k. rewrite H4, H2. lia.
Qed.

Lemma countOf_elem lc : NoDup lc.*1 -> forall k n, (k, n) ∈ lc -> countOf lc k = n.
Proof.
  induction lc as [|[k' n'] lc IH]; intros Hnd k n Hin; [inversion Hin|].
  cbn in Hnd. apply NoDup_cons in Hnd as [Hni Hnd]. cbn [countOf].
  apply elem_of_cons in Hin as [Heq|Hin].
  - injection Heq as -> ->. rewrite Z.eqb_refl. reflexivity.
  - destruct (Z.eqb_spec k' k) as [->|Hne]; [|exact (IH Hnd k n Hin)].
    exfalso. apply Hni. apply list_elem_of_fmap. exists (k, n). split; [reflexivity|exact Hin].
Qed.

Lemma bestOf_spec entries : forall b m,
  exists c, ((bestOf entries b m, c) = (b, m) \/ (bestOf entries b m, c) ∈ entries) /\
            m <= c /\ forall l n, (l, n) ∈ entries -> n <= c.
Proof.
  induction entries as [|[l0 n0] entries IH]; intros b m; cbn [bestOf].
  - exists m. split; [left; reflexivity|]. split; [lia|]. intros l n Hin. inversion Hin.
  - destruct (Z.gtb_spec n0 m) as [Hgt|Hle].
    + destruct (IH l0 n0) as (c & Hc & Hm & Hall). exists c.
      split; [right; destruct Hc as [->|Hc]; [left|right; exact Hc]|].
      split; [lia|]. intros l n Hin. apply elem_of_cons in Hin as [Heq|Hin].
      * injection Heq as -> ->. exact Hm.
      * exact (Hall l n Hin).
    + destruct (IH b m) as (c & Hc & Hm & Hall). exists c.
      split; [destruct Hc as [Hc|Hc]; [left; exact Hc|right; right; exact Hc]|].
      split; [exact Hm|]. intros l n Hin. apply elem_of_cons in Hin as [Heq|Hin].
      * injection Heq as -> ->. lia.
      * exact (Hall l n Hin).
Qed.

Lemma occurrencesIn_nonneg a ls k : 0 <= occurrencesIn a ls k.
Proof. induction ls as [|l ls IH]; cbn [occurrencesIn]; [lia|]. destruct (_ && _); lia. Qed.

Lemma occurrences_nonneg sat a cls k : 0 <= occurrences sat a cls k.
Proof.
  induction cls as [|c cls IH]; cbn [occurrences]; [lia|].
  pose proof (occurrencesIn_nonneg a (lits c) k). destruct (sat a c); lia.
Qed.

Lemma occurrencesIn_pos a ls k :
  1 <= occurrencesIn a ls k <->
  exists l, l ∈ ls /\ contains a (var l) = false /\ toInt l = k.
Proof.
  induction ls as [|l ls IH]; cbn [occurrencesIn].
  - split; [lia|]. intros (l & Hin & _). inversion Hin.
  - pose proof (occurrencesIn_nonneg a ls k) as Hnn. split.
    + intros H. destruct (contains a (var l)) eqn:Ec; cbn [negb andb] in H.
      * destruct (proj1 IH ltac:(lia)) as (l' & Hin & Hl'). exists l'. split; [right; exact Hin|exact Hl'].
      * destruct (Z.eqb_spec (toInt l) k) as [Heq|Hne].
        -- exists l. split; [left|]. split; [exact Ec|exact Heq].
        -- destruct (proj1 IH ltac:(lia)) as (l' & Hin & Hl'). exists l'. split; [right; exact Hin|exact Hl'].
    + intros (l' & Hin & Hc & Hk). apply elem_of_cons in Hin as [->|Hin].
      * rewrite Hc, (proj2 (Z.eqb_eq _ _) Hk). cbn. lia.
      * pose proof (proj2 IH (ex_intro _ l' (conj Hin (conj Hc Hk)))). destruct (_ && _); lia.
Qed.

Lemma occurrences_pos sat a cls k :
  1 <= occurrences sat a cls k <->
  exists c l, c ∈ cls /\ sat a c = false /\ l ∈ lits c /\
              contains a (var l) = false /\ toInt l = k.
Proof.
  induction cls as [|c cls IH]; cbn [occurrences].
  - split; [lia|]. intros (c & l & Hin & _). inversion Hin.
  - pose proof (occurrences_nonneg sat a cls k) as Hnn.
    pose proof (occurrencesIn_nonneg a (lits c) k) as Hnn'. split.
    + intros H. destruct (sat a c) eqn:Es.
      * destruct (proj1 IH ltac:(lia)) as (c' & l & Hin & Hr). exists c', l. split; [right; exact Hin|exact Hr].
      * destruct (Z.le_gt_cases 1 (occurrencesIn a (lits c) k)) as [H1|H1].
        -- apply occurrencesIn_pos in H1 as (l & Hl & Hc & Hk). exists c, l.
           split; [left|]. split; [exact Es|]. split; [exact Hl|]. split; [exact Hc|exact Hk].
        -- destruct (proj1 IH ltac:(lia)) as (c' & l & Hin & Hr). exists c', l. split; [right; exact Hin|exact Hr].
    + intros (c' & l & Hin & Hs & Hl & Hc & Hk). apply elem_of_cons in Hin as [->|Hin].
      * rewrite Hs. pose proof (proj2 (occurrencesIn_pos a (lits c) k)
                                  (ex_intro _ l (conj Hl (conj Hc Hk)))). lia.
      * pose proof (proj2 IH (ex_intro _ c' (ex_intro _ l
                      (conj Hin (conj Hs (conj Hl (conj Hc Hk))))))). destruct (sat a c); lia.
Qed.

(** [selectVariableMOMS] of both solver files, for any traversal order of
    the hash table and any clause test: it returns -1 exactly when no
    clause that fails the test has a literal whose variable is not set,
    and otherwise the absolute value of such a literal that has the most
    occurrences among all of them. *)
Theorem moms_selects_most_frequent :
  forall order sat cls a,
    (forall l, order l ≡ₚ l) ->
    let r := selectVariableMOMS order sat cls a in
    (r = -1 /\
     forall c l, c ∈ cls -> sat a c = false -> l ∈ lits c ->
                 contains a (var l) = true) \/
    (exists c l, c ∈ cls /\ sat a c = false /\ l ∈ lits c /\
                 contains a (var l) = false /\ r = Z.abs (toInt l) /\
                 forall k, occurrences sat a cls k <= occurrences sat a cls (toInt l)).
Proof.
  intros order sat cls a Hperm. cbn zeta. unfold selectVariableMOMS.
  destruct (litCount_spec sat a cls [] (conj (NoDup_nil_2) (Forall_nil_2 _)))
    as [[Hnd Hpos] Hcount].
  set (lc := fold_left (countClause sat a) cls []) in *.
  cbn [countOf] in Hcount.
  destruct (order lc) as [|[lit0 count0] rest] eqn:Eo.
  - left. split; [reflexivity|]. intros c l Hc Hs Hl.
    assert (Hlc : lc = []).
    { apply Permutation_nil_r. rewrite <- Eo. symmetry. apply Hperm. }
    destruct (contains a (var l)) eqn:Ec; [reflexivity|].
    pose proof (proj2 (occurrences_pos sat a cls (toInt l))
                  (ex_intro _ c (ex_intro _ l
                     (conj Hc (conj Hs (conj Hl (conj Ec eq_refl))))))) as Hp.
    rewrite <- (Z.add_0_l (occurrences _ _ _ _)), <- Hcount, Hlc in Hp. cbn in Hp. lia.
  - right. destruct (bestOf_spec ((lit0, count0) :: rest) lit0 count0) as (n & Hin & _ & Hall).
    set (k := bestOf ((lit0, count0) :: rest) lit0 count0) in *.
    assert (Hin' : (k, n) ∈ lc).
    { rewrite <- (Hperm lc), Eo. destruct Hin as [->|Hin]; [left|exact Hin]. }
    rewrite <- Eo in Hall.
    assert (Hk : occurrences sat a cls k = n).
    { rewrite <- (Z.add_0_l (occurrences _ _ _ _)), <- Hcount.
      apply countOf_elem; [exact Hnd|exact Hin']. }
    assert (Hn : 1 <= n).
    { rewrite Forall_forall in Hpos. exact (Hpos _ Hin'). }
    assert (Hmax : forall k', occurrences sat a cls k' <= n).
    { intros k'. destruct (Z.le_gt_cases 1 (occurrences sat a cls k')) as [Hp|Hp]; [|lia].
      apply (Hall k'). rewrite (Hperm lc).
      rewrite <- (Z.add_0_l (occurrences _ _ _ k')), <- Hcount in Hp |- *.
      clear -Hp. induction lc as [|[k1 n1] lc IH]; cbn [countOf] in *; [lia|].
      destruct (Z.eqb_spec k1 k') as [->|Hne]; [left|right; exact (IH Hp)]. }
    rewrite <- Hk in Hn. apply occurrences_pos in Hn as (c & l & Hc & Hs & Hl & Hcl & Hkl).
    exists c, l. split; [exact Hc|]. split; [exact Hs|]. split; [exact Hl|].
    split; [exact Hcl|]. split; [rewrite Hkl; reflexivity|].
    intros k'. rewrite Hkl, Hk. exact (Hmax k').
Qed.

Lemma moms_selects_most_frequent_witness :
  (forall l : list (Z * Z), (fun entries => entries) l ≡ₚ l) /\
  selectVariableMOMS (fun entries => entries) Watched.clauseTrue
    [clauseOf 0 [1; 2]; clauseOf 1 [-1; 2]; clauseOf 2 [2; 3]] (newAssignment 3) = 2 /\
  selectVariableMOMS (fun entries => entries) Watched.clauseTrue
    [clauseOf 0 [1; 2]; clauseOf 1 [-1; 2]; clauseOf 2 [2; 3]]
    (mkAssignment [-1; 0; 0; 0] [1; 2; 3]) = -1.
Proof.
  assert (Hp : forall l : list (Z * Z), (fun entries => entries) l ≡ₚ l) by reflexivity.
  split; [exact Hp|]. split; [|vm_compute; reflexivity].
  destruct (moms_selects_most_frequent (fun entries => entries) Watched.clauseTrue
              [clauseOf 0 [1; 2]; clauseOf 1 [-1; 2]; clauseOf 2 [2; 3]]
              (newAssignment 3) Hp) as [[Hr _]|_];
    [vm_compute in Hr; discriminate Hr|vm_compute; reflexivity].
Defined.

Lemma watch_length ws idx i : length (Watched.watch ws idx i) = length ws.
Proof. unfold Watched.watch. destruct (_ && _); [apply length_alter|reflexivity]. Qed.

Lemma watch_lookup ws idx i j (Hj : 0 <= j < vsize ws) x :
  x ∈ default [] (ws !! Z.to_nat j) \/ (x = i /\ j = idx) <->
  x ∈ default [] (Watched.watch ws idx i !! Z.to_nat j).
Proof.
  unfold Watched.watch, vsize in *.
  destruct (Z.leb_spec 0 idx) as [H0|H0]; cbn [andb].
  - destruct (Z.ltb_spec idx (Z.of_nat (length ws))) as [H1|H1].
    + destruct (Z.eq_dec j idx) as [->|Hne].
      * rewrite list_lookup_alter_eq.
        destruct (ws !! Z.to_nat idx) as [l|] eqn:El; cbn.
        -- rewrite elem_of_app, list_elem_of_singleton. tauto.
        -- apply lookup_ge_None in El. lia.
      * rewrite list_lookup_alter_ne by lia. split; [intros [H|[_ H]]; [exact H|lia]|tauto].
    + split; [intros [H|[_ H]]; [exact H|lia]|tauto].
  - split; [intros [H|[_ H]]; [exact H|lia]|tauto].
Qed.

Lemma initWatchesLoop_length cs : forall i ws,
  length (Watched.initWatchesLoop cs i ws) = length ws.
Proof.
  induction cs as [|c cs IH]; intros i ws; cbn [Watched.initWatchesLoop]; [reflexivity|].
  rewrite IH. destruct (lits c) as [|l0 [|l1 ls]]; rewrite ?watch_length; reflexivity.
Qed.

Lemma initWatchesLoop_spec cs : forall i0 ws idx x,
  0 <= idx < vsize ws ->
  (x ∈ default [] (Watched.initWatchesLoop cs i0 ws !! Z.to_nat idx) <->
   x ∈ default [] (ws !! Z.to_nat idx) \/
   exists (j : nat) c l, cs !! j = Some c /\ x = i0 + Z.of_nat j /\
     (lits c !! 0%nat = Some l \/ lits c !! 1%nat = Some l) /\
     Watched.litToIdx (toInt l) = idx).
Proof.
  induction cs as [|c cs IH]; intros i0 ws idx x Hidx; cbn [Watched.initWatchesLoop].
  - split; [tauto|]. intros [H|(j & c & l & Hj & _)]; [exact H|]. destruct j; discriminate Hj.
  - rewrite IH by (unfold vsize in *;
                   destruct (lits c) as [|l0 [|l1 ls]]; rewrite ?watch_length; exact Hidx).
    assert (Hhere :
      x ∈ default [] (match lits c with
                      | _ :: l1 :: _ =>
                          Watched.watch (match lits c with
                                         | l0 :: _ => Watched.watch ws (Watched.litToIdx (toInt l0)) i0
                                         | [] => ws end) (Watched.litToIdx (toInt l1)) i0
                      | _ => match lits c with
                             | l0 :: _ => Watched.watch ws (Watched.litToIdx (toInt l0)) i0
                             | [] => ws end
                      end !! Z.to_nat idx) <->
      x ∈ default [] (ws !! Z.to_nat idx) \/
      (x = i0 /\ exists l, (lits c !! 0%nat = Some l \/ lits c !! 1%nat = Some l) /\
                           Watched.litToIdx (toInt l) = idx)).
    { destruct (lits c) as [|l0 [|l1 ls]]; cbn [lookup list_lookup].
      - split; [tauto|]. intros [H|(_ & l & [H|H] & _)]; [exact H|discriminate H..].
      - rewrite <- watch_lookup by exact Hidx. split.
        + intros [H|[-> ->]]; [left; exact H|right]. split; [reflexivity|]. exists l0. tauto.
        + intros [H|(-> & l & [H|H] & <-)]; [left; exact H| |discriminate H].
          injection H as ->. right. tauto.
      - rewrite <- watch_lookup by (unfold vsize in *; rewrite watch_length; exact Hidx).
        rewrite <- watch_lookup by exact Hidx. split.
        + intros [[H|[-> ->]]|[-> ->]]; [left; exact H|right..];
            (split; [reflexivity|]); [exists l0|exists l1]; tauto.
        + intros [H|(-> & l & [H|H] & <-)]; [left; left; exact H|..];
            injection H as ->; tauto. }
    rewrite Hhere. split.
    + intros [[H|(-> & l & Hl & Hi)]|(j & c' & l & Hj & -> & Hl & Hi)].
      * left. exact H.
      * right. exists 0%nat, c, l. split; [reflexivity|]. split; [lia|]. tauto.
      * right. exists (S j), c', l. split; [exact Hj|]. split; [lia|]. tauto.
    + intros [H|(j & c' & l & Hj & -> & Hl & Hi)]; [left; left; exact H|].
      destruct j as [|j]; cbn in Hj.
      * injection Hj as ->. left. right. split; [lia|]. exists l. tauto.
      * right. exists j, c', l. split; [exact Hj|]. split; [lia|]. tauto.
Qed.

(** [initWatches] builds a table of 2 * numVars + 2 lists, and the list of
    a table index holds exactly the indices of the clauses whose first or
    second literal has that index: a clause of one literal is watched
    once, a clause of three or more by its first two literals only. *)
Theorem initWatches_first_two_literals :
  forall cls nv idx i,
    0 <= idx < 2 * nv + 2 ->
    vsize (Watched.initWatches cls nv) = 2 * nv + 2 /\
    (i ∈ default [] (Watched.initWatches cls nv !! Z.to_nat idx) <-> watchedBy cls idx i).
Proof.
  intros cls nv idx i Hidx. unfold Watched.initWatches.
  assert (Hlen : vsize (replicate (Z.to_nat (2 * nv + 2)) ([] : list Z)) = 2 * nv + 2).
  { unfold vsize. rewrite length_replicate. lia. }
  split.
  - unfold vsize in *. rewrite initWatchesLoop_length. exact Hlen.
  - rewrite initWatchesLoop_spec by (rewrite Hlen; exact Hidx).
    unfold watchedBy. split.
    + intros [H|(j & c & l & Hj & -> & Hl & Hi)].
      * destruct (replicate _ _ !! _) as [l|] eqn:El; cbn in H; [|inversion H].
        apply lookup_replicate in El as [-> _]. inversion H.
      * split; [lia|]. exists c, l. rewrite Z.add_0_l, Nat2Z.id. tauto.
    + intros (Hi & c & l & Hc & Hl & Hx). right.
      exists (Z.to_nat i), c, l. split; [exact Hc|]. split; [lia|]. tauto.
Qed.

Lemma initWatches_first_two_literals_witness :
  0 <= 4 < 2 * 3 + 2 /\
  Watched.initWatches [clauseOf 0 [1; 2; 3]; clauseOf 1 [2]] 3 =
    [[]; []; [0]; []; [0; 1]; []; []; []] /\
  watchedBy [clauseOf 0 [1; 2; 3]; clauseOf 1 [2]] 4 1.
Proof.
  split; [lia|]. split; [vm_compute; reflexivity|].
  apply (proj2 (initWatches_first_two_literals
                  [clauseOf 0 [1; 2; 3]; clauseOf 1 [2]] 3 4 1 ltac:(lia))).
  vm_compute. right. left.
Defined.

(** [litToIdx] sends the literals of the variables 1..numVars to distinct
    indices of the table that [initWatches] sizes: no two literals share a
    watch list and none falls outside the table. *)
Theorem litToIdx_injective_in_table :
  forall nv l1 l2,
    1 <= Z.abs l1 <= nv -> 1 <= Z.abs l2 <= nv ->
    2 <= Watched.litToIdx l1 < 2 * nv + 2 /\
    (Watched.litToIdx l1 = Watched.litToIdx l2 -> l1 = l2).
Proof.
  intros nv l1 l2 H1 H2. unfold Watched.litToIdx.
  destruct (Z.ltb_spec 0 l1), (Z.ltb_spec 0 l2); lia.
Qed.

Lemma litToIdx_injective_in_table_witness :
  1 <= Z.abs (-3) <= 3 /\ 1 <= Z.abs 3 <= 3 /\
  2 <= Watched.litToIdx (-3) < 2 * 3 + 2 /\
  (Watched.litToIdx (-3) = Watched.litToIdx 3 -> -3 = 3).
Proof.
  split; [lia|]. split; [lia|].
  apply (litToIdx_injective_in_table 3 (-3) 3); lia.
Defined.

Lemma unsetCount_nonneg a ls : 0 <= unsetCount a ls.
Proof. induction ls as [|l ls IH]; cbn [unsetCount]; [lia|]. destruct (contains _ _); lia. Qed.

Lemma litTrue_clauseIsSatisfied a c l :
  l ∈ lits c -> litTrue a l = true -> Rescan.clauseIsSatisfied (values a) c = true.
Proof.
  intros Hl Ht. unfold Rescan.clauseIsSatisfied. apply existsb_exists. exists l.
  split; [apply list_elem_of_In; exact Hl|].
  unfold litTrue, contains, getValue, valueAt in Ht.
  apply andb_true_iff in Ht as [Hc He].
  apply andb_true_iff in Hc as [Hc Hv]. apply andb_true_iff in Hc as [_ Hr].
  rewrite Hr, Hv, He. reflexivity.
Qed.

Lemma rescan_scan_spec a ls : forall ul n hc,
  (forall l, l ∈ ls -> litTrue a l = false) ->
  exists ul',
    Rescan.scan a ls ul n hc =
      (ul', n + unsetCount a ls, if unsetCount a ls =? 0 then hc else false).
Proof.
  induction ls as [|l ls IH]; intros ul n hc Hno; cbn [Rescan.scan unsetCount].
  - exists ul. rewrite Z.add_0_r. reflexivity.
  - pose proof (unsetCount_nonneg a ls) as Hnn.
    pose proof (Hno l ltac:(left)) as Hl. unfold litTrue in Hl.
    destruct (contains a (var l)) eqn:Ec; cbn [negb andb] in *.
    + rewrite Hl. destruct (IH ul n hc) as (ul' & ->); [intros; apply Hno; right; assumption|].
      exists ul'. reflexivity.
    + destruct (IH l (n + 1) false) as (ul' & ->); [intros; apply Hno; right; assumption|].
      exists ul'. rewrite (proj2 (Z.eqb_neq (1 + unsetCount a ls) 0)) by lia.
      destruct (_ =? 0); f_equal; f_equal; lia.
Qed.

Lemma rescan_unsatisfied_no_true a c :
  Rescan.clauseIsSatisfied (values a) c = false ->
  forall l, l ∈ lits c -> litTrue a l = false.
Proof.
  intros Hs l Hl. destruct (litTrue a l) eqn:Et; [|reflexivity].
  rewrite (litTrue_clauseIsSatisfied a c l Hl Et) in Hs. discriminate Hs.
Qed.

Lemma unsetCount_zero_falsified a c :
  (forall l, l ∈ lits c -> litTrue a l = false) ->
  unsetCount a (lits c) = 0 -> falsified a c = true.
Proof.
  unfold falsified. induction (lits c) as [|l ls IH]; intros Hno H0; [reflexivity|].
  cbn [unsetCount forallb] in *. pose proof (unsetCount_nonneg a ls).
  pose proof (Hno l ltac:(left)) as Hl. unfold litTrue in Hl.
  destruct (contains a (var l)); [|lia]. cbn [andb] in *. rewrite Hl. cbn.
  apply IH; [intros; apply Hno; right; assumption|lia].
Qed.

Lemma rescan_pass_changed cs : forall a v ok a' v' ch,
  Rescan.pass cs a v true = (ok, a', v', ch) -> ch = true.
Proof.
  induction cs as [|c cs IH]; intros a v ok a' v' ch H; cbn [Rescan.pass] in H.
  - injection H as _ _ _ <-. reflexivity.
  - destruct (Rescan.clauseIsSatisfied _ _); [exact (IH _ _ _ _ _ _ H)|].
    destruct (Rescan.scan _ _ _ _ _) as [[ul n] hc].
    destruct (hc && (n =? 0)); [injection H as _ _ _ <-; reflexivity|].
    destruct (n =? 1); exact (IH _ _ _ _ _ _ H).
Qed.

Lemma rescan_pass_quiet cs : forall a v a' v',
  Rescan.pass cs a v false = (true, a', v', false) ->
  a' = a /\
  forall c, c ∈ cs ->
            Rescan.clauseIsSatisfied (values a) c = true \/ 2 <= unsetCount a (lits c).
Proof.
  induction cs as [|c cs IH]; intros a v a' v' H; cbn [Rescan.pass] in H.
  - injection H as <- _. split; [reflexivity|]. intros c Hc. inversion Hc.
  - destruct (Rescan.clauseIsSatisfied (values a) c) eqn:Es.
    + destruct (IH _ _ _ _ H) as [-> Hall]. split; [reflexivity|].
      intros c' Hc'. apply elem_of_cons in Hc' as [->|Hc']; [left; exact Es|exact (Hall c' Hc')].
    + destruct (rescan_scan_spec a (lits c) defaultLit 0 true
                  (rescan_unsatisfied_no_true a c Es)) as (ul & Hscan).
      rewrite Hscan in H. rewrite Z.add_0_l in H.
      pose proof (unsetCount_nonneg a (lits c)) as Hnn.
      destruct (Z.eqb_spec (unsetCount a (lits c)) 0) as [H0|H0]; cbn [andb] in H;
        [discriminate H|].
      destruct (Z.eqb_spec (unsetCount a (lits c)) 1) as [H1|H1].
      * apply rescan_pass_changed in H. discriminate H.
      * destruct (IH _ _ _ _ H) as [-> Hall]. split; [reflexivity|].
        intros c' Hc'. apply elem_of_cons in Hc' as [->|Hc']; [right; lia|exact (Hall c' Hc')].
Qed.

Lemma rescan_pass_conflict cs : forall a v ch a' v' ch',
  Rescan.pass cs a v ch = (false, a', v', ch') ->
  exists c, c ∈ cs /\ falsified a' c = true.
Proof.
  induction cs as [|c cs IH]; intros a v ch a' v' ch' H; cbn [Rescan.pass] in H.
  - discriminate H.
  - assert (Hrest : forall a v ch, Rescan.pass cs a v ch = (false, a', v', ch') ->
                                   exists c0, c0 ∈ c :: cs /\ falsified a' c0 = true).
    { intros a0 v0 ch0 H0. destruct (IH _ _ _ _ _ _ H0) as (c0 & Hc0 & Hf).
      exists c0. split; [right; exact Hc0|exact Hf]. }
    destruct (Rescan.clauseIsSatisfied (values a) c) eqn:Es; [exact (Hrest _ _ _ H)|].
    destruct (rescan_scan_spec a (lits c) defaultLit 0 true
                (rescan_unsatisfied_no_true a c Es)) as (ul & Hscan).
    rewrite Hscan in H. rewrite Z.add_0_l in H.
    destruct (Z.eqb_spec (unsetCount a (lits c)) 0) as [H0|H0]; cbn [andb] in H.
    + injection H as <- _ _. exists c. split; [left|].
      exact (unsetCount_zero_falsified a c (rescan_unsatisfied_no_true a c Es) H0).
    + destruct (_ =? 1); exact (Hrest _ _ _ H).
Qed.

(** [unitPropagation] of [SATSOLverOPtimsed2.cpp], when it returns: the
    answer true leaves every clause either satisfied or with at least two
    literals whose variable is not set, and the answer false leaves a
    clause all of whose literals are set and false. *)
Theorem rescan_unitPropagation_outcome :
  forall fuel s tm ok s' tm',
    Rescan.unitPropagation fuel s tm = Ok (ok, s', tm') ->
    let a' := Rescan.assignment s' in
    if ok
    then forall c, c ∈ Rescan.clauses s ->
                   Rescan.clauseIsSatisfied (values a') c = true \/
                   2 <= unsetCount a' (lits c)
    else exists c, c ∈ Rescan.clauses s /\ falsified a' c = true.
Proof.
  induction fuel as [|fuel IH]; intros s tm ok s' tm' H; [discriminate H|].
  cbn [Rescan.unitPropagation] in H.
  destruct (checkIf tm) as [tm1| |]; cbn [bind] in H; try discriminate H.
  destruct (Rescan.pass (Rescan.clauses s) (Rescan.assignment s) (Rescan.vsids s) false)
    as [[[ok1 a1] v1] ch] eqn:Ep.
  destruct ok1; cbn [negb] in H.
  - destruct ch.
    + apply IH in H. exact H.
    + injection H as <- <- _. cbn.
      destruct (rescan_pass_quiet _ _ _ _ _ Ep) as [-> Hall]. exact Hall.
  - injection H as <- <- _. cbn. exact (rescan_pass_conflict _ _ _ _ _ _ _ Ep).
Qed.

Lemma rescan_unitPropagation_outcome_witness :
  let s := Rescan.newSolver [clauseOf 0 [1]; clauseOf 1 [-1; 2]; clauseOf 2 [-2; 3; 4]] 4 in
  exists s' tm',
    Rescan.unitPropagation 3 s None = Ok (true, s', tm') /\
    values (Rescan.assignment s') = [-1; 1; 1; -1; -1] /\
    forall c, c ∈ Rescan.clauses s ->
              Rescan.clauseIsSatisfied (values (Rescan.assignment s')) c = true \/
              2 <= unsetCount (Rescan.assignment s') (lits c).
Proof.
  intros s.
  destruct (Rescan.unitPropagation 3 s None) as [[[ok s'] tm']| |] eqn:E;
    [|vm_compute in E; discriminate E..].
  assert (Hok : ok = true) by (vm_compute in E; injection E as <- _ _; reflexivity).
  subst ok. exists s', tm'. split; [reflexivity|].
  split; [vm_compute in E; injection E as <- _; reflexivity|].
  exact (rescan_unitPropagation_outcome 3 s None true s' tm' E).
Defined.

Lemma unsetBelow_bounds a n : 0 <= unsetBelow a n <= Z.of_nat n.
Proof.
  induction n as [|n IH]; cbn [unsetBelow]; [lia|]. destruct (contains _ _); lia.
Qed.

Lemma unsetBelow_set a b v (Hv : 0 < v)
  (Hb : forall u, contains b u = if u =? v then true else contains a u)
  (Ha : contains a v = false) n :
  unsetBelow b n = unsetBelow a n - (if v <=? Z.of_nat n then 1 else 0).
Proof.
  induction n as [|n IH]; cbn [unsetBelow].
  - rewrite (proj2 (Z.leb_gt v (Z.of_nat 0))) by lia. lia.
  - rewrite IH, Hb. destruct (Z.eqb_spec (Z.of_nat (S n)) v) as [Heq|Hne].
    + rewrite Heq, Ha. rewrite (proj2 (Z.leb_le v v)) by lia.
      rewrite (proj2 (Z.leb_gt v (Z.of_nat n))) by lia. lia.
    + destruct (Z.leb_spec v (Z.of_nat (S n))), (Z.leb_spec v (Z.of_nat n)); try lia.
Qed.

Lemma rescan_assign_unset a n v b :
  vsize (values a) = n + 1 -> 1 <= v <= n -> contains a v = false ->
  values (Rescan.assign a v b) = <[Z.to_nat v := Z.b2z b]> (values a).
Proof.
  intros Hlen Hv Hc. pose proof (valueAt_unset a n v Hlen Hv Hc) as Hu.
  unfold Rescan.assign, valueAt. rewrite to_size_t_nonneg, vget_lookup by lia.
  destruct (Z.leb_spec v 0); [lia|]. destruct (Z.geb_spec v (vsize (values a))); [lia|].
  rewrite Hu. cbn. destruct b; reflexivity.
Qed.

Lemma rescan_scan_last a ls : forall ul n hc ul' n' hc',
  Rescan.scan a ls ul n hc = (ul', n', hc') ->
  n <= n' /\ (n = n' -> ul' = ul) /\
  (n < n' -> ul' ∈ ls /\ contains a (var ul') = false).
Proof.
  induction ls as [|l ls IH]; intros ul n hc ul' n' hc' H; cbn [Rescan.scan] in H.
  - injection H as <- <- _. split; [lia|]. split; [reflexivity|lia].
  - destruct (contains a (var l)) eqn:Ec; cbn [negb] in H.
    + destruct (Bool.eqb _ _).
      * injection H as <- <- _. split; [lia|]. split; [reflexivity|lia].
      * destruct (IH _ _ _ _ _ _ H) as (Hle & Heq & Hin). split; [exact Hle|].
        split; [exact Heq|].
        intros Hlt. destruct (Hin Hlt) as [H1 H2]. split; [right; exact H1|exact H2].
    + destruct (IH _ _ _ _ _ _ H) as (Hle & Heq & Hin). split; [lia|].
      split; [lia|]. intros _.
      destruct (Z.eq_dec (n + 1) n') as [He|Hne].
      * rewrite (Heq He). split; [left|exact Ec].
      * destruct (Hin ltac:(lia)) as [H1 H2]. split; [right; exact H1|exact H2].
Qed.

Lemma rescan_pass_measure n (Hn : 0 <= n) cs : forall a v ch ok a' v' ch',
  vsize (values a) = n + 1 ->
  (forall c l, c ∈ cs -> l ∈ lits c -> 1 <= var l <= n) ->
  Rescan.pass cs a v ch = (ok, a', v', ch') ->
  vsize (values a') = n + 1 /\
  unsetBelow a' (Z.to_nat n) <= unsetBelow a (Z.to_nat n) /\
  (ch = false -> ch' = true -> unsetBelow a' (Z.to_nat n) < unsetBelow a (Z.to_nat n)).
Proof.
  induction cs as [|c cs IH]; intros a v ch ok a' v' ch' Hlen Hr H; cbn [Rescan.pass] in H.
  - injection H as _ <- _ <-. split; [exact Hlen|]. split; [lia|]. intros ->. discriminate.
  - assert (Hr' : forall c0 l, c0 ∈ cs -> l ∈ lits c0 -> 1 <= var l <= n).
    { intros c0 l Hc0. apply Hr. right. exact Hc0. }
    destruct (Rescan.clauseIsSatisfied _ _); [exact (IH _ _ _ _ _ _ _ Hlen Hr' H)|].
    destruct (Rescan.scan a (lits c) defaultLit 0 true) as [[ul cnt] hc] eqn:Es.
    destruct (hc && (cnt =? 0)).
    { injection H as _ <- _ <-. split; [exact Hlen|]. split; [lia|]. intros ->. discriminate. }
    destruct (Z.eqb_spec cnt 1) as [->|_]; [|exact (IH _ _ _ _ _ _ _ Hlen Hr' H)].
    destruct (rescan_scan_last _ _ _ _ _ _ _ _ Es) as (_ & _ & Hin).
    destruct (Hin ltac:(lia)) as [Hul Hc].
    pose proof (Hr c ul ltac:(left) Hul) as Hv.
    pose proof (rescan_assign_unset a n (var ul) (sign ul) Hlen Hv Hc) as Hvals.
    pose proof (values_length_insert a _ n _ _ Hlen Hvals) as Hlen1.
    destruct (IH _ _ _ _ _ _ _ Hlen1 Hr' H) as (Hl' & Hle & _).
    assert (Hm : unsetBelow (Rescan.assign a (var ul) (sign ul)) (Z.to_nat n)
                 = unsetBelow a (Z.to_nat n) - 1).
    { rewrite (unsetBelow_set a _ (var ul)); [| lia | | exact Hc].
      - rewrite (proj2 (Z.leb_le (var ul) (Z.of_nat (Z.to_nat n)))) by lia. reflexivity.
      - intros u. rewrite (contains_after_insert a _ n (var ul) _ u Hlen Hv Hvals).
        destruct (u =? var ul); [|reflexivity]. destruct (sign ul); reflexivity. }
    split; [exact Hl'|]. split; lia.
Qed.

Lemma rescan_unitPropagation_fuel n (Hn : 0 <= n) : forall fuel s tm,
  vsize (values (Rescan.assignment s)) = n + 1 ->
  literalsInRange (Rescan.clauses s) n ->
  (Z.to_nat (unsetBelow (Rescan.assignment s) (Z.to_nat n) + 1) <= fuel)%nat ->
  Rescan.unitPropagation fuel s tm <> OutOfFuel.
Proof.
  induction fuel as [|fuel IH]; intros s tm Hlen Hr Hfuel.
  - pose proof (unsetBelow_bounds (Rescan.assignment s) (Z.to_nat n)). lia.
  - cbn [Rescan.unitPropagation].
    pose proof (checkIf_not_out_of_fuel tm) as Hck.
    destruct (checkIf tm) as [tm1| |]; cbn [bind];
      [|discriminate|exfalso; apply Hck; reflexivity].
    destruct (Rescan.pass (Rescan.clauses s) (Rescan.assignment s) (Rescan.vsids s) false)
      as [[[ok a1] v1] ch] eqn:Ep.
    destruct (rescan_pass_measure n Hn _ _ _ _ _ _ _ _ Hlen Hr Ep) as (Hl1 & Hle & Hlt).
    destruct ok; cbn [negb]; [|discriminate].
    destruct ch; [|discriminate].
    apply IH.
    + exact Hl1.
    + exact Hr.
    + cbn. specialize (Hlt eq_refl eq_refl).
      pose proof (unsetBelow_bounds a1 (Z.to_nat n)). lia.
Qed.

(** [unitPropagation] of [SATSOLverOPtimsed2.cpp] leaves its [while] loop
    after at most numVars + 1 rounds when every literal names a variable
    of 1..numVars: each round that sets [changed] sets a variable more. *)
Theorem rescan_unitPropagation_terminates :
  forall s tm n,
    0 <= n ->
    vsize (values (Rescan.assignment s)) = n + 1 ->
    literalsInRange (Rescan.clauses s) n ->
    Rescan.unitPropagation (Z.to_nat (n + 1)) s tm <> OutOfFuel.
Proof.
  intros s tm n Hn Hlen Hr. apply (rescan_unitPropagation_fuel n Hn); [exact Hlen|exact Hr|].
  pose proof (unsetBelow_bounds (Rescan.assignment s) (Z.to_nat n)). lia.
Qed.

Lemma rescan_unitPropagation_terminates_witness :
  let s := Rescan.newSolver [clauseOf 0 [1]; clauseOf 1 [-1; 2]; clauseOf 2 [-2; 3; 4]] 4 in
  0 <= 4 /\
  vsize (values (Rescan.assignment s)) = 4 + 1 /\
  literalsInRange (Rescan.clauses s) 4 /\
  Rescan.unitPropagation (Z.to_nat (4 + 1)) s None <> OutOfFuel.
Proof.
  intros s.
  assert (Hr : literalsInRange (Rescan.clauses s) 4).
  { intros c l Hc Hl. cbn in Hc.
    repeat (apply elem_of_cons in Hc as [->|Hc]);
      [cbn in Hl; repeat (apply elem_of_cons in Hl as [->|Hl]); try (cbn; lia); inversion Hl..
      |inversion Hc]. }
  split; [lia|]. split; [reflexivity|]. split; [exact Hr|].
  apply rescan_unitPropagation_terminates; [lia|reflexivity|exact Hr].
Defined.

(** The same loop never ends on a unit clause whose variable lies beyond
    numVars: the variable is never found set, [assign] refuses to write
    it, and [changed] is set in every round.  Without a guard no number
    of rounds is enough. *)
Theorem rescan_unitPropagation_out_of_range_loops :
  forall fuel nv l i,
    0 <= nv -> nv < var l ->
    Rescan.unitPropagation fuel (Rescan.newSolver [mkSClause [l] i] nv) None = OutOfFuel.
Proof.
  intros fuel nv l i Hnv Hl. unfold Rescan.newSolver.
  generalize (newVsids nv). induction fuel as [|fuel IH]; intros v; [reflexivity|].
  assert (Hlen : vsize (values (newAssignment nv)) = nv + 1).
  { unfold vsize. cbn [newAssignment values]. rewrite length_replicate. lia. }
  assert (Hc : contains (newAssignment nv) (var l) = false).
  { apply (contains_outside _ nv); [exact Hlen|lia]. }
  assert (Houts : (to_size_t (var l) <? vsize (values (newAssignment nv))) = false).
  { rewrite to_size_t_nonneg by lia. apply Z.ltb_ge. lia. }
  cbn [Rescan.unitPropagation checkIf bind Rescan.clauses Rescan.assignment Rescan.vsids
       Rescan.pass lits].
  unfold Rescan.clauseIsSatisfied at 1. cbn [lits existsb]. rewrite Houts. cbn [andb orb].
  cbn [Rescan.scan]. rewrite Hc. cbn [negb Rescan.scan andb Z.add Z.eqb Pos.eqb].
  assert (Ha : Rescan.assign (newAssignment nv) (var l) (sign l) = newAssignment nv).
  { unfold Rescan.assign. rewrite to_size_t_nonneg by lia.
    destruct (Z.leb_spec (var l) 0); [lia|].
    destruct (Z.geb_spec (var l) (vsize (values (newAssignment nv)))); [reflexivity|lia]. }
  rewrite Ha. cbn [negb Rescan.withAssignment Rescan.withVsids Rescan.clauses Rescan.numVars
                   Rescan.assignment Rescan.vsids].
  apply IH.
Qed.

Lemma rescan_unitPropagation_out_of_range_loops_witness :
  0 <= 1 /\ 1 < var (lit 2) /\
  Rescan.unitPropagation 50 (Rescan.newSolver [mkSClause [lit 2] 0] 1) None = OutOfFuel.
Proof.
  split; [lia|]. split; [cbn; lia|].
  apply rescan_unitPropagation_out_of_range_loops; cbn; lia.
Defined.

End Extras.
